(* ===== verification/_CoqProject ===== *)
-Q . S2P
Prelude.v
Model.v
VoiceHandler.v
Playback.v
Registry.v
RegistrySpec.v
Spotify.v
FanOut.v
Rerank.v
