(* ===== verification/Prelude.v ===== *)
(** * NodeLink: a verification development of the playback core

    This library models, in Rocq, the two JavaScript files of NodeLink's
    audio node that are given as sources:

    - [src/src/connection/voiceHandler.js], class [VoiceConnection]: one
      instance per guild.  It owns the guild's voice session (the
      [@performanc/voice] connection), the session configuration
      ([this.config]: track, volume, paused flag, filters, voice
      credentials, telemetry state) and a private cache ([this.cache]:
      resolved url and protocol, staged volume, start timestamp).  Its
      methods are the commands of the control channel ([play], [stop],
      [volume], [pause], [filters], [updateVoice], [destroy]) and the
      listeners [setup] attaches to the connection ([stateChange],
      [playerStateChange], [error]) plus the periodic [playerUpdate]
      timer.  All of them write JSON events to the shared client socket
      ([client.ws.send]) and update two process-wide counters
      ([nodelinkPlayersCount], [nodelinkPlayingPlayersCount]) and the
      registry [client.players].
    - [src/src/sources/spotify.js]: the Spotify source ([init], [search],
      [loadFrom]), which turns Spotify catalogue answers into tracks by a
      fan-out of [searchWithDefault] calls, rejoins the results and
      re-ranks them by the position of the matching catalogue item.

    ** Files

    - [Prelude] (this file): the JavaScript run-time notions shared by
      every component: [JsError], the free monad [prog] of asynchronous
      JavaScript code over a state (get, put, throw, and [await] on a
      typed query to an external collaborator), its one-step executor
      [exec] that runs a handler up to its next [await], the monad laws,
      the rely/guarantee predicate [guar] (every write of a program
      satisfies a relation [R]) with [guar_exec] and [guar_run],
      [nonblocking] programs (no [await] on any path), the [nodelink]
      hint databases and the tactics [simp_exec], [nb_tac] and
      [case_if].
    - [Model]: the data of the program: JSON values, [TrackInfo] and
      [Track], the outbound event envelopes ([OutMsg]), the voice
      connection's observable state ([Conn]) and the commands sent to it,
      the queries the handlers await and their answers, and the
      configuration and the synchronous collaborators of [config.js],
      [constants.js] and [filters.js] as the class [NodeEnv].
    - [VoiceHandler]: the class [VoiceConnection]: its state [VC] (fields
      [connection], [cache], [config], [stateInterval]), the world a
      handler runs in ([World]: the object, its identity and the global
      state [Glob]) and one definition per method and listener, each a
      [prog] translated statement by statement from the source.
    - [Playback]: the theorems on the handlers: the behaviour of every
      branch of [play], [stop], [volume], [pause], [filters], the
      listeners and [destroy], error paths included.
    - [Registry]: the node process: a heap of [VoiceConnection] objects
      by identity, the global state, the continuations of the handlers
      that are awaiting, and [step], the event loop: a guild's session is
      created ([create]: constructor, [client.players.set], [setup]), a
      command is dispatched through [client.players], the connection
      emits an event or changes state, an interval fires, the clock
      advances, or any pending [await] resumes with any answer.  Every
      handler guarantees [frame] of each state it writes ([guar], proved
      by [guar_tac]); the invariant [Inv] of the reachable states follows
      by rule induction ([registry_consistent], [players_count_created]);
      named reachable executions show a destroyed session still starting
      playback ([sc_play_destroyed]), two plays settling out of order
      ([sc_two_plays]), the counters after a create/destroy, and an
      unclamped volume.
    - [RegistrySpec]: the contract of [client.players] as an abstract
      machine ([AbsRegistry.astep]: a guild without a session gets a
      fresh object, otherwise entries are only dropped) and the
      refinement [registry_refines]: [abs] maps every reachable state of
      [Registry] to an abstract reachable state and every execution to an
      abstract one (a simulation with stuttering, by rule induction);
      from the contract, [no_reregistration]: a destroyed session's
      object is never registered again.
    - [Spotify]: [spotify.js]: [init] over [playerInfo], the token wait
      of [search], and [search]/[loadFrom] up to the fan-out
      [items.forEach(async ...)].  The callbacks are [prog]s over the
      closure ([tracks], [index], [shouldStop], the promise) with the
      track objects in a store, so that [track2.info.position = index2]
      writes through an alias as in the code; [spawn_all] is the
      synchronous pass of [forEach] and [settle] completes the pending
      lookups in a given order.
    - [FanOut]: what the fan-out of [spotify.js] computes, once for
      [search] and for playlists and albums: the rejoin as a function of
      the store ([join_outer_exec], [join_pure]); the interface [FanOut]
      of a kind of catalogue item (its callback body, its rejoin test,
      the track it builds, its key, and their laws) with the instances
      [search_fan_out] and [list_fan_out]; for every instance and every
      completion order, the tracks come back in catalogue order with
      their positions ([fan_out_order], through [settle_spec]); a
      fan-out whose callbacks keep a relation keeps it ([fan_out_guar]);
      the callback outcome [CbThrows] of one item leaves the promise
      unresolved for every order ([fan_out_throw_pending]: [sp_index]
      plus the waiting callbacks that can still count stays below the
      last count, [stuck_inv]); and no callback is left waiting once
      every lookup has completed ([fan_out_drains]).
    - [Rerank]: the theorems on [spotify.js]: at most
      [maxResultsLength] lookups in flight, every callback completing, a
      throwing callback leaving [search] or [loadFrom] pending, the
      catalogue order
      restored by [search] and by [loadFrom] of a playlist or an album,
      duplicates aliased and a [null] entry leaving [search] pending, a
      show never yielding a track, the API errors of [loadFrom] (the 401
      path throws a [ReferenceError]), a track load, [init], and the
      token wait.
    ** How asynchrony is modelled

    A JavaScript [async] method runs synchronously until its first
    [await]; other handlers (transport events, timer callbacks, other
    commands and other resumed continuations) may run before it resumes.
    A handler is therefore a [prog]: [exec] runs it to completion, to a
    thrown error (the state changes made before the throw are kept, as
    in JavaScript), or to an [await] whose continuation is returned.
    [Registry] keeps these continuations and resumes them in any order
    with any answer of the right type, which models the arbitrary
    completion order of the resolver, the filter pipeline and
    [waitForEvent]; [Spotify]'s [settle] does the same for the lookups
    of a fan-out, in an order given as a list of item positions.  No
    fuel is needed: a [prog] is a finite tree, and [exec] is structural.
    The one loop that can spin for ever, the token wait of [search], is
    [token_loop] with a fuel bound over a fixed [playerInfo]: that the
    loop never yields to [init] (its [sleep] is not awaited) is taken
    from the code as the reason [playerInfo] is fixed, not proved, since
    the event loop of the Spotify module is not modelled; no theorem is
    stated on it.

    ** What is not modelled

    The voice wire protocol ([@performanc/voice]), the resolvers of
    [sources.js], the filter pipeline of [filters.js], [waitForEvent] of
    [utils.js], [inputHandler] and [debugLog] are not in the sources:
    they appear only through the answers of the awaited queries, the
    commands logged to the connection, and the fields of [NodeEnv].
    [debugLog] has no effect on the state; where evaluating its
    arguments can throw (a property read on [null]) the read is kept.
    HTTP and JSON encoding are not modelled: a sent message is the value
    given to [JSON.stringify].  In [spotify.js] the HTTPS/zlib transport
    and [JSON.parse] are not modelled: an answer of the Spotify API is a
    typed view of the fields the code reads ([SItem], [PItem],
    [Episode], [ApiData]), with [option] where a read can meet
    [undefined]; [searchWithDefault], [makeRequest] and [encodeTrack]
    are outside the sources and appear as the answers of queries and a
    field of [SpotifyEnv].  The request router that calls the
    [VoiceConnection] methods and registers sessions is modelled from
    the spec in [Registry] ([cmd_prog], [dispatch], [create]). *)

From stdpp Require Export base list strings gmap.
From Stdlib Require Export ZArith Lia.

(** ** JavaScript errors *)

(** The errors the modelled code can throw: a property read on [null]
    or [undefined] raises a [TypeError]; a call to an unbound identifier
    raises a [ReferenceError]; an awaited promise may reject with an error
    of a collaborator. *)
Inductive JsError :=
  | TypeError (what : string)
  | ReferenceError (name : string)
  | Rejected (reason : string).

#[export] Instance JsError_eq_dec : EqDecision JsError.
Proof. solve_decision. Defined.

(** [x == y] on values of a type with decidable equality; it reduces on
    closed values, which [bool_decide] does not under [cbn]. *)
Definition js_eq {A} {dec : EqDecision A} (x y : A) : bool :=
  if dec x y then true else false.

Lemma js_eq_spec {A} `{EqDecision A} (x y : A) : js_eq x y = true <-> x = y.
Proof. unfold js_eq. destruct (_ x y); split; congruence. Qed.

Lemma js_eq_false {A} `{EqDecision A} (x y : A) : x <> y -> js_eq x y = false.
Proof. unfold js_eq. destruct (_ x y); congruence. Qed.

Lemma js_eq_refl {A} `{EqDecision A} (x : A) : js_eq x x = true.
Proof. apply js_eq_spec. reflexivity. Qed.

(** ** Asynchronous code over a state *)

Section Prog.
Context {S : Type} {Q : Type} {Ans : Q -> Type}.

(** A program: return, throw, read or write the state, or await the
    answer to a query. *)
Inductive prog (A : Type) : Type :=
  | PRet (a : A)
  | PThrow (e : JsError)
  | PGet (k : S -> prog A)
  | PPut (s : S) (k : prog A)
  | PAwait (q : Q) (k : Ans q -> prog A).

Arguments PRet {A}.
Arguments PThrow {A}.
Arguments PGet {A}.
Arguments PPut {A}.
Arguments PAwait {A}.

Fixpoint prog_bind {A B} (p : prog A) (f : A -> prog B) : prog B :=
  match p with
  | PRet a => f a
  | PThrow e => PThrow e
  | PGet k => PGet (fun s => prog_bind (k s) f)
  | PPut s k => PPut s (prog_bind k f)
  | PAwait q k => PAwait q (fun x => prog_bind (k x) f)
  end.

(** Where a program stops: it returned, it threw (with the state at
    the throw), or it awaits the answer to [q]. *)
Inductive outcome (A : Type) : Type :=
  | Done (a : A) (s : S)
  | Failed (e : JsError) (s : S)
  | Blocked (q : Q) (k : Ans q -> prog A) (s : S).

Arguments Done {A}.
Arguments Failed {A}.
Arguments Blocked {A}.

(** Run a program from a state up to its end or its next [await]. *)
Fixpoint exec {A} (p : prog A) (s : S) : outcome A :=
  match p with
  | PRet a => Done a s
  | PThrow e => Failed e s
  | PGet k => exec (k s) s
  | PPut s' k => exec k s'
  | PAwait q k => Blocked q k s
  end.

(** The state an outcome leaves. *)
Definition out_state {A} (o : outcome A) : S :=
  match o with Done _ s | Failed _ s | Blocked _ _ s => s end.

(** Where a program ends when every [await] is answered at once by
    [o]: no other handler runs in between. *)
Inductive result (A : Type) : Type :=
  | RDone (a : A) (s : S)
  | RFailed (e : JsError) (s : S).

Arguments RDone {A}.
Arguments RFailed {A}.

(** Run a program to its end, answering each query with [o]. *)
Fixpoint run {A} (o : forall q, Ans q) (p : prog A) (s : S) : result A :=
  match p with
  | PRet a => RDone a s
  | PThrow e => RFailed e s
  | PGet k => run o (k s) s
  | PPut s' k => run o k s'
  | PAwait q k => run o (k (o q)) s
  end.

Definition get : prog S := PGet PRet.
Definition put (s : S) : prog unit := PPut s (PRet tt).
Definition gets {B} (f : S -> B) : prog B := PGet (fun s => PRet (f s)).
Definition modify (f : S -> S) : prog unit := PGet (fun s => PPut (f s) (PRet tt)).
Definition throw {A} (e : JsError) : prog A := PThrow e.
Definition await (q : Q) : prog (Ans q) := PAwait q PRet.

End Prog.

Arguments prog : clear implicits.
Arguments outcome : clear implicits.
Arguments PRet {S Q Ans A}.
Arguments PThrow {S Q Ans A}.
Arguments PGet {S Q Ans A}.
Arguments PPut {S Q Ans A}.
Arguments PAwait {S Q Ans A}.
Arguments Done {S Q Ans A}.
Arguments Failed {S Q Ans A}.
Arguments Blocked {S Q Ans A}.
Arguments result : clear implicits.
Arguments RDone {S A}.
Arguments RFailed {S A}.

#[export] Instance prog_ret {S Q Ans} : MRet (prog S Q Ans) := fun A a => PRet a.
#[export] Instance prog_mbind {S Q Ans} : MBind (prog S Q Ans) :=
  fun A B f p => prog_bind p f.

(** Run [c] only when [b] holds: [if (b) c]. *)
Definition when {S Q Ans} (b : bool) (c : prog S Q Ans unit) : prog S Q Ans unit :=
  if b then c else mret tt.

(** ** Laws of the program monad and of [exec] *)

Section Laws.
Context {S Q : Type} {Ans : Q -> Type}.
Local Abbreviation P := (prog S Q Ans).

Lemma bind_ret_l {A B} (a : A) (f : A -> P B) : (mret a ≫= f) = f a.
Proof. reflexivity. Qed.

(** Running [p ≫= f] runs [p], then [f] on its result; a throw or an
    [await] of [p] stops the whole program there. *)
Lemma exec_bind {A B} (p : P A) (f : A -> P B) (s : S) :
  exec (p ≫= f) s =
  match exec p s with
  | Done a s' => exec (f a) s'
  | Failed e s' => Failed e s'
  | Blocked q k s' => Blocked q (fun x => k x ≫= f) s'
  end.
Proof.
  revert s. induction p as [a|e|k IH|s0 k IH|q k IH]; intros s; cbn; try apply IH; reflexivity.
Qed.

Lemma exec_bind_done {A B} (p : P A) (f : A -> P B) s a s' :
  exec p s = Done a s' -> exec (p ≫= f) s = exec (f a) s'.
Proof. intros H. rewrite exec_bind, H. reflexivity. Qed.

Lemma exec_bind_failed {A B} (p : P A) (f : A -> P B) s e s' :
  exec p s = Failed e s' -> exec (p ≫= f) s = Failed e s'.
Proof. intros H. rewrite exec_bind, H. reflexivity. Qed.

Lemma run_bind {A B} (o : forall q, Ans q) (p : P A) (f : A -> P B) (s : S) :
  run o (p ≫= f) s =
  match run o p s with
  | RDone a s' => run o (f a) s'
  | RFailed e s' => RFailed e s'
  end.
Proof.
  revert s. induction p as [a|e|k IH|s0 k IH|q k IH]; intros s; cbn; try apply IH; reflexivity.
Qed.

Lemma run_prog_bind {A B} (o : forall q, Ans q) (p : P A) (f : A -> P B) (s : S) :
  run o (prog_bind p f) s =
  match run o p s with
  | RDone a s' => run o (f a) s'
  | RFailed e s' => RFailed e s'
  end.
Proof. apply run_bind. Qed.

Lemma run_bind_done {A B} (o : forall q, Ans q) (p : P A) (f : A -> P B) s a s' :
  run o p s = RDone a s' -> run o (p ≫= f) s = run o (f a) s'.
Proof. intros H. rewrite run_bind, H. reflexivity. Qed.

(** Binds reassociate under [run]. *)
Lemma run_bind_assoc {A B C} (o : forall q, Ans q) (p : P A) (f : A -> P B)
    (g : B -> P C) (s : S) :
  run o ((p ≫= f) ≫= g) s = run o (p ≫= (fun x => f x ≫= g)) s.
Proof. rewrite !run_bind. destruct (run o p s); [symmetry; apply run_bind | reflexivity]. Qed.

Lemma run_prog_bind_assoc {A B C} (o : forall q, Ans q) (p : P A) (f : A -> P B)
    (g : B -> P C) (s : S) :
  run o (prog_bind (p ≫= f) g) s = run o (p ≫= (fun x => f x ≫= g)) s.
Proof. apply run_bind_assoc. Qed.

(** [run] continues where [exec] stops. *)
Lemma run_exec {A} (o : forall q, Ans q) (p : P A) (s : S) :
  run o p s =
  match exec p s with
  | Done a s' => RDone a s'
  | Failed e s' => RFailed e s'
  | Blocked q k s' => run o (k (o q)) s'
  end.
Proof.
  revert s. induction p as [a|e|k IH|s0 k IH|q k IH]; intros s; cbn; try apply IH; reflexivity.
Qed.

Lemma exec_ret {A} (a : A) s : exec (mret a : P A) s = Done a s.
Proof. reflexivity. Qed.

Lemma exec_get s : exec (get : P S) s = Done s s.
Proof. reflexivity. Qed.

Lemma exec_put s s' : exec (put s' : P unit) s = Done tt s'.
Proof. reflexivity. Qed.

Lemma exec_modify f s : exec (modify f : P unit) s = Done tt (f s).
Proof. reflexivity. Qed.

Lemma exec_when_false (c : P unit) s : exec (when false c) s = Done tt s.
Proof. reflexivity. Qed.

Lemma exec_when_true (c : P unit) s : exec (when true c) s = exec c s.
Proof. reflexivity. Qed.

End Laws.

(** ** Guarantees of a program

    [guar R s p]: every state [p] writes is [R]-related to the state
    before the write, from [s] on, and every continuation after an
    [await] has the same property from whatever state it resumes in (other
    handlers may have run in between).  With [R] reflexive and
    transitive, the states [exec] reaches are [R]-related to the start. *)

Section Guarantee.
Context {S Q : Type} {Ans : Q -> Type} (R : S -> S -> Prop).
Local Abbreviation P := (prog S Q Ans).

Inductive guar {A} : S -> P A -> Prop :=
  | guar_ret s a : guar s (PRet a)
  | guar_throw s e : guar s (PThrow e)
  | guar_get s k : guar s (k s) -> guar s (PGet k)
  | guar_put s s' k : R s s' -> guar s' k -> guar s (PPut s' k)
  | guar_await s q k : (forall a s', guar s' (k a)) -> guar s (PAwait q k).

Lemma guar_bind {A B} (p : P A) (f : A -> P B) s :
  guar s p -> (forall a s', guar s' (f a)) -> guar s (p ≫= f).
Proof.
  intros Hp Hf. induction Hp; cbn; try constructor; auto.
Qed.

Context `{!Reflexive R} `{!Transitive R}.

(** What [exec] reaches satisfies [R] from the start, and a blocked
    program leaves continuations with the guarantee. *)
Lemma guar_exec {A} (p : P A) s :
  guar s p ->
  match exec p s with
  | Done _ s' | Failed _ s' => R s s'
  | Blocked q k s' => R s s' /\ forall a s'', guar s'' (k a)
  end.
Proof.
  induction 1 as [s a|s e|s k _ IH|s s' k Hr _ IH|s q k Hk _]; cbn.
  - reflexivity.
  - reflexivity.
  - exact IH.
  - destruct (exec k s'); [| | destruct IH as [IH1 IH2]; split; [|exact IH2]];
      etransitivity; eauto.
  - split; [reflexivity | exact Hk].
Qed.

(** What [run] reaches, answering with [o], satisfies [R] from the start. *)
Lemma guar_run {A} (o : forall q, Ans q) (p : P A) s :
  guar s p -> match run o p s with RDone _ s' | RFailed _ s' => R s s' end.
Proof.
  induction 1 as [s a|s e|s k _ IH|s s' k Hr _ IH|s q k _ IH]; cbn; try reflexivity.
  - exact IH.
  - destruct (run o k s'); etransitivity; eauto.
  - apply IH.
Qed.


End Guarantee.

(** ** Programs that never [await]

    A program with no [await] on any path runs to its end or throws
    from every state: once resumed, a callback made of such code
    completes. *)

Section NonBlocking.
Context {S Q : Type} {Ans : Q -> Type}.
Local Abbreviation P := (prog S Q Ans).

Definition nonblocking {A} (p : P A) : Prop :=
  forall s, match exec p s with Blocked _ _ _ => False | _ => True end.

Lemma nonblocking_ret {A} (a : A) : nonblocking (mret a : P A).
Proof. intros s. exact I. Qed.

Lemma nonblocking_throw {A} (e : JsError) : nonblocking (throw e : P A).
Proof. intros s. exact I. Qed.

Lemma nonblocking_get : nonblocking (get : P S).
Proof. intros s. exact I. Qed.

Lemma nonblocking_modify (f : S -> S) : nonblocking (modify f : P unit).
Proof. intros s. exact I. Qed.

Lemma nonblocking_bind {A B} (p : P A) (f : A -> P B) :
  nonblocking p -> (forall a, nonblocking (f a)) -> nonblocking (p ≫= f).
Proof.
  intros Hp Hf s. rewrite exec_bind. specialize (Hp s).
  destruct (exec p s); [apply Hf | exact I | contradiction].
Qed.

Lemma nonblocking_when (b : bool) (c : P unit) : nonblocking c -> nonblocking (when b c).
Proof. intros Hc. destruct b; [exact Hc | apply nonblocking_ret]. Qed.

End NonBlocking.

(** ** Automation *)

Create HintDb nodelink discriminated.
Create Rewrite HintDb nodelink_exec.

#[export] Hint Rewrite @run_bind @run_prog_bind @exec_bind @exec_ret @exec_get @exec_put @exec_modify
  @exec_when_false @exec_when_true : nodelink_exec.

#[export] Hint Resolve nonblocking_ret nonblocking_throw nonblocking_get nonblocking_modify
  nonblocking_when : nodelink.

(** [nb_tac] proves that a program never awaits: it walks its binds
    and branches down to the primitives. *)
Ltac nb_tac :=
  repeat first [ progress auto with nodelink
               | apply nonblocking_bind; [|intros]
               | apply nonblocking_when
               | case_match ].

(** [simp_exec] executes the straight-line part of a handler on a
    symbolic state: it rewrites [exec] and [run] through binds and
    reduces what is concrete. *)
Ltac simp_exec := repeat (autorewrite with nodelink_exec; cbn -[when]).

(** [case_if] splits on the first [if] or boolean [match] in the goal. *)
Ltac case_if :=
  match goal with
  | |- context [if ?b then _ else _] => destruct b eqn:?
  end.

(** ** Generic lemmas on lists and options *)

Lemma app_cons_assoc {A} (l : list A) (x y : A) : (l ++ [x]) ++ [y] = l ++ [x; y].
Proof. rewrite <- app_assoc. reflexivity. Qed.

#[export] Hint Rewrite @app_cons_assoc : nodelink_exec.
