(* ===== verification/Model.v ===== *)
(** * Model: the data of NodeLink's playback core

    JSON values as the handlers see them, the track descriptors, the
    outbound events of [client.ws.send], the observable state of the
    [@performanc/voice] connection and the commands the handlers send
    it, the queries a handler awaits with the type of their answers,
    and [NodeEnv]: the configuration ([config.js], [constants.js]) and
    the synchronous collaborators the handlers call. *)

From S2P Require Import Prelude.

#[local] Set Warnings "-register-all".
Local Open Scope Z_scope.
Local Open Scope string_scope.

(** ** JSON values *)

(** A JavaScript value reached through the control protocol: filter
    configurations, user data, extra resolver data. *)
Inductive JVal :=
  | JNull
  | JBool (b : bool)
  | JNum (z : Z)
  | JStr (s : string)
  | JArr (l : list JVal)
  | JObj (kv : list (string * JVal)).

(** [Object.keys(v).length]: the number of own keys of an object, the
    number of indices of an array or string; [Object.keys] of [null]
    throws, which is [None] here. *)
Definition keys_length (v : JVal) : option nat :=
  match v with
  | JNull => None
  | JObj kv => Some (length kv)
  | JArr l => Some (length l)
  | JStr s => Some (String.length s)
  | JBool _ | JNum _ => Some 0%nat
  end.

(** The value of key [k] in an object's key/value list. *)
Fixpoint assoc (k : string) (kv : list (string * JVal)) : option JVal :=
  match kv with
  | [] => None
  | (k', v) :: rest => if String.eqb k k' then Some v else assoc k rest
  end.

(** [v.k]: a property read; [undefined] is [Some None], a read on
    [null] throws ([None]). *)
Definition jfield (k : string) (v : JVal) : option (option JVal) :=
  match v with
  | JNull => None
  | JObj kv => Some (assoc k kv)
  | _ => Some None
  end.

(** ** Tracks *)

(** [TrackInfo], the decoded track as the sources build it
    ([spotify.js] lines 128-140). *)
Record TrackInfo := {
  identifier : string;
  isSeekable : bool;
  author : string;
  info_length : Z;  (** [length] *)
  isStream : bool;
  position : Z;
  title : string;
  uri : string;
  artworkUrl : option string;
  isrc : option string;
  sourceName : string
}.

(** A track object [{ encoded, info, userData }]; [userData] is
    [undefined] ([None]) for the tracks [play] builds. *)
Record Track := {
  encoded : string;
  info : TrackInfo;
  userData : option JVal
}.

(** The [exception] object of a failure event. *)
Record Exc := {
  message : string;
  severity : string;
  cause : string
}.

(** ** Outbound events *)

Inductive EndReason := Finished | Replaced | Stopped | LoadFailed.

#[export] Instance EndReason_eq_dec : EqDecision EndReason.
Proof. solve_decision. Defined.

(** The objects given to [client.ws.send(JSON.stringify(...))]; the
    [track] field is [null] when it is [None]. *)
Inductive OutMsg :=
  | WebSocketClosedEvent (guildId : string) (code : option Z)
      (reason : option string) (byRemote : bool)
  | TrackStartEvent (guildId : string) (track : option Track)
  | TrackEndEvent (guildId : string) (track : option Track) (reason : EndReason)
  | TrackExceptionEvent (guildId : string) (track : option Track) (exception : Exc)
  (** the [TrackEndEvent] of [filters()] (voiceHandler.js line 400), whose
      [track] field is [this.config.track.info] *)
  | TrackEndEventInfo (guildId : string) (track : TrackInfo) (reason : EndReason)
  | PlayerUpdate (guildId : string) (time : Z) (position : Z)
      (connected : bool) (ping : Z).

(** ** The voice connection *)

(** [connection.state.status] and [connection.playerState.status]. *)
Inductive TStatus := TConnecting | TConnected | TDisconnected | TDestroyed.
Inductive PStatus := PIdle | PPlaying | PPaused.

#[export] Instance TStatus_eq_dec : EqDecision TStatus.
Proof. solve_decision. Defined.
#[export] Instance PStatus_eq_dec : EqDecision PStatus.
Proof. solve_decision. Defined.

(** The payload of a [stateChange] event: the status and the close
    codes the transport reports. *)
Record TState := {
  ts_status : TStatus;
  ts_code : option Z;
  ts_closeCode : option Z
}.

(** The payload of a [playerStateChange] event. *)
Record PState := {
  ps_status : PStatus;
  ps_reason : option string
}.

(** The [error] event's argument. *)
Record ErrorObj := {
  err_name : string;
  err_message : string
}.

(** An audio stream: one the filter pipeline or a source produced
    (an opaque handle), or [voiceUtils.createAudioResource(s, format)]. *)
Inductive Stream :=
  | RawStream (id : nat)
  | AudioResource (src : Stream) (format : string).

#[export] Instance Stream_eq_dec : EqDecision Stream.
Proof. solve_decision. Defined.

(** What the handlers read of [this.connection]. *)
Record Conn := {
  conn_status : TStatus;          (** [state.status] *)
  conn_player : PStatus;          (** [playerState.status] *)
  conn_audio : option Stream;     (** [audioStream] *)
  conn_secret : bool;             (** [udpInfo?.secretKey] is truthy *)
  conn_ws : bool;                 (** [ws] is truthy *)
  conn_packets : Z;               (** [statistics.packetsExpected] *)
  conn_ping : Z                   (** [ping] *)
}.

(** The calls the handlers make on the connection. *)
Inductive VoiceCmd :=
  | CDestroy
  | CVoiceStateUpdate (guild_id user_id session_id : option string)
  | CVoiceServerUpdate (user_id token guild_id endpoint : option string)
  | CConnect
  | CPlay (s : Stream)
  | CStop
  | CPause
  | CUnpause
  | CSetVolume (percent : Z).

(** ** Queries awaited by the handlers *)

(** [sources.getTrackURL(decodedTrack)] *)
Inductive UrlInfo :=
  | UrlErr (exception : Exc)
  | UrlOk (url protocol format : string) (additionalData : option JVal).

(** [sources.getTrackStream(...)] *)
Inductive StreamInfo :=
  | StreamErr (exception : Exc)
  | StreamOk (stream : Stream).

(** A resource: [{ exception }] or [{ stream }]. *)
Inductive Resource :=
  | ResErr (exception : Exc)
  | ResOk (stream : Stream).

(** The outcome of [waitForEvent(connection, 'stateChange', ...)]. *)
Inductive WaitResult := WaitResolved | WaitRejected (e : JsError).

Inductive Query :=
  | QTrackURL (decoded : TrackInfo)
  | QTrackStream (decoded : TrackInfo) (url protocol : string)
      (additionalData : option JVal)
  | QFilterResource (guildId : string) (decoded : TrackInfo)
      (protocol url : option string) (seek : option Z)
      (endTime : option JVal) (ffmpeg : option JVal)
      (additionalData : option JVal)
  | QWaitConnected (threshold : option Z).

(** The type of the answer to each query. *)
Definition Answer (q : Query) : Type :=
  match q with
  | QTrackURL _ => UrlInfo
  | QTrackStream _ _ _ _ => StreamInfo
  | QFilterResource _ _ _ _ _ _ _ _ => Resource
  | QWaitConnected _ => WaitResult
  end.

(** ** Configuration and synchronous collaborators *)

(** What the handlers take from [config.js], [constants.js], the
    filter module and the voice library; the theorems hold for every
    instance. *)
Class NodeEnv := {
  (** [config.options.playerUpdateInterval] (0 when unset) *)
  playerUpdateInterval : Z;
  (** [config.options.threshold] (0 when unset) *)
  threshold : Z;
  (** [config.filters.enabled] *)
  filtersEnabled : bool;
  (** [constants.VoiceWSCloseCodes] *)
  closeCodeReason : Z -> option string;
  (** [new Filters().configure(f)] *)
  configure : JVal -> JVal;
  (** [discordVoice.joinVoiceChannel({ guildId, userId, encryption })] *)
  joinVoiceChannel : string -> Conn;
  (** [client.userId] *)
  clientUserId : string
}.

(** [config.options.threshold || undefined] *)
Definition wait_threshold `{NodeEnv} : option Z :=
  if decide (threshold = 0) then None else Some threshold.
