(* ===== verification/VoiceHandler.v ===== *)
(** * VoiceHandler: the class [VoiceConnection] of voiceHandler.js

    The state of one [VoiceConnection] object ([VC]: [connection],
    [cache], [config], [stateInterval]), the process-wide state its
    methods touch ([Glob]: the two counters, the messages and calls
    they make, [client.players], the live [setInterval] timers and the
    clock), and one [prog] per method and listener, written in the
    order of the source's statements.  A handler runs in a [World]: the
    object's identity ([this]), the object and the global state. *)

From S2P Require Import Prelude Model.

Local Open Scope Z_scope.
Local Open Scope string_scope.

(** ** State of a [VoiceConnection] *)

(** [this.config.voice] *)
Record Voice := {
  token : option string;
  endpoint : option string;
  sessionId : option string
}.

(** [this.config.state], written by [_stopTrack]. *)
Record PlayerStateRec := {
  st_time : option Z;
  st_position : Z;
  st_connected : bool;
  st_ping : Z
}.

(** [this.config] *)
Record Config := {
  guildId : string;
  track : option Track;
  volume : Z;
  paused : bool;
  filters : JVal;
  voice : Voice;
  state : option PlayerStateRec
}.

(** [this.cache] *)
Record Cache := {
  c_url : option string;
  c_protocol : option string;
  c_track : option Track;
  c_volume : Z;
  c_startedAt : option Z;
  c_ffmpeg : option JVal
}.

(** A [VoiceConnection] object; [client] is global and lives in [Glob]. *)
Record VC := {
  connection : option Conn;
  cache : Cache;
  config : Config;
  stateInterval : option nat
}.

(** What a handler does outside its object, in order: a message on
    [client.ws], a call on the connection of object [obj], or
    [resource.stream.setVolume(percent / 100)]. *)
Inductive Effect :=
  | ESend (m : OutMsg)
  | ECmd (obj : nat) (c : VoiceCmd)
  | EResourceVolume (s : Stream) (percent : Z).

(** The process-wide state: [global.nodelinkPlayersCount],
    [global.nodelinkPlayingPlayersCount], the effects so far,
    [client.players] (guild to object), the live intervals (handle to the
    object whose callback runs), the next handle, and [Date.now()]. *)
Record Glob := {
  playersCount : Z;
  playingCount : Z;
  trace : list Effect;
  players : gmap string nat;
  timers : gmap nat nat;
  next_timer : nat;
  now : Z
}.

Record World := {
  w_id : nat;
  w_self : VC;
  w_glob : Glob
}.

Abbreviation M := (prog World Query Answer).

(** ** Field updates *)

Definition set_track (t : option Track) (c : Config) : Config :=
  {| guildId := guildId c; track := t; volume := volume c; paused := paused c;
     filters := filters c; voice := voice c; state := state c |}.
Definition set_volume (v : Z) (c : Config) : Config :=
  {| guildId := guildId c; track := track c; volume := v; paused := paused c;
     filters := filters c; voice := voice c; state := state c |}.
Definition set_paused (p : bool) (c : Config) : Config :=
  {| guildId := guildId c; track := track c; volume := volume c; paused := p;
     filters := filters c; voice := voice c; state := state c |}.
Definition set_filters (f : JVal) (c : Config) : Config :=
  {| guildId := guildId c; track := track c; volume := volume c; paused := paused c;
     filters := f; voice := voice c; state := state c |}.
Definition set_voice (v : Voice) (c : Config) : Config :=
  {| guildId := guildId c; track := track c; volume := volume c; paused := paused c;
     filters := filters c; voice := v; state := state c |}.
Definition set_state (s : option PlayerStateRec) (c : Config) : Config :=
  {| guildId := guildId c; track := track c; volume := volume c; paused := paused c;
     filters := filters c; voice := voice c; state := s |}.

Definition set_url (u : option string) (k : Cache) : Cache :=
  {| c_url := u; c_protocol := c_protocol k; c_track := c_track k; c_volume := c_volume k;
     c_startedAt := c_startedAt k; c_ffmpeg := c_ffmpeg k |}.
Definition set_protocol (p : option string) (k : Cache) : Cache :=
  {| c_url := c_url k; c_protocol := p; c_track := c_track k; c_volume := c_volume k;
     c_startedAt := c_startedAt k; c_ffmpeg := c_ffmpeg k |}.
Definition set_cvolume (v : Z) (k : Cache) : Cache :=
  {| c_url := c_url k; c_protocol := c_protocol k; c_track := c_track k; c_volume := v;
     c_startedAt := c_startedAt k; c_ffmpeg := c_ffmpeg k |}.
Definition set_startedAt (t : option Z) (k : Cache) : Cache :=
  {| c_url := c_url k; c_protocol := c_protocol k; c_track := c_track k; c_volume := c_volume k;
     c_startedAt := t; c_ffmpeg := c_ffmpeg k |}.

Definition vc_map_config (f : Config -> Config) (v : VC) : VC :=
  {| connection := connection v; cache := cache v; config := f (config v);
     stateInterval := stateInterval v |}.
Definition vc_map_cache (f : Cache -> Cache) (v : VC) : VC :=
  {| connection := connection v; cache := f (cache v); config := config v;
     stateInterval := stateInterval v |}.
Definition vc_set_connection (c : option Conn) (v : VC) : VC :=
  {| connection := c; cache := cache v; config := config v;
     stateInterval := stateInterval v |}.
Definition vc_set_interval (h : option nat) (v : VC) : VC :=
  {| connection := connection v; cache := cache v; config := config v;
     stateInterval := h |}.

Definition glob_add_players_count (d : Z) (g : Glob) : Glob :=
  {| playersCount := playersCount g + d; playingCount := playingCount g; trace := trace g;
     players := players g; timers := timers g; next_timer := next_timer g; now := now g |}.
Definition glob_add_playing_count (d : Z) (g : Glob) : Glob :=
  {| playersCount := playersCount g; playingCount := playingCount g + d; trace := trace g;
     players := players g; timers := timers g; next_timer := next_timer g; now := now g |}.
Definition glob_emit (e : Effect) (g : Glob) : Glob :=
  {| playersCount := playersCount g; playingCount := playingCount g; trace := trace g ++ [e];
     players := players g; timers := timers g; next_timer := next_timer g; now := now g |}.
Definition glob_set_players (p : gmap string nat) (g : Glob) : Glob :=
  {| playersCount := playersCount g; playingCount := playingCount g; trace := trace g;
     players := p; timers := timers g; next_timer := next_timer g; now := now g |}.
Definition glob_set_timers (t : gmap nat nat) (n : nat) (g : Glob) : Glob :=
  {| playersCount := playersCount g; playingCount := playingCount g; trace := trace g;
     players := players g; timers := t; next_timer := n; now := now g |}.

Definition w_map_self (f : VC -> VC) (w : World) : World :=
  {| w_id := w_id w; w_self := f (w_self w); w_glob := w_glob w |}.
Definition w_map_glob (f : Glob -> Glob) (w : World) : World :=
  {| w_id := w_id w; w_self := w_self w; w_glob := f (w_glob w) |}.

(** ** Primitive operations of the handlers *)

Definition modify_config (f : Config -> Config) : M unit :=
  modify (w_map_self (vc_map_config f)).
Definition modify_cache (f : Cache -> Cache) : M unit :=
  modify (w_map_self (vc_map_cache f)).
Definition modify_glob (f : Glob -> Glob) : M unit :=
  modify (w_map_glob f).

(** [this.config] and its fields *)
Definition cfg : M Config := gets (fun w => config (w_self w)).
Definition guild : M string := gets (fun w => guildId (config (w_self w))).
Definition cur_track : M (option Track) := gets (fun w => track (config (w_self w))).

(** [this.config.track.x]: the read throws when the track is [null]. *)
Definition track_nonnull : M Track :=
  t ← cur_track;
  match t with
  | Some t => mret t
  | None => throw (TypeError "Cannot read properties of null (reading 'track')")
  end.

(** [this.connection.x]: the read throws when the connection is [null]. *)
Definition conn : M Conn :=
  w ← get;
  match connection (w_self w) with
  | Some c => mret c
  | None => throw (TypeError "Cannot read properties of null (reading 'connection')")
  end.

Definition emit (e : Effect) : M unit := modify_glob (glob_emit e).

(** [this.client.ws.send(JSON.stringify(m))] *)
Definition send (m : OutMsg) : M unit := emit (ESend m).

(** [this.connection.c(...)] *)
Definition call (c : VoiceCmd) : M unit :=
  _ ← conn;
  i ← gets w_id;
  emit (ECmd i c).

(** [Object.keys(v).length] *)
Definition keys_len (v : JVal) : M nat :=
  match keys_length v with
  | Some n => mret n
  | None => throw (TypeError "Cannot convert undefined or null to object")
  end.

(** [v.k] *)
Definition field (k : string) (v : JVal) : M (option JVal) :=
  match jfield k v with
  | Some r => mret r
  | None => throw (TypeError "Cannot read properties of null")
  end.

(** [setInterval(() => ..., ms)]: a fresh handle whose callback runs on
    this object. *)
Definition setInterval : M nat :=
  w ← get;
  let g := w_glob w in
  let h := next_timer g in
  modify_glob (glob_set_timers (<[h := w_id w]> (timers g)) (S h));;
  mret h.

(** [clearInterval(h)] *)
Definition clearInterval (h : nat) : M unit :=
  modify_glob (fun g => glob_set_timers (delete h (timers g)) (next_timer g) g).

(** A value is truthy: an object that is not [null], a non-empty string. *)
Definition truthy {A} (o : option A) : bool :=
  match o with Some _ => true | None => false end.
Definition truthy_str (s : string) : bool := negb (String.eqb s "").

(** ** The object's initial state (constructor, lines 17-40) *)

Definition initial_voice : Voice :=
  {| token := None; endpoint := None; sessionId := None |}.

Definition initial_config (g : string) : Config :=
  {| guildId := g; track := None; volume := 100; paused := false;
     filters := JObj []; voice := initial_voice; state := None |}.

Definition initial_cache : Cache :=
  {| c_url := None; c_protocol := None; c_track := None; c_volume := 100;
     c_startedAt := None; c_ffmpeg := None |}.

Definition new_VoiceConnection (g : string) : VC :=
  {| connection := None; cache := initial_cache; config := initial_config g;
     stateInterval := None |}.

(** [this.config.state] after [_stopTrack] *)
Definition stopped_state : PlayerStateRec :=
  {| st_time := None; st_position := 0; st_connected := false; st_ping := -1 |}.

(** ** The methods and listeners *)

Module VoiceConnection.
Section Handlers.
Context `{NodeEnv}.

(** [_stopTrack()] (lines 42-53) *)
Definition _stopTrack : M unit :=
  modify_glob (glob_add_playing_count (-1));;
  w ← get;
  (match stateInterval (w_self w) with
   | Some h => clearInterval h
   | None => mret tt
   end);;
  modify_config (set_state (Some stopped_state)).

(** [_getRealTime()] (lines 55-57) *)
Definition _getRealTime : M Z :=
  c ← conn;
  mret (conn_packets c * 20).

(** [setup()] (lines 59-63): the listeners it attaches are the
    definitions below, which [Registry] runs on transport events. *)
Definition setup : M unit :=
  modify_glob (glob_add_players_count 1);;
  g ← guild;
  modify (w_map_self (vc_set_connection (Some (joinVoiceChannel g)))).

(** The [stateChange] listener (lines 65-102). *)
Definition on_stateChange (oldState newState : TState) : M unit :=
  match ts_status newState with
  | TDisconnected =>
      if js_eq (ts_status oldState) TDisconnected then mret tt
      else if negb (js_eq (ts_code newState) (Some 4015)) then
        call CDestroy;;
        _stopTrack;;
        g ← guild;
        modify_config (fun _ => initial_config g);;
        g' ← guild;
        send (WebSocketClosedEvent g' (ts_closeCode newState)
                (ts_closeCode newState ≫= closeCodeReason) true)
      else mret tt
  | _ => mret tt
  end.

(** The interval callback of the [playerStateChange] listener
    (lines 133-144): one [playerUpdate] message. *)
Definition on_interval : M unit :=
  g ← guild;
  t ← gets (fun w => now (w_glob w));
  c ← conn;
  pos ← (if js_eq (conn_player c) PPlaying || js_eq (conn_player c) PPaused
         then _getRealTime else mret 0);
  c' ← conn;
  send (PlayerUpdate g t pos (js_eq (conn_status c') TConnected) (conn_ping c')).

(** The second half of the [playerStateChange] listener
    (lines 124-152): a genuine start. *)
Definition on_start (oldState newState : PState) : M unit :=
  when (negb (js_eq (ps_status oldState) PPaused)
        && js_eq (ps_status newState) PPlaying)
    (if negb (js_eq (ps_reason newState) (Some "requested")) then mret tt
     else
       t ← gets (fun w => now (w_glob w));
       modify_cache (set_startedAt (Some t));;
       _ ← track_nonnull;
       modify_glob (glob_add_playing_count 1);;
       when (negb (Z.eqb playerUpdateInterval 0))
         (h ← setInterval;
          modify (w_map_self (vc_set_interval (Some h))));;
       g ← guild;
       tr ← cur_track;
       send (TrackStartEvent g tr)).

(** The [playerStateChange] listener (lines 104-153); the [return]
    of line 106 leaves the whole listener. *)
Definition on_playerStateChange (oldState newState : PState) : M unit :=
  if js_eq (ps_status newState) PIdle && negb (js_eq (ps_status oldState) PIdle)
  then
    if negb (js_eq (ps_reason newState) (Some "finished")) then mret tt
    else
      _stopTrack;;
      modify_cache (set_url None);;
      _ ← track_nonnull;
      g ← guild;
      tr ← cur_track;
      send (TrackEndEvent g tr Finished);;
      modify_config (set_track None);;
      on_start oldState newState
  else on_start oldState newState.

(** The [error] listener (lines 155-181). *)
Definition on_error (error : ErrorObj) : M unit :=
  _stopTrack;;
  g ← guild;
  tr ← cur_track;
  send (TrackExceptionEvent g tr
          {| message := err_message error; severity := "fault";
             cause := err_name error +:+ ": " +:+ err_message error |});;
  tr' ← cur_track;
  send (TrackEndEvent g tr' LoadFailed);;
  modify_config (set_track None).

(** [updateVoice(buffer)] (lines 184-191) *)
Definition updateVoice (buffer : Voice) : M unit :=
  modify_config (set_voice buffer);;
  g ← guild;
  call (CVoiceStateUpdate (Some g) (Some clientUserId) (sessionId buffer));;
  call (CVoiceServerUpdate (Some clientUserId) (token buffer) (Some g) (endpoint buffer));;
  c ← conn;
  when (negb (conn_ws c)) (call CConnect).

(** [destroy()] (lines 193-199) *)
Definition destroy : M unit :=
  w ← get;
  when (truthy (connection (w_self w))) (call CDestroy);;
  _stopTrack;;
  g ← guild;
  modify_glob (fun gl => glob_set_players (delete g (players gl)) gl).

(** [getResource(decodedTrack, urlInfo)] (lines 201-211) *)
Definition getResource (decodedTrack : TrackInfo) (url protocol format : string)
    (additionalData : option JVal) : M Resource :=
  streamInfo ← await (QTrackStream decodedTrack url protocol additionalData);
  match streamInfo with
  | StreamErr e => mret (ResErr e)
  | StreamOk s =>
      modify_cache (set_url (Some url));;
      mret (ResOk (AudioResource s format))
  end.

(** [if (!this.connection.udpInfo?.secretKey) await waitForEvent(...)]
    (lines 321-322 and 411-412); a rejected wait throws. *)
Definition wait_connected : M unit :=
  c ← conn;
  when (negb (conn_secret c))
    (r ← await (QWaitConnected wait_threshold);
     match r with
     | WaitResolved => mret tt
     | WaitRejected e => throw e
     end).

(** The two steps of line 264-277 that build the resource: through the
    filter pipeline when filters are set, from the source otherwise; an
    old track's bookkeeping is stopped after the await. *)
Definition build_resource (oldTrack : option Track) (decodedTrack : TrackInfo)
    (url protocol format : string) (additionalData : option JVal) : M Resource :=
  c ← cfg;
  n ← keys_len (filters c);
  if (0 <? n)%nat then
    modify_config (fun c => set_filters (configure (filters c)) c);;
    g ← guild;
    ff ← gets (fun w => c_ffmpeg (cache (w_self w)));
    resource ← await (QFilterResource g decodedTrack (Some protocol) (Some url)
                        None None ff additionalData);
    when (truthy oldTrack) _stopTrack;;
    mret resource
  else
    modify_cache (set_url (Some url));;
    resource ← getResource decodedTrack url protocol format additionalData;
    when (truthy oldTrack) _stopTrack;;
    mret resource.

(** [play(track, decodedTrack, noReplace)] (lines 213-329) *)
Definition play (track : string) (decodedTrack : TrackInfo) (noReplace : bool) : M Config :=
  t0 ← cur_track;
  if noReplace && truthy t0 then cfg
  else
    let oldTrack := t0 in
    urlInfo ← await (QTrackURL decodedTrack);
    match urlInfo with
    | UrlErr exc =>
        modify_config (set_track None);;
        modify_cache (set_url None);;
        g ← guild;
        send (TrackExceptionEvent g
                (Some {| encoded := track; info := decodedTrack; userData := None |}) exc);;
        t ← track_nonnull;
        send (TrackEndEvent g
                (Some {| encoded := track; info := decodedTrack; userData := userData t |})
                LoadFailed);;
        cfg
    | UrlOk url protocol format additionalData =>
        when (match oldTrack with Some o => truthy_str (encoded o) | None => false end)
          (g ← guild; send (TrackEndEvent g oldTrack Replaced));;
        resource ← build_resource oldTrack decodedTrack url protocol format additionalData;
        match resource with
        | ResErr exc =>
            modify_config (set_track None);;
            modify_config (set_filters (JArr []));;
            modify_cache (set_url None);;
            g ← guild;
            t ← track_nonnull;
            send (TrackExceptionEvent g
                    (Some {| encoded := track; info := decodedTrack; userData := userData t |})
                    exc);;
            t' ← track_nonnull;
            send (TrackEndEvent g
                    (Some {| encoded := track; info := decodedTrack; userData := userData t' |})
                    LoadFailed);;
            cfg
        | ResOk s =>
            modify_config (set_track (Some {| encoded := track; info := decodedTrack;
                                               userData := None |}));;
            v ← gets (fun w => c_volume (cache (w_self w)));
            when (negb (Z.eqb v 100))
              (emit (EResourceVolume s v);;
               modify_config (set_volume v));;
            wait_connected;;
            call (CPlay s);;
            modify_cache (set_protocol (Some protocol));;
            cfg
        end
    end.

(** [stop()] (lines 331-350); it returns [this.config] only when idle,
    and [undefined] ([None]) otherwise. *)
Definition stop : M (option Config) :=
  t0 ← cur_track;
  match t0 with
  | None => c ← cfg; mret (Some c)
  | Some t =>
      g ← guild;
      send (TrackEndEvent g (Some t) Stopped);;
      c ← conn;
      when (truthy (conn_audio c)) (call CStop);;
      modify_config (set_track None);;
      modify_config (set_filters (JArr []));;
      modify_cache (set_url None);;
      _stopTrack;;
      mret None
  end.

(** [volume(volume)] (lines 352-364) *)
Definition volume (v : Z) : M Config :=
  c ← conn;
  match conn_audio c with
  | None =>
      modify_cache (set_cvolume v);;
      cfg
  | Some _ =>
      call (CSetVolume v);;
      modify_config (set_volume v);;
      cfg
  end.

(** [pause(pause)] (lines 366-373) *)
Definition pause (p : bool) : M Config :=
  call (if p then CPause else CUnpause);;
  modify_config (set_paused p);;
  cfg.

(** [filters(filters)] (lines 375-417) *)
Definition filters (f : JVal) : M Config :=
  c ← conn;
  if negb (js_eq (conn_player c) PPlaying) || negb filtersEnabled then cfg
  else
    modify_config (set_filters (configure f));;
    t0 ← cur_track;
    match t0 with
    | None => cfg
    | Some t =>
        protocol ← gets (fun w => c_protocol (cache (w_self w)));
        g ← guild;
        url ← gets (fun w => c_url (cache (w_self w)));
        pos ← _getRealTime;
        endTime ← field "endTime" f;
        ff ← gets (fun w => c_ffmpeg (cache (w_self w)));
        resource ← await (QFilterResource g (info t) protocol url (Some pos) endTime ff None);
        match resource with
        | ResErr exc =>
            modify_config (set_track None);;
            modify_config (set_filters (JArr []));;
            modify_cache (set_url None);;
            g' ← guild;
            tr ← cur_track;
            send (TrackExceptionEvent g' tr exc);;
            t' ← track_nonnull;
            send (TrackEndEventInfo g' (info t') LoadFailed);;
            cfg
        | ResOk s =>
            wait_connected;;
            call (CPlay s);;
            cfg
        end
    end.

End Handlers.
End VoiceConnection.

(** ** Execution of the primitives *)

(** The world after [_stopTrack]: the playing counter decremented, the
    interval (if any) cleared, and [config.state] reset. *)
Definition stopTrack_glob (si : option nat) (g : Glob) : Glob :=
  {| playersCount := playersCount g; playingCount := playingCount g - 1; trace := trace g;
     players := players g;
     timers := match si with Some h => delete h (timers g) | None => timers g end;
     next_timer := next_timer g; now := now g |}.

Definition stopTrack_w (w : World) : World :=
  {| w_id := w_id w;
     w_self := vc_map_config (set_state (Some stopped_state)) (w_self w);
     w_glob := stopTrack_glob (stateInterval (w_self w)) (w_glob w) |}.

(** The world after an effect. *)
Definition emit_w (e : Effect) (w : World) : World := w_map_glob (glob_emit e) w.

Section PrimitiveRuns.
Context `{NodeEnv} (o : forall q, Answer q).

Lemma run_stopTrack {A} (f : unit -> M A) w :
  run o (VoiceConnection._stopTrack ≫= f) w = run o (f tt) (stopTrack_w w).
Proof. unfold VoiceConnection._stopTrack, stopTrack_w. cbn. destruct (stateInterval (w_self w)); reflexivity. Qed.

Lemma run_conn {A} (f : Conn -> M A) w c :
  connection (w_self w) = Some c -> run o (conn ≫= f) w = run o (f c) w.
Proof. intros Hc. cbn. rewrite Hc. reflexivity. Qed.

Lemma run_conn_null {A} (f : Conn -> M A) w :
  connection (w_self w) = None ->
  run o (conn ≫= f) w = RFailed (TypeError "Cannot read properties of null (reading 'connection')") w.
Proof. intros Hc. cbn. rewrite Hc. reflexivity. Qed.

Lemma run_call {A} (f : unit -> M A) w c x :
  connection (w_self w) = Some c ->
  run o (call x ≫= f) w = run o (f tt) (emit_w (ECmd (w_id w) x) w).
Proof. intros Hc. cbn. rewrite Hc. reflexivity. Qed.

Lemma run_call_tail w c x :
  connection (w_self w) = Some c ->
  run o (call x) w = RDone tt (emit_w (ECmd (w_id w) x) w).
Proof. intros Hc. cbn. rewrite Hc. reflexivity. Qed.

Lemma run_stopTrack_tail w :
  run o VoiceConnection._stopTrack w = RDone tt (stopTrack_w w).
Proof. unfold VoiceConnection._stopTrack, stopTrack_w. cbn. destruct (stateInterval (w_self w)); reflexivity. Qed.

Lemma run_track_nonnull {A} (f : Track -> M A) w t :
  track (config (w_self w)) = Some t -> run o (track_nonnull ≫= f) w = run o (f t) w.
Proof. intros Ht. cbn. rewrite Ht. reflexivity. Qed.

Lemma run_track_null {A} (f : Track -> M A) w :
  track (config (w_self w)) = None ->
  run o (track_nonnull ≫= f) w = RFailed (TypeError "Cannot read properties of null (reading 'track')") w.
Proof. intros Ht. cbn. rewrite Ht. reflexivity. Qed.

End PrimitiveRuns.

(** ** What the world transformers change *)

Create Rewrite HintDb nodelink_w.

Ltac stopTrack_w_tac := reflexivity.

Section WorldProjections.
Implicit Types (w : World) (e : Effect).

Lemma stopTrack_w_id w : w_id (stopTrack_w w) = w_id w.
Proof. stopTrack_w_tac. Qed.
Lemma stopTrack_w_connection w : connection (w_self (stopTrack_w w)) = connection (w_self w).
Proof. stopTrack_w_tac. Qed.
Lemma stopTrack_w_cache w : cache (w_self (stopTrack_w w)) = cache (w_self w).
Proof. stopTrack_w_tac. Qed.
Lemma stopTrack_w_config w :
  config (w_self (stopTrack_w w)) = set_state (Some stopped_state) (config (w_self w)).
Proof. stopTrack_w_tac. Qed.
Lemma stopTrack_w_interval w : stateInterval (w_self (stopTrack_w w)) = stateInterval (w_self w).
Proof. stopTrack_w_tac. Qed.
Lemma stopTrack_w_trace w : trace (w_glob (stopTrack_w w)) = trace (w_glob w).
Proof. stopTrack_w_tac. Qed.
Lemma stopTrack_w_playing w : playingCount (w_glob (stopTrack_w w)) = playingCount (w_glob w) - 1.
Proof. stopTrack_w_tac. Qed.
Lemma stopTrack_w_players_count w : playersCount (w_glob (stopTrack_w w)) = playersCount (w_glob w).
Proof. stopTrack_w_tac. Qed.
Lemma stopTrack_w_players w : players (w_glob (stopTrack_w w)) = players (w_glob w).
Proof. stopTrack_w_tac. Qed.
Lemma stopTrack_w_timers w :
  timers (w_glob (stopTrack_w w)) =
  match stateInterval (w_self w) with Some h => delete h (timers (w_glob w)) | None => timers (w_glob w) end.
Proof. stopTrack_w_tac. Qed.

Lemma emit_w_trace e w : trace (w_glob (emit_w e w)) = (trace (w_glob w) ++ [e])%list.
Proof. reflexivity. Qed.
Lemma emit_w_self e w : w_self (emit_w e w) = w_self w.
Proof. reflexivity. Qed.
Lemma emit_w_id e w : w_id (emit_w e w) = w_id w.
Proof. reflexivity. Qed.
Lemma emit_w_playing e w : playingCount (w_glob (emit_w e w)) = playingCount (w_glob w).
Proof. reflexivity. Qed.
Lemma emit_w_players_count e w : playersCount (w_glob (emit_w e w)) = playersCount (w_glob w).
Proof. reflexivity. Qed.
Lemma emit_w_players e w : players (w_glob (emit_w e w)) = players (w_glob w).
Proof. reflexivity. Qed.
Lemma emit_w_timers e w : timers (w_glob (emit_w e w)) = timers (w_glob w).
Proof. reflexivity. Qed.
End WorldProjections.

#[export] Hint Rewrite stopTrack_w_id stopTrack_w_connection stopTrack_w_cache
  stopTrack_w_config stopTrack_w_interval stopTrack_w_trace stopTrack_w_playing
  stopTrack_w_players_count stopTrack_w_players stopTrack_w_timers
  emit_w_trace emit_w_self emit_w_id emit_w_playing emit_w_players_count
  emit_w_players emit_w_timers : nodelink_w.

(** [vside] proves a side condition on a field of the current world
    from the hypotheses. *)
Ltac vside :=
  repeat (autorewrite with nodelink_w; cbn -[stopTrack_w]); first [reflexivity | eassumption].

(** [vsimp] runs a handler on a symbolic world: it reduces the
    straight-line code and steps over the primitives with the lemmas
    above, discharging their side conditions from the hypotheses. *)
Ltac vsimp :=
  repeat (cbn -[VoiceConnection._stopTrack conn call track_nonnull stopTrack_w];
          autorewrite with nodelink_w;
          first [ rewrite run_stopTrack
                | erewrite run_conn by vside
                | erewrite run_call by vside
                | erewrite run_call_tail by vside
                | rewrite run_stopTrack_tail
                | erewrite run_track_nonnull by vside
                | rewrite run_conn_null by vside
                | rewrite run_track_null by vside
                | rewrite js_eq_refl
                | rewrite run_bind_assoc
                | rewrite run_prog_bind_assoc
                | rewrite run_prog_bind
                | progress unfold keys_len, field, VoiceConnection.wait_connected,
                    VoiceConnection._getRealTime, VoiceConnection.on_start
                | progress rewrite ?andb_false_r, ?orb_false_r, ?andb_true_r, ?orb_true_r
                | match goal with
                  | H : ?l = _ |- context [?l] =>
                      lazymatch l with ?f _ => idtac | _ => fail end; rewrite H
                  end
                | idtac ]).

(** [vfinish] closes a goal [∃ w', run ... = RDone v w' ∧ facts about w']
    once the run is computed: it picks the final world and checks the
    facts by rewriting the projections. *)
Ltac vfinish :=
  lazymatch goal with
  | |- exists w', ?r = _ /\ _ =>
      lazymatch r with
      | RDone _ ?W => exists W
      | RFailed _ ?W => exists W
      end
  end;
  split; [reflexivity|];
  repeat (autorewrite with nodelink_w; cbn);
  rewrite <- ?app_assoc, ?app_nil_r; cbn;
  repeat split; try reflexivity; try assumption; try lia.
