(* ===== verification/Playback.v ===== *)
(** * Playback: the behaviour of [VoiceConnection]'s handlers

    Theorems on every branch of the methods and listeners of
    voiceHandler.js, run sequentially ([run]: each [await] answered at
    once by an oracle [o]; [Registry] treats interleavings).  Each
    theorem fixes the branch by its hypotheses (the answers of [o], the
    fields of the object) and states the result, the effects in order,
    and the fields changed. *)

From S2P Require Import Prelude Model VoiceHandler.

Local Open Scope Z_scope.

(** The track object [play] stores: [{ encoded: track, info: decodedTrack }]. *)
Definition new_track (tr : string) (d : TrackInfo) : Track :=
  {| encoded := tr; info := d; userData := None |}.

(** The [TrackEndEvent(replaced)] [play] sends for a previous track whose
    [encoded] is truthy (lines 250-260). *)
Definition replaced_events (g : string) (old : option Track) : list Effect :=
  match old with
  | Some t => if truthy_str (encoded t) then [ESend (TrackEndEvent g (Some t) Replaced)] else []
  | None => []
  end.

Section Handlers.
Context `{NodeEnv} (o : forall q, Answer q).
Implicit Types (w : World).

(** [stop()] on an idle session returns the configuration and
    changes nothing: no message, no call, no counter update. *)
Theorem stop_idle_noop w :
  track (config (w_self w)) = None ->
  run o VoiceConnection.stop w = RDone (Some (config (w_self w))) w.
Proof. intros Ht. unfold VoiceConnection.stop. vsimp. reflexivity. Qed.

(** C27: [stop()] with a track sends [TrackEndEvent(stopped)] for it,
    then stops the connection's stream if there is one, clears the
    track, decrements the playing counter, and returns [undefined]. *)
Theorem stop_active w t c :
  track (config (w_self w)) = Some t ->
  connection (w_self w) = Some c ->
  exists w', run o VoiceConnection.stop w = RDone None w' /\
    trace (w_glob w') = trace (w_glob w) ++
      [ESend (TrackEndEvent (guildId (config (w_self w))) (Some t) Stopped)] ++
      (if truthy (conn_audio c) then [ECmd (w_id w) CStop] else []) /\
    track (config (w_self w')) = None /\
    filters (config (w_self w')) = JArr [] /\
    c_url (cache (w_self w')) = None /\
    playingCount (w_glob w') = playingCount (w_glob w) - 1.
Proof.
  intros Ht Hc. unfold VoiceConnection.stop. vsimp.
  destruct (conn_audio c); vsimp; vfinish.
Qed.

(** C34: [play] with [noReplace] while a track is set returns the
    configuration without resolving anything. *)
Theorem play_noReplace_noop w tr d t :
  track (config (w_self w)) = Some t ->
  run o (VoiceConnection.play tr d true) w = RDone (config (w_self w)) w.
Proof. intros Ht. unfold VoiceConnection.play. vsimp. reflexivity. Qed.

(** C2: when the resolver fails, [play] clears the current track (a
    track that was playing is dropped), sends only the
    [TrackExceptionEvent] of the new track, and then throws a
    [TypeError] reading [this.config.track.userData] on the track it
    has just set to [null]: the [TrackEndEvent(loadFailed)] is never
    sent. *)
Theorem play_url_failure w tr d nr exc :
  (nr = false \/ track (config (w_self w)) = None) ->
  o (QTrackURL d) = UrlErr exc ->
  run o (VoiceConnection.play tr d nr) w =
  RFailed (TypeError "Cannot read properties of null (reading 'track')")
    (emit_w (ESend (TrackExceptionEvent (guildId (config (w_self w)))
                      (Some (new_track tr d)) exc))
       (w_map_self (vc_map_cache (set_url None))
          (w_map_self (vc_map_config (set_track None)) w))).
Proof.
  intros Hnr Ho. unfold VoiceConnection.play. vsimp.
  assert (Hg : (nr && truthy (track (config (w_self w))))%bool = false)
    by (destruct Hnr as [-> | ->]; [|destruct nr]; reflexivity).
  rewrite Hg. vsimp. reflexivity.
Qed.

(** The guard of line 214 lets [play] through. *)
Lemma play_guard_open w (nr : bool) :
  (nr = false \/ track (config (w_self w)) = None) ->
  (nr && truthy (track (config (w_self w))))%bool = false.
Proof. intros [-> | ->]; [|destruct nr]; reflexivity. Qed.

(** C1: [play] on the direct path (no filters): when the resolver and
    the source succeed and the connection is ready, [play] sends
    [TrackEndEvent(replaced)] for the previous track, applies a volume
    staged while idle to the new stream, plays it, records the new
    track, url and protocol, and stops the old track's bookkeeping. *)
Theorem play_success w tr d nr url proto fmt add s c :
  (nr = false \/ track (config (w_self w)) = None) ->
  o (QTrackURL d) = UrlOk url proto fmt add ->
  keys_length (filters (config (w_self w))) = Some 0%nat ->
  o (QTrackStream d url proto add) = StreamOk s ->
  connection (w_self w) = Some c ->
  conn_secret c = true ->
  let g := guildId (config (w_self w)) in
  let old := track (config (w_self w)) in
  let v := c_volume (cache (w_self w)) in
  let st := AudioResource s fmt in
  exists w', run o (VoiceConnection.play tr d nr) w = RDone (config (w_self w')) w' /\
    trace (w_glob w') = trace (w_glob w) ++ replaced_events g old ++
      (if negb (Z.eqb v 100) then [EResourceVolume st v] else []) ++
      [ECmd (w_id w) (CPlay st)] /\
    track (config (w_self w')) = Some (new_track tr d) /\
    volume (config (w_self w')) = (if negb (Z.eqb v 100) then v else volume (config (w_self w))) /\
    c_url (cache (w_self w')) = Some url /\
    c_protocol (cache (w_self w')) = Some proto /\
    playingCount (w_glob w') = playingCount (w_glob w) - (if truthy old then 1 else 0).
Proof.
  intros Hnr Hd Hf Hs Hc Hk g old v st. unfold VoiceConnection.play. vsimp.
  rewrite (play_guard_open w nr Hnr). subst g old v st. vsimp.
  destruct (track (config (w_self w))) as [t|] eqn:Ht;
    [destruct (truthy_str (encoded t)) eqn:He|];
    vsimp; destruct (negb (Z.eqb (c_volume (cache (w_self w))) 100)); vsimp; vfinish.
Qed.

(** The run of [play] on the direct path, shared by the theorems on
    [play] and on [volume]. *)
Lemma play_direct_ok w tr d nr url proto fmt add s c :
  (nr = false \/ track (config (w_self w)) = None) ->
  o (QTrackURL d) = UrlOk url proto fmt add ->
  keys_length (filters (config (w_self w))) = Some 0%nat ->
  o (QTrackStream d url proto add) = StreamOk s ->
  connection (w_self w) = Some c ->
  conn_secret c = true ->
  let g := guildId (config (w_self w)) in
  let old := track (config (w_self w)) in
  let v := c_volume (cache (w_self w)) in
  let st := AudioResource s fmt in
  exists w', run o (VoiceConnection.play tr d nr) w = RDone (config (w_self w')) w' /\
    trace (w_glob w') = trace (w_glob w) ++ replaced_events g old ++
      (if negb (Z.eqb v 100) then [EResourceVolume st v] else []) ++
      [ECmd (w_id w) (CPlay st)] /\
    track (config (w_self w')) = Some (new_track tr d) /\
    volume (config (w_self w')) = (if negb (Z.eqb v 100) then v else volume (config (w_self w))) /\
    c_url (cache (w_self w')) = Some url /\
    c_protocol (cache (w_self w')) = Some proto /\
    playingCount (w_glob w') = playingCount (w_glob w) - (if truthy old then 1 else 0).
Proof.
  intros Hnr Hd Hf Hs Hc Hk g old v st. unfold VoiceConnection.play. vsimp.
  rewrite (play_guard_open w nr Hnr). subst g old v st. vsimp.
  destruct (track (config (w_self w))) as [t|] eqn:Ht;
    [destruct (truthy_str (encoded t)) eqn:He|];
    vsimp; destruct (negb (Z.eqb (c_volume (cache (w_self w))) 100)); vsimp; vfinish.
Qed.

(** C3: when the source fails to produce a stream, [play] clears the
    track and the filters and then throws a [TypeError] reading
    [this.config.track.userData] on [null]: neither the
    [TrackExceptionEvent] nor the [TrackEndEvent(loadFailed)] of the new
    track is sent; the only message is the [replaced] event of the
    previous track. *)
Theorem play_resource_failure w tr d nr url proto fmt add exc :
  (nr = false \/ track (config (w_self w)) = None) ->
  o (QTrackURL d) = UrlOk url proto fmt add ->
  keys_length (filters (config (w_self w))) = Some 0%nat ->
  o (QTrackStream d url proto add) = StreamErr exc ->
  exists w', run o (VoiceConnection.play tr d nr) w =
      RFailed (TypeError "Cannot read properties of null (reading 'track')") w' /\
    trace (w_glob w') = trace (w_glob w) ++
      replaced_events (guildId (config (w_self w))) (track (config (w_self w))) /\
    track (config (w_self w')) = None /\
    filters (config (w_self w')) = JArr [] /\
    c_url (cache (w_self w')) = None /\
    playingCount (w_glob w') =
      playingCount (w_glob w) - (if truthy (track (config (w_self w))) then 1 else 0).
Proof.
  intros Hnr Hd Hf Hs. unfold VoiceConnection.play. vsimp.
  rewrite (play_guard_open w nr Hnr). vsimp.
  destruct (track (config (w_self w))) as [t|] eqn:Ht;
    [destruct (truthy_str (encoded t)) eqn:He|]; vsimp; vfinish.
Qed.

(** C32: [play] through the filter pipeline (filters set) configures the
    filters and plays the filtered stream, but never records the new
    url: [cache.url] keeps the value it had before [play], which a
    later [filters()] call sends to the pipeline as the track's url. *)
Theorem play_filters_url_stale w tr d nr url proto fmt add n s c :
  (nr = false \/ track (config (w_self w)) = None) ->
  o (QTrackURL d) = UrlOk url proto fmt add ->
  keys_length (filters (config (w_self w))) = Some (S n) ->
  o (QFilterResource (guildId (config (w_self w))) d (Some proto) (Some url) None None
       (c_ffmpeg (cache (w_self w))) add) = ResOk s ->
  connection (w_self w) = Some c ->
  conn_secret c = true ->
  exists w', run o (VoiceConnection.play tr d nr) w = RDone (config (w_self w')) w' /\
    track (config (w_self w')) = Some (new_track tr d) /\
    filters (config (w_self w')) = configure (filters (config (w_self w))) /\
    c_url (cache (w_self w')) = c_url (cache (w_self w)) /\
    c_protocol (cache (w_self w')) = Some proto /\
    last (trace (w_glob w')) = Some (ECmd (w_id w) (CPlay s)).
Proof.
  intros Hnr Hd Hf Hs Hc Hk. unfold VoiceConnection.play. vsimp.
  rewrite (play_guard_open w nr Hnr). vsimp.
  destruct (track (config (w_self w))) as [t|] eqn:Ht;
    [destruct (truthy_str (encoded t)) eqn:He|];
    vsimp; destruct (negb (Z.eqb (c_volume (cache (w_self w))) 100)); vsimp; vfinish;
    rewrite last_app; reflexivity.
Qed.

(** [volume(v)] without a live stream stages [v] in the cache. *)
Lemma volume_idle_run w v c :
  connection (w_self w) = Some c -> conn_audio c = None ->
  run o (VoiceConnection.volume v) w =
  RDone (config (w_self w)) (w_map_self (vc_map_cache (set_cvolume v)) w).
Proof. intros Hc Ha. unfold VoiceConnection.volume. vsimp. reflexivity. Qed.

(** [volume(v)] with a live stream sets it on the stream and in the
    configuration, and leaves the staged value alone. *)
Lemma volume_live_run w v c a :
  connection (w_self w) = Some c -> conn_audio c = Some a ->
  run o (VoiceConnection.volume v) w =
  RDone (set_volume v (config (w_self w)))
    (w_map_self (vc_map_config (set_volume v)) (emit_w (ECmd (w_id w) (CSetVolume v)) w)).
Proof. intros Hc Ha. unfold VoiceConnection.volume. vsimp. reflexivity. Qed.

(** C30: a volume set while nothing plays is staged and applied to the
    next track that starts: [volume(v)] then a successful [play] sets
    [v] on the new stream before playing it and records it in the
    configuration. *)
Theorem volume_staged_applied w v tr d url proto fmt add s c :
  v <> 100 ->
  connection (w_self w) = Some c -> conn_audio c = None -> conn_secret c = true ->
  track (config (w_self w)) = None ->
  o (QTrackURL d) = UrlOk url proto fmt add ->
  keys_length (filters (config (w_self w))) = Some 0%nat ->
  o (QTrackStream d url proto add) = StreamOk s ->
  exists w',
    run o (VoiceConnection.volume v ≫= fun _ => VoiceConnection.play tr d false) w =
      RDone (config (w_self w')) w' /\
    trace (w_glob w') = trace (w_glob w) ++
      [EResourceVolume (AudioResource s fmt) v; ECmd (w_id w) (CPlay (AudioResource s fmt))] /\
    volume (config (w_self w')) = v.
Proof.
  intros Hv Hc Ha Hk Ht Hd Hf Hs.
  erewrite run_bind_done by (apply (volume_idle_run w v c); assumption).
  destruct (play_direct_ok (w_map_self (vc_map_cache (set_cvolume v)) w) tr d false
              url proto fmt add s c (or_introl eq_refl) Hd Hf Hs Hc Hk)
    as (w' & Hrun & Htr & _ & Hvol & _).
  exists w'. cbv beta. rewrite Hrun, Htr, Hvol. cbn. rewrite Ht.
  destruct (Z.eqb_spec v 100); [congruence|]. auto.
Qed.

(** C31: a volume set while a track plays is undone by the next track:
    [volume(v)] on a live stream leaves the staged value [v0] of an
    earlier idle [volume(v0)] in the cache, and the next successful
    [play] applies [v0] again, so the configuration reports [v0], not
    [v]. *)
Theorem volume_live_reverted w v v0 tr d url proto fmt add s c a :
  c_volume (cache (w_self w)) = v0 -> v0 <> 100 ->
  connection (w_self w) = Some c -> conn_audio c = Some a -> conn_secret c = true ->
  o (QTrackURL d) = UrlOk url proto fmt add ->
  keys_length (filters (config (w_self w))) = Some 0%nat ->
  o (QTrackStream d url proto add) = StreamOk s ->
  exists w',
    run o (VoiceConnection.volume v ≫= fun _ => VoiceConnection.play tr d false) w =
      RDone (config (w_self w')) w' /\
    volume (config (w_self w')) = v0.
Proof.
  intros Hv0 Hne Hc Ha Hk Hd Hf Hs.
  erewrite run_bind_done by (apply (volume_live_run w v c a); assumption).
  destruct (play_direct_ok (w_map_self (vc_map_config (set_volume v))
                              (emit_w (ECmd (w_id w) (CSetVolume v)) w)) tr d false
              url proto fmt add s c (or_introl eq_refl) Hd Hf Hs Hc Hk)
    as (w' & Hrun & _ & _ & Hvol & _).
  exists w'. cbv beta. rewrite Hrun, Hvol. cbn. rewrite Hv0.
  destruct (Z.eqb_spec v0 100); [congruence|]. auto.
Qed.

(** [filters(f)] is a no-op unless the player is playing and
    filters are enabled in the configuration. *)
Theorem filters_noop w f c :
  connection (w_self w) = Some c ->
  (conn_player c <> PPlaying \/ filtersEnabled = false) ->
  run o (VoiceConnection.filters f) w = RDone (config (w_self w)) w.
Proof.
  intros Hc Hp. unfold VoiceConnection.filters. vsimp.
  destruct Hp as [Hp | ->].
  - rewrite js_eq_false by exact Hp. reflexivity.
  - rewrite orb_true_r. reflexivity.
Qed.

(** C28: [filters(f)] during playback asks the pipeline for the current
    track re-encoded from the real-time position [packetsExpected * 20]
    with the cached protocol and url and the request's [endTime], then
    plays the new stream without touching the track or the playing
    counter (no new [TrackStartEvent] bookkeeping). *)
Theorem filters_reseek w f c t et s :
  connection (w_self w) = Some c -> conn_player c = PPlaying -> filtersEnabled = true ->
  conn_secret c = true ->
  track (config (w_self w)) = Some t ->
  jfield "endTime" f = Some et ->
  o (QFilterResource (guildId (config (w_self w))) (info t) (c_protocol (cache (w_self w)))
       (c_url (cache (w_self w))) (Some (conn_packets c * 20)) et
       (c_ffmpeg (cache (w_self w))) None) = ResOk s ->
  exists w', run o (VoiceConnection.filters f) w = RDone (config (w_self w')) w' /\
    trace (w_glob w') = trace (w_glob w) ++ [ECmd (w_id w) (CPlay s)] /\
    filters (config (w_self w')) = configure f /\
    track (config (w_self w')) = Some t /\
    playingCount (w_glob w') = playingCount (w_glob w).
Proof.
  intros Hc Hp He Hk Ht Hf Hs. unfold VoiceConnection.filters. vsimp. vfinish.
Qed.

(** C33: when the pipeline fails, [filters(f)] clears the track and the
    filters, sends a [TrackExceptionEvent] whose track is [null], and
    throws a [TypeError] reading [this.config.track.info]: no
    [TrackEndEvent(loadFailed)] is sent. *)
Theorem filters_failure w f c t et exc :
  connection (w_self w) = Some c -> conn_player c = PPlaying -> filtersEnabled = true ->
  track (config (w_self w)) = Some t ->
  jfield "endTime" f = Some et ->
  o (QFilterResource (guildId (config (w_self w))) (info t) (c_protocol (cache (w_self w)))
       (c_url (cache (w_self w))) (Some (conn_packets c * 20)) et
       (c_ffmpeg (cache (w_self w))) None) = ResErr exc ->
  exists w', run o (VoiceConnection.filters f) w =
      RFailed (TypeError "Cannot read properties of null (reading 'track')") w' /\
    trace (w_glob w') = trace (w_glob w) ++
      [ESend (TrackExceptionEvent (guildId (config (w_self w))) None exc)] /\
    track (config (w_self w')) = None /\
    filters (config (w_self w')) = JArr [].
Proof.
  intros Hc Hp He Ht Hf Hs. unfold VoiceConnection.filters. vsimp. vfinish.
Qed.

(** C6: a [stateChange] into [disconnected] from another status, with a
    [code] other than 4015, destroys the connection, stops the track's
    bookkeeping, resets the configuration to its initial shape (keeping
    the guild) and sends [WebSocketClosedEvent] with the transport's
    [closeCode] and its reason; the cache (staged volume, url) is kept.
    The test reads [newState.code] while the event reports
    [newState.closeCode]: a transport that sets only [closeCode] is reset
    even for code 4015. *)
Theorem disconnect_resets w oldS newS c :
  ts_status oldS <> TDisconnected -> ts_status newS = TDisconnected ->
  ts_code newS <> Some 4015 ->
  connection (w_self w) = Some c ->
  let g := guildId (config (w_self w)) in
  exists w', run o (VoiceConnection.on_stateChange oldS newS) w = RDone tt w' /\
    trace (w_glob w') = trace (w_glob w) ++
      [ECmd (w_id w) CDestroy;
       ESend (WebSocketClosedEvent g (ts_closeCode newS)
                (ts_closeCode newS ≫= closeCodeReason) true)] /\
    config (w_self w') = initial_config g /\
    cache (w_self w') = cache (w_self w) /\
    playingCount (w_glob w') = playingCount (w_glob w) - 1.
Proof.
  intros Hold Hnew Hcode Hc g. unfold VoiceConnection.on_stateChange. vsimp.
  rewrite (js_eq_false _ _ Hold), (js_eq_false _ _ Hcode). vsimp. vfinish.
Qed.

(** a [stateChange] that is not a fresh disconnection, or whose
    [code] is 4015, changes nothing. *)
Theorem stateChange_ignored w oldS newS :
  (ts_status newS <> TDisconnected \/ ts_status oldS = TDisconnected \/
   ts_code newS = Some 4015) ->
  run o (VoiceConnection.on_stateChange oldS newS) w = RDone tt w.
Proof.
  intros Hs. unfold VoiceConnection.on_stateChange.
  destruct (ts_status newS) eqn:Hn; cbn; try reflexivity.
  destruct Hs as [Hs | [Hs | Hs]]; [congruence | rewrite Hs | rewrite Hs]; cbn; try reflexivity.
  destruct (js_eq (ts_status oldS) TDisconnected); reflexivity.
Qed.

(** C5: when the player goes idle with reason [finished], the
    listener stops the bookkeeping, forgets the url, sends
    [TrackEndEvent(finished)] for the track and clears it. *)
Theorem finished_ends_track w oldP t :
  ps_status oldP <> PIdle ->
  track (config (w_self w)) = Some t ->
  exists w', run o (VoiceConnection.on_playerStateChange oldP
                      {| ps_status := PIdle; ps_reason := Some "finished" |}) w = RDone tt w' /\
    trace (w_glob w') = trace (w_glob w) ++
      [ESend (TrackEndEvent (guildId (config (w_self w))) (Some t) Finished)] /\
    track (config (w_self w')) = None /\
    c_url (cache (w_self w')) = None /\
    playingCount (w_glob w') = playingCount (w_glob w) - 1.
Proof.
  intros Hold Ht. unfold VoiceConnection.on_playerStateChange. vsimp.
  rewrite (js_eq_false _ _ Hold). vsimp. vfinish.
Qed.

(** C4: a genuine start (into [playing] with reason [requested], not
    from [paused]) records the start time, increments the playing
    counter, starts the [playerUpdate] interval when one is configured,
    and sends [TrackStartEvent] for the current track. *)
Theorem genuine_start w oldP t :
  ps_status oldP <> PPaused ->
  track (config (w_self w)) = Some t ->
  let h := next_timer (w_glob w) in
  let on := negb (Z.eqb playerUpdateInterval 0) in
  exists w', run o (VoiceConnection.on_playerStateChange oldP
                      {| ps_status := PPlaying; ps_reason := Some "requested" |}) w = RDone tt w' /\
    trace (w_glob w') = trace (w_glob w) ++
      [ESend (TrackStartEvent (guildId (config (w_self w))) (Some t))] /\
    playingCount (w_glob w') = playingCount (w_glob w) + 1 /\
    c_startedAt (cache (w_self w')) = Some (now (w_glob w)) /\
    stateInterval (w_self w') = (if on then Some h else stateInterval (w_self w)) /\
    timers (w_glob w') = (if on then <[h := w_id w]> (timers (w_glob w)) else timers (w_glob w)).
Proof.
  intros Hp Ht h on. unfold VoiceConnection.on_playerStateChange. vsimp.
  rewrite (js_eq_false _ _ Hp). vsimp.
  subst h on. destruct (negb (Z.eqb playerUpdateInterval 0)); vsimp; vfinish.
Qed.

(** a transition into [playing] that resumes from [paused], or
    whose reason is not [requested], emits no [TrackStartEvent] and
    changes nothing. *)
Theorem resume_no_start w oldP r :
  (ps_status oldP = PPaused \/ r <> Some "requested") ->
  run o (VoiceConnection.on_playerStateChange oldP
           {| ps_status := PPlaying; ps_reason := r |}) w = RDone tt w.
Proof.
  intros Hp. unfold VoiceConnection.on_playerStateChange, VoiceConnection.on_start. cbn.
  destruct Hp as [-> | Hr]; [reflexivity|].
  rewrite (js_eq_false _ _ Hr). destruct (js_eq (ps_status oldP) PPaused); reflexivity.
Qed.

(** C29: a stream error stops the bookkeeping and sends, in this order,
    [TrackExceptionEvent] (severity [fault], cause ["name: message"]) and
    [TrackEndEvent(loadFailed)] for the current track, then clears it. *)
Theorem error_fails_track w e :
  let g := guildId (config (w_self w)) in
  let tr := track (config (w_self w)) in
  exists w', run o (VoiceConnection.on_error e) w = RDone tt w' /\
    trace (w_glob w') = trace (w_glob w) ++
      [ESend (TrackExceptionEvent g tr
                {| message := err_message e; severity := "fault";
                   cause := err_name e +:+ ": " +:+ err_message e |});
       ESend (TrackEndEvent g tr LoadFailed)] /\
    track (config (w_self w')) = None /\
    playingCount (w_glob w') = playingCount (w_glob w) - 1.
Proof. intros g tr. unfold VoiceConnection.on_error. vsimp. vfinish. Qed.

(** C36: [playerUpdate] reports [packetsExpected * 20] as the position
    while the player is playing or paused and 0 otherwise, with the
    clock, the connection status and the ping. *)
Theorem interval_reports_position w c :
  connection (w_self w) = Some c ->
  let pos := if js_eq (conn_player c) PPlaying || js_eq (conn_player c) PPaused
             then conn_packets c * 20 else 0 in
  run o VoiceConnection.on_interval w =
  RDone tt (emit_w (ESend (PlayerUpdate (guildId (config (w_self w))) (now (w_glob w)) pos
                             (js_eq (conn_status c) TConnected) (conn_ping c))) w).
Proof.
  intros Hc pos. unfold VoiceConnection.on_interval. vsimp. subst pos.
  destruct (js_eq (conn_player c) PPlaying || js_eq (conn_player c) PPaused); vsimp; reflexivity.
Qed.

(** C35: [destroy()] destroys the connection if there is one, stops the
    bookkeeping (the playing counter is decremented even when nothing was
    playing) and removes the guild from [client.players]; the players
    counter is not decremented. *)
Theorem destroy_run w :
  let g := guildId (config (w_self w)) in
  exists w', run o VoiceConnection.destroy w = RDone tt w' /\
    trace (w_glob w') = trace (w_glob w) ++
      (if truthy (connection (w_self w)) then [ECmd (w_id w) CDestroy] else []) /\
    players (w_glob w') = delete g (players (w_glob w)) /\
    playingCount (w_glob w') = playingCount (w_glob w) - 1 /\
    playersCount (w_glob w') = playersCount (w_glob w).
Proof.
  intros g. unfold VoiceConnection.destroy. vsimp.
  destruct (connection (w_self w)) eqn:Hc; vsimp; vfinish.
Qed.

(** C37: [updateVoice(buffer)] stores the credentials, forwards a voice
    state update and a voice server update, and connects when the
    connection has no socket yet. *)
Theorem updateVoice_run w b c :
  connection (w_self w) = Some c ->
  let g := guildId (config (w_self w)) in
  exists w', run o (VoiceConnection.updateVoice b) w = RDone tt w' /\
    trace (w_glob w') = trace (w_glob w) ++
      [ECmd (w_id w) (CVoiceStateUpdate (Some g) (Some clientUserId) (sessionId b));
       ECmd (w_id w) (CVoiceServerUpdate (Some clientUserId) (token b) (Some g) (endpoint b))] ++
      (if conn_ws c then [] else [ECmd (w_id w) CConnect]) /\
    voice (config (w_self w')) = b.
Proof.
  intros Hc g. unfold VoiceConnection.updateVoice. vsimp.
  destruct (conn_ws c); vsimp; vfinish.
Qed.

(** [pause(p)] forwards pause or unpause and records the flag;
    it keeps the track and the playing counter. *)
Theorem pause_run w p c :
  connection (w_self w) = Some c ->
  run o (VoiceConnection.pause p) w =
  RDone (set_paused p (config (w_self w)))
    (w_map_self (vc_map_config (set_paused p))
       (emit_w (ECmd (w_id w) (if p then CPause else CUnpause)) w)).
Proof. intros Hc. unfold VoiceConnection.pause. vsimp. reflexivity. Qed.

(** [setup()] increments the players counter and joins the voice
    channel of the guild. *)
Theorem setup_run w :
  run o VoiceConnection.setup w =
  RDone tt (w_map_self (vc_set_connection (Some (joinVoiceChannel (guildId (config (w_self w))))))
              (w_map_glob (glob_add_players_count 1) w)).
Proof. reflexivity. Qed.

End Handlers.

(** ** Concrete runs *)

(** A configuration, a ready connection, tracks, worlds and collaborator
    answers, on which each theorem above is applied. *)

Definition demo_conn : Conn :=
  {| conn_status := TConnected; conn_player := PPlaying; conn_audio := Some (RawStream 7);
     conn_secret := true; conn_ws := true; conn_packets := 150; conn_ping := 42 |}.

Definition demo_env : NodeEnv :=
  {| playerUpdateInterval := 5000; threshold := 0; filtersEnabled := true;
     closeCodeReason := fun c => if Z.eqb c 4014 then Some "Disconnected"%string else None;
     configure := fun f => f; joinVoiceChannel := fun _ => demo_conn;
     clientUserId := "bot" |}.

#[local] Existing Instance demo_env.

Definition demo_info (id : string) : TrackInfo :=
  {| identifier := id; isSeekable := true; author := "A"; info_length := 200000;
     isStream := false; position := 0; title := "T"; uri := "u"; artworkUrl := None;
     isrc := None; sourceName := "spotify" |}.

Definition demo_track : Track := {| encoded := "QAAA"; info := demo_info "a"; userData := None |}.

Definition demo_glob : Glob :=
  {| playersCount := 1; playingCount := 1; trace := []; players := {[ "G1" := 0%nat ]};
     timers := ∅; next_timer := 0; now := 1000 |}.

(** Guild ["G1"], object 0, with a track, a connection, a staged volume
    and filters. *)
Definition demo_world (t : option Track) (c : option Conn) (vol : Z) (fl : JVal) : World :=
  {| w_id := 0;
     w_self := {| connection := c; cache := set_cvolume vol initial_cache;
                  config := set_filters fl (set_track t (initial_config "G1"));
                  stateInterval := None |};
     w_glob := demo_glob |}.

Definition demo_exc : Exc := {| message := "no"; severity := "fault"; cause := "test" |}.

(** Collaborators that succeed, and ones whose resolver, source or filter
    pipeline fails. *)
Definition demo_oracle (url_ok stream_ok filter_ok : bool) : forall q, Answer q :=
  fun q =>
    match q as q0 return Answer q0 with
    | QTrackURL _ => if url_ok then UrlOk "https://x/a.ogg" "https" "opus" None else UrlErr demo_exc
    | QTrackStream _ _ _ _ => if stream_ok then StreamOk (RawStream 1) else StreamErr demo_exc
    | QFilterResource _ _ _ _ _ _ _ _ => if filter_ok then ResOk (RawStream 2) else ResErr demo_exc
    | QWaitConnected _ => WaitResolved
    end.

Definition W_idle := demo_world None (Some demo_conn) 100 (JObj []).
Definition W_playing := demo_world (Some demo_track) (Some demo_conn) 100 (JObj []).
Definition W_staged := demo_world (Some demo_track) (Some demo_conn) 50 (JObj []).
Definition W_filtered := demo_world (Some demo_track) (Some demo_conn) 100
                           (JObj [("timescale", JNum 2)]).
(** A connection that is ready but has no stream. *)
Definition silent_conn : Conn :=
  {| conn_status := TConnected; conn_player := PIdle; conn_audio := None;
     conn_secret := true; conn_ws := false; conn_packets := 0; conn_ping := 42 |}.
Definition W_silent := demo_world None (Some silent_conn) 100 (JObj []).

Lemma stop_idle_noop_witness :
  run (demo_oracle true true true) VoiceConnection.stop W_idle = RDone (Some (config (w_self W_idle))) W_idle.
Proof. apply stop_idle_noop. reflexivity. Defined.

Lemma stop_active_witness :
  exists w', run (demo_oracle true true true) VoiceConnection.stop W_playing = RDone None w' /\
    track (config (w_self w')) = None.
Proof.
  destruct (stop_active (demo_oracle true true true) W_playing demo_track demo_conn) as (w' & H1 & _ & H2 & _);
    try reflexivity.
  exists w'. split; assumption.
Defined.

Lemma play_noReplace_noop_witness :
  run (demo_oracle true true true) (VoiceConnection.play "QBBB" (demo_info "b") true) W_playing =
  RDone (config (w_self W_playing)) W_playing.
Proof. apply (play_noReplace_noop _ _ _ _ demo_track). reflexivity. Defined.

Lemma play_url_failure_witness :
  exists w', run (demo_oracle false true true) (VoiceConnection.play "QBBB" (demo_info "b") false) W_playing =
    RFailed (TypeError "Cannot read properties of null (reading 'track')") w'.
Proof.
  eexists. apply (play_url_failure _ _ _ _ _ demo_exc); [left|]; reflexivity.
Defined.

Lemma play_success_witness :
  exists w', run (demo_oracle true true true) (VoiceConnection.play "QBBB" (demo_info "b") false) W_staged =
    RDone (config (w_self w')) w' /\ volume (config (w_self w')) = 50.
Proof.
  destruct (play_success (demo_oracle true true true) W_staged "QBBB" (demo_info "b") false
              "https://x/a.ogg" "https" "opus" None (RawStream 1) demo_conn)
    as (w' & H1 & _ & _ & H2 & _); try reflexivity; [left; reflexivity|].
  exists w'. split; assumption.
Defined.

Lemma play_resource_failure_witness :
  exists w', run (demo_oracle true false true) (VoiceConnection.play "QBBB" (demo_info "b") false) W_playing =
    RFailed (TypeError "Cannot read properties of null (reading 'track')") w'.
Proof.
  destruct (play_resource_failure (demo_oracle true false true) W_playing "QBBB" (demo_info "b") false
              "https://x/a.ogg" "https" "opus" None demo_exc)
    as (w' & H1 & _); try reflexivity; [left; reflexivity|].
  exists w'. assumption.
Defined.

Lemma play_filters_url_stale_witness :
  exists w', run (demo_oracle true true true) (VoiceConnection.play "QBBB" (demo_info "b") false) W_filtered =
    RDone (config (w_self w')) w' /\ c_url (cache (w_self w')) = None.
Proof.
  destruct (play_filters_url_stale (demo_oracle true true true) W_filtered "QBBB" (demo_info "b") false
              "https://x/a.ogg" "https" "opus" None 0 (RawStream 2) demo_conn)
    as (w' & H1 & _ & _ & H2 & _); try reflexivity; [left; reflexivity|].
  exists w'. split; assumption.
Defined.


Lemma volume_staged_applied_witness :
  exists w', run (demo_oracle true true true)
               (VoiceConnection.volume 70 ≫= fun _ => VoiceConnection.play "QBBB" (demo_info "b") false)
               W_silent = RDone (config (w_self w')) w' /\ volume (config (w_self w')) = 70.
Proof.
  destruct (volume_staged_applied (demo_oracle true true true) W_silent 70 "QBBB" (demo_info "b")
              "https://x/a.ogg" "https" "opus" None (RawStream 1) silent_conn)
    as (w' & H1 & _ & H2); try reflexivity; try lia.
  exists w'. split; assumption.
Defined.

Lemma volume_live_reverted_witness :
  exists w', run (demo_oracle true true true)
               (VoiceConnection.volume 80 ≫= fun _ => VoiceConnection.play "QBBB" (demo_info "b") false)
               W_staged = RDone (config (w_self w')) w' /\ volume (config (w_self w')) = 50.
Proof.
  destruct (volume_live_reverted (demo_oracle true true true) W_staged 80 50 "QBBB" (demo_info "b")
              "https://x/a.ogg" "https" "opus" None (RawStream 1) demo_conn (RawStream 7))
    as (w' & H1 & H2); try reflexivity; try lia.
  exists w'. split; assumption.
Defined.

Lemma filters_noop_witness :
  run (demo_oracle true true true) (VoiceConnection.filters (JObj [])) W_silent =
  RDone (config (w_self W_silent)) W_silent.
Proof. apply (filters_noop _ _ _ silent_conn); [reflexivity | left; discriminate]. Defined.

(** A filter request with an [endTime]. *)
Definition demo_filters : JVal := JObj [("timescale", JNum 2); ("endTime", JNum 9000)].

Lemma filters_reseek_witness :
  exists w', run (demo_oracle true true true) (VoiceConnection.filters demo_filters) W_playing =
    RDone (config (w_self w')) w' /\
    trace (w_glob w') = [ECmd 0 (CPlay (RawStream 2))].
Proof.
  destruct (filters_reseek (demo_oracle true true true) W_playing demo_filters demo_conn demo_track
              (Some (JNum 9000)) (RawStream 2))
    as (w' & H1 & H2 & _); try reflexivity.
  exists w'. split; assumption.
Defined.

Lemma filters_failure_witness :
  exists w', run (demo_oracle true true false) (VoiceConnection.filters demo_filters) W_playing =
    RFailed (TypeError "Cannot read properties of null (reading 'track')") w'.
Proof.
  destruct (filters_failure (demo_oracle true true false) W_playing demo_filters demo_conn demo_track
              (Some (JNum 9000)) demo_exc)
    as (w' & H1 & _); try reflexivity.
  exists w'. assumption.
Defined.

Definition ts_connected : TState := {| ts_status := TConnected; ts_code := None; ts_closeCode := None |}.
(** The transport closes with 4014 and reports it only as [closeCode]. *)
Definition ts_closed_4014 : TState :=
  {| ts_status := TDisconnected; ts_code := None; ts_closeCode := Some 4014 |}.

Lemma disconnect_resets_witness :
  exists w', run (demo_oracle true true true) (VoiceConnection.on_stateChange ts_connected ts_closed_4014)
               W_playing = RDone tt w' /\
    trace (w_glob w') = [ECmd 0 CDestroy;
                         ESend (WebSocketClosedEvent "G1" (Some 4014) (Some "Disconnected"%string) true)].
Proof.
  destruct (disconnect_resets (demo_oracle true true true) W_playing ts_connected ts_closed_4014 demo_conn)
    as (w' & H1 & H2 & _); try reflexivity; try discriminate.
  exists w'. split; assumption.
Defined.

Lemma stateChange_ignored_witness :
  run (demo_oracle true true true)
    (VoiceConnection.on_stateChange ts_connected
       {| ts_status := TDisconnected; ts_code := Some 4015; ts_closeCode := Some 4015 |}) W_playing =
  RDone tt W_playing.
Proof. apply stateChange_ignored. right; right; reflexivity. Defined.

Definition ps_playing : PState := {| ps_status := PPlaying; ps_reason := Some "requested"%string |}.
Definition ps_paused : PState := {| ps_status := PPaused; ps_reason := None |}.
Definition ps_idle : PState := {| ps_status := PIdle; ps_reason := None |}.

Lemma finished_ends_track_witness :
  exists w', run (demo_oracle true true true)
               (VoiceConnection.on_playerStateChange ps_playing
                  {| ps_status := PIdle; ps_reason := Some "finished"%string |}) W_playing = RDone tt w' /\
    track (config (w_self w')) = None.
Proof.
  destruct (finished_ends_track (demo_oracle true true true) W_playing ps_playing demo_track)
    as (w' & H1 & _ & H2 & _); try reflexivity; try discriminate.
  exists w'. split; assumption.
Defined.

Lemma genuine_start_witness :
  exists w', run (demo_oracle true true true) (VoiceConnection.on_playerStateChange ps_idle ps_playing)
               W_playing = RDone tt w' /\
    trace (w_glob w') = [ESend (TrackStartEvent "G1" (Some demo_track))].
Proof.
  destruct (genuine_start (demo_oracle true true true) W_playing ps_idle demo_track)
    as (w' & H1 & H2 & _); try reflexivity; try discriminate.
  exists w'. split; assumption.
Defined.

Lemma resume_no_start_witness :
  run (demo_oracle true true true) (VoiceConnection.on_playerStateChange ps_paused ps_playing) W_playing =
  RDone tt W_playing.
Proof. apply resume_no_start. left; reflexivity. Defined.

Lemma interval_reports_position_witness :
  run (demo_oracle true true true) VoiceConnection.on_interval W_playing =
  RDone tt (emit_w (ESend (PlayerUpdate "G1" 1000 3000 true 42)) W_playing).
Proof. exact (interval_reports_position (demo_oracle true true true) W_playing demo_conn eq_refl). Defined.

Definition demo_voice : Voice :=
  {| token := Some "tok"%string; endpoint := Some "ep"%string; sessionId := Some "sid"%string |}.

Lemma updateVoice_run_witness :
  exists w', run (demo_oracle true true true) (VoiceConnection.updateVoice demo_voice) W_silent = RDone tt w' /\
    trace (w_glob w') =
      [ECmd 0 (CVoiceStateUpdate (Some "G1"%string) (Some "bot"%string) (Some "sid"%string));
       ECmd 0 (CVoiceServerUpdate (Some "bot"%string) (Some "tok"%string) (Some "G1"%string) (Some "ep"%string));
       ECmd 0 CConnect].
Proof.
  destruct (updateVoice_run (demo_oracle true true true) W_silent demo_voice silent_conn)
    as (w' & H1 & H2 & _); try reflexivity.
  exists w'. split; assumption.
Defined.

Lemma pause_run_witness :
  run (demo_oracle true true true) (VoiceConnection.pause true) W_playing =
  RDone (set_paused true (config (w_self W_playing)))
    (w_map_self (vc_map_config (set_paused true)) (emit_w (ECmd 0 CPause) W_playing)).
Proof. exact (pause_run (demo_oracle true true true) W_playing true demo_conn eq_refl). Defined.
