(* ===== verification/Registry.v ===== *)
(** * Registry: the process of many [VoiceConnection]s

    The node process holds one [VoiceConnection] object per guild in
    [client.players], the two global counters, the socket to the
    control client, the live intervals and the promises awaited by
    handlers that have not resumed yet.  [step] interleaves everything
    that can happen in it: a guild's session is created, a command
    reaches the object registered for its guild, the transport emits an
    event or changes its observable state, an interval fires, the clock
    advances, or a pending [await] resumes with any answer of its type.
    Handlers run to their next [await] ([exec]); what they leave
    awaiting joins [pending].

    [frame] is what every command, listener and timer callback
    guarantees of each state it writes; with it, invariants of the
    reachable states follow by rule induction, and concrete reachable
    states show what the code permits. *)

From S2P Require Import Prelude Model VoiceHandler Playback.

Local Open Scope Z_scope.

(** ** The process *)

(** A handler awaiting the answer to [p_q], on object [p_obj]. *)
Record Pending := mkPending {
  p_obj : nat;
  p_q : Query;
  p_k : Answer p_q -> M unit
}.

(** The objects ([heap], by identity), the global state, the pending
    continuations and the next fresh identity. *)
Record Sys := {
  heap : gmap nat VC;
  glob : Glob;
  pending : list Pending;
  next_obj : nat
}.

(** The commands of the control channel. *)
Inductive Cmd :=
  | CmdPlay (track : string) (decoded : TrackInfo) (noReplace : bool)
  | CmdStop
  | CmdPause (p : bool)
  | CmdVolume (v : Z)
  | CmdFilters (f : JVal)
  | CmdUpdateVoice (b : Voice)
  | CmdDestroy.

(** The events of the voice connection the listeners of [setup] receive. *)
Inductive TEvent :=
  | EvStateChange (oldState newState : TState)
  | EvPlayerStateChange (oldState newState : PState)
  | EvError (e : ErrorObj).

Section Process.
Context `{NodeEnv}.

(** The method a command calls; its return value goes back to the
    caller and does not change the state. *)
Definition cmd_prog (c : Cmd) : M unit :=
  match c with
  | CmdPlay tr d nr => _ ← VoiceConnection.play tr d nr; mret tt
  | CmdStop => _ ← VoiceConnection.stop; mret tt
  | CmdPause p => _ ← VoiceConnection.pause p; mret tt
  | CmdVolume v => _ ← VoiceConnection.volume v; mret tt
  | CmdFilters f => _ ← VoiceConnection.filters f; mret tt
  | CmdUpdateVoice b => VoiceConnection.updateVoice b
  | CmdDestroy => VoiceConnection.destroy
  end.

(** The listener an event runs. *)
Definition ev_prog (e : TEvent) : M unit :=
  match e with
  | EvStateChange o n => VoiceConnection.on_stateChange o n
  | EvPlayerStateChange o n => VoiceConnection.on_playerStateChange o n
  | EvError err => VoiceConnection.on_error err
  end.

Definition world_of (s : Sys) (o : nat) (v : VC) : World :=
  {| w_id := o; w_self := v; w_glob := glob s |}.

(** Write back what a handler on object [o] left, and what it awaits. *)
Definition commit (s : Sys) (o : nat) (w : World) (extra : list Pending) : Sys :=
  {| heap := <[o := w_self w]> (heap s); glob := w_glob w;
     pending := pending s ++ extra; next_obj := next_obj s |}.

(** Run a handler on object [o] until it returns, throws (the changes
    made before the throw stay) or awaits. *)
Definition run_on (s : Sys) (o : nat) (v : VC) (p : M unit) : Sys :=
  match exec p (world_of s o v) with
  | Done _ w | Failed _ w => commit s o w []
  | Blocked q k w => commit s o w [mkPending o q k]
  end.

(** A guild's first session: [new VoiceConnection(guildId, client)]
    registered in [client.players], then [setup()]. *)
Definition create (s : Sys) (g : string) : Sys :=
  let o := next_obj s in
  let s1 := {| heap := <[o := new_VoiceConnection g]> (heap s);
               glob := glob_set_players (<[g := o]> (players (glob s))) (glob s);
               pending := pending s; next_obj := S o |} in
  run_on s1 o (new_VoiceConnection g) VoiceConnection.setup.

(** The [i]-th pending continuation resumes with answer [a]. *)
Definition resume (s : Sys) (i : nat) (p : Pending) (a : Answer (p_q p)) : Sys :=
  let s' := {| heap := heap s; glob := glob s; pending := delete i (pending s);
               next_obj := next_obj s |} in
  match heap s !! p_obj p with
  | Some v => run_on s' (p_obj p) v (p_k p a)
  | None => s'
  end.

(** The transport changes what the object reads of its connection. *)
Definition set_conn (s : Sys) (o : nat) (v : VC) (c : Conn) : Sys :=
  {| heap := <[o := vc_set_connection (Some c) v]> (heap s); glob := glob s;
     pending := pending s; next_obj := next_obj s |}.

(** [Date.now()] advances. *)
Definition tick (s : Sys) (d : Z) : Sys :=
  let g := glob s in
  {| heap := heap s; pending := pending s; next_obj := next_obj s;
     glob := {| playersCount := playersCount g; playingCount := playingCount g;
                trace := trace g; players := players g; timers := timers g;
                next_timer := next_timer g; now := now g + d |} |}.

Inductive step : Sys -> Sys -> Prop :=
  | step_create s g :
      players (glob s) !! g = None -> step s (create s g)
  | step_command s g o v c :
      players (glob s) !! g = Some o -> heap s !! o = Some v ->
      step s (run_on s o v (cmd_prog c))
  | step_event s o v c e :
      heap s !! o = Some v -> connection v = Some c ->
      step s (run_on s o v (ev_prog e))
  | step_timer s h o v :
      timers (glob s) !! h = Some o -> heap s !! o = Some v ->
      step s (run_on s o v VoiceConnection.on_interval)
  | step_resume s i p a :
      pending s !! i = Some p -> step s (resume s i p a)
  | step_transport s o v c c' :
      heap s !! o = Some v -> connection v = Some c -> step s (set_conn s o v c')
  | step_tick s d :
      0 <= d -> step s (tick s d).

Definition init_glob : Glob :=
  {| playersCount := 0; playingCount := 0; trace := []; players := ∅;
     timers := ∅; next_timer := 0; now := 0 |}.

Definition init : Sys := {| heap := ∅; glob := init_glob; pending := []; next_obj := 0 |}.

Definition reachable (s : Sys) : Prop := rtc step init s.

(** The control channel's dispatch: [client.players.get(guildId)] and
    the method call, nothing when the guild has no session. *)
Definition dispatch (s : Sys) (g : string) (c : Cmd) : Sys :=
  match players (glob s) !! g with
  | Some o =>
      match heap s !! o with
      | Some v => run_on s o v (cmd_prog c)
      | None => s
      end
  | None => s
  end.

(** The [i]-th pending continuation resumes with what the oracle [f]
    answers to its query. *)
Definition resume_with (s : Sys) (i : nat) (f : forall q, Answer q) : Sys :=
  match pending s !! i with
  | Some p => resume s i p (f (p_q p))
  | None => s
  end.

End Process.

(** ** What every handler guarantees *)

(** Each state a command, listener or timer callback writes keeps the
    object's identity and guild, only removes entries of
    [client.players], keeps [nodelinkPlayersCount], and extends the
    effects so far. *)
Definition frame (w w' : World) : Prop :=
  w_id w' = w_id w /\
  guildId (config (w_self w')) = guildId (config (w_self w)) /\
  players (w_glob w') ⊆ players (w_glob w) /\
  playersCount (w_glob w') = playersCount (w_glob w) /\
  trace (w_glob w) `prefix_of` trace (w_glob w').

#[export] Instance frame_refl : Reflexive frame.
Proof. intros w. unfold frame. repeat split; reflexivity. Qed.

#[export] Instance frame_trans : Transitive frame.
Proof.
  intros w1 w2 w3 (H1 & H2 & H3 & H4 & H5) (H1' & H2' & H3' & H4' & H5').
  repeat split; try congruence; etransitivity; eauto.
Qed.

(** A write that only appends an effect, or changes nothing [frame]
    watches. *)
Ltac frame_tac :=
  unfold frame; cbn;
  repeat split;
  first [ reflexivity | apply delete_subseteq | apply prefix_app_r; reflexivity ].

(** The guarantees of the sub-programs a handler calls, which
    [guar_tac] uses at the call instead of walking them again. *)
Create HintDb guar_db discriminated.

(** [guar_tac] proves [guar frame w p] for a handler: it walks the
    program, splits on every branch, discharges each write with
    [frame_tac] and each call of a sub-program with its guarantee
    from [guar_db]. *)
Ltac guar_tac :=
  repeat (cbn -[frame VoiceConnection.build_resource VoiceConnection.wait_connected
                VoiceConnection._stopTrack call track_nonnull];
          first [ solve [auto with guar_db]
                | apply guar_ret
                | apply guar_throw
                | apply guar_get
                | apply guar_put; [frame_tac|]
                | apply guar_await; intros
                | progress unfold when, keys_len, field
                | case_match
                | apply guar_bind; [solve [auto with guar_db] | intros] ]).

(** The definitions a handler's body is made of, down to the primitives. *)
Ltac unfold_handlers :=
  unfold cmd_prog, ev_prog, VoiceConnection.play,
    VoiceConnection.getResource, VoiceConnection.stop,
    VoiceConnection.volume, VoiceConnection.pause, VoiceConnection.filters,
    VoiceConnection.updateVoice, VoiceConnection.destroy,
    VoiceConnection.on_stateChange, VoiceConnection.on_playerStateChange,
    VoiceConnection.on_error, VoiceConnection.on_start, VoiceConnection.on_interval,
    VoiceConnection._getRealTime.

Section Guarantees.
Context `{NodeEnv}.

Lemma guar_call w c : guar frame w (call c).
Proof. unfold call, conn; guar_tac. Qed.

Lemma guar_track_nonnull w : guar frame w track_nonnull.
Proof. unfold track_nonnull; guar_tac. Qed.

Lemma guar_stopTrack w : guar frame w VoiceConnection._stopTrack.
Proof. unfold VoiceConnection._stopTrack; guar_tac. Qed.

Lemma guar_wait_connected w : guar frame w VoiceConnection.wait_connected.
Proof. unfold VoiceConnection.wait_connected; guar_tac. Qed.

#[local] Hint Resolve guar_call guar_track_nonnull guar_stopTrack guar_wait_connected : guar_db.

Lemma guar_build_resource w oldTrack d url protocol format additionalData :
  guar frame w (VoiceConnection.build_resource oldTrack d url protocol format additionalData).
Proof. unfold VoiceConnection.build_resource; unfold_handlers; guar_tac. Qed.

#[local] Hint Resolve guar_build_resource : guar_db.

Lemma guar_ev w e : guar frame w (ev_prog e).
Proof. destruct e; unfold_handlers; guar_tac. Qed.

Lemma guar_cmd w c : guar frame w (cmd_prog c).
Proof. destruct c; unfold_handlers; guar_tac. Qed.

Lemma guar_interval w : guar frame w VoiceConnection.on_interval.
Proof. unfold_handlers; guar_tac. Qed.

End Guarantees.

(** ** Invariants of the reachable states *)

(** A pending continuation keeps the guarantee whatever it resumes with. *)
Definition guarded (p : Pending) : Prop := forall a w, guar frame w (p_k p a).

(** The objects are exactly the identities handed out; every entry of
    [client.players] is an object of that guild; [nodelinkPlayersCount]
    counts the objects created; every pending continuation keeps the
    guarantee. *)
Record Inv (s : Sys) : Prop := {
  inv_heap : forall o, is_Some (heap s !! o) <-> (o < next_obj s)%nat;
  inv_players : forall g o, players (glob s) !! g = Some o ->
    exists v, heap s !! o = Some v /\ guildId (config v) = g;
  inv_count : playersCount (glob s) = Z.of_nat (next_obj s);
  inv_pending : Forall guarded (pending s)
}.

Lemma run_on_frame s o v p :
  guar frame (world_of s o v) p ->
  exists w extra, run_on s o v p = commit s o w extra /\
    frame (world_of s o v) w /\ Forall guarded extra.
Proof.
  intros Hg. pose proof (guar_exec _ _ _ Hg) as He. unfold run_on.
  destruct (exec p (world_of s o v)) as [a w|e w|q k w].
  - exists w, []. auto.
  - exists w, []. auto.
  - destruct He as [Hf Hk]. exists w, [mkPending o q k].
    split; [reflexivity|]. split; [exact Hf|]. constructor; [|constructor].
    intros a w'. apply Hk.
Qed.

Lemma inv_commit s o v w extra :
  Inv s -> heap s !! o = Some v -> frame (world_of s o v) w -> Forall guarded extra ->
  Inv (commit s o w extra).
Proof.
  intros [Hh Hp Hc Hq] Hv (_ & Hg & Hsub & Hcount & _) Hx. cbn in *.
  split; cbn.
  - intros o'. rewrite <- Hh. destruct (decide (o' = o)) as [->|].
    + rewrite lookup_insert_eq, Hv. split; auto.
    + rewrite lookup_insert_ne by congruence. reflexivity.
  - intros g o' Ho'. eapply lookup_weaken in Hsub; [|exact Ho'].
    destruct (Hp _ _ Hsub) as (v' & Hv' & <-).
    destruct (decide (o' = o)) as [->|].
    + rewrite lookup_insert_eq. eexists; split; [reflexivity|]. congruence.
    + rewrite lookup_insert_ne by congruence. eauto.
  - congruence.
  - apply Forall_app; auto.
Qed.

Section Reachable.
Context `{NodeEnv}.

Lemma inv_init : Inv init.
Proof.
  split; cbn.
  - intros o. rewrite lookup_empty. split; [intros []; discriminate | lia].
  - intros g o. rewrite lookup_empty. discriminate.
  - reflexivity.
  - constructor.
Qed.

Lemma inv_create s g : Inv s -> Inv (create s g).
Proof.
  intros [Hh Hp Hc Hq]. split; cbn.
  - intros o. rewrite insert_insert_eq. destruct (decide (o = next_obj s)) as [->|].
    + rewrite lookup_insert_eq. split; [lia | eauto].
    + rewrite lookup_insert_ne, Hh by done. lia.
  - intros g' o. rewrite insert_insert_eq. destruct (decide (g' = g)) as [->|].
    + rewrite lookup_insert_eq. intros [= <-]. rewrite lookup_insert_eq. eauto.
    + rewrite lookup_insert_ne by done. intros Ho.
      destruct (Hp _ _ Ho) as (v & Hv & Hg).
      assert (o < next_obj s)%nat by (apply Hh; eauto).
      rewrite lookup_insert_ne by lia. eauto.
  - rewrite Hc. lia.
  - rewrite app_nil_r. exact Hq.
Qed.

Lemma inv_run_on s o v p :
  Inv s -> heap s !! o = Some v -> guar frame (world_of s o v) p -> Inv (run_on s o v p).
Proof.
  intros HI Hv Hg. destruct (run_on_frame _ _ _ _ Hg) as (w & extra & -> & Hf & Hx).
  eapply inv_commit; eauto.
Qed.

Lemma inv_resume s i p a : Inv s -> pending s !! i = Some p -> Inv (resume s i p a).
Proof.
  intros HI Hi.
  assert (Hg : guarded p) by (eapply Forall_lookup_1; [apply inv_pending, HI|exact Hi]).
  assert (HI' : Inv {| heap := heap s; glob := glob s; pending := delete i (pending s);
                       next_obj := next_obj s |}).
  { destruct HI as [Hh Hp Hc Hq]. split; cbn; auto. apply Forall_delete, Hq. }
  unfold resume. destruct (heap s !! p_obj p) eqn:Ho; [|exact HI'].
  apply inv_run_on; [exact HI' | exact Ho | apply Hg].
Qed.

Lemma inv_step s s' : Inv s -> step s s' -> Inv s'.
Proof.
  intros HI Hs. destruct Hs.
  - apply inv_create, HI.
  - apply inv_run_on; auto using guar_cmd.
  - apply inv_run_on; auto using guar_ev.
  - apply inv_run_on; auto using guar_interval.
  - eapply inv_resume; eauto.
  - destruct HI as [Hh Hp Hc Hq]. split; cbn; auto.
    + intros o'. rewrite <- Hh. destruct (decide (o' = o)) as [->|].
      * rewrite lookup_insert_eq, H0. split; eauto.
      * rewrite lookup_insert_ne by done. reflexivity.
    + intros g o' Ho'. destruct (Hp _ _ Ho') as (v' & Hv' & Hg).
      destruct (decide (o' = o)) as [->|].
      * rewrite lookup_insert_eq. eexists; split; [reflexivity|]. cbn. congruence.
      * rewrite lookup_insert_ne by done. eauto.
  - destruct HI as [Hh Hp Hc Hq]. split; cbn; auto.
Qed.

Lemma rtc_inv s s' : rtc step s s' -> Inv s -> Inv s'.
Proof. induction 1; eauto using inv_step. Qed.

Lemma reachable_inv s : reachable s -> Inv s.
Proof. intros Hr. exact (rtc_inv _ _ Hr inv_init). Qed.

Lemma step_dispatch s g o v c :
  players (glob s) !! g = Some o -> heap s !! o = Some v -> step s (dispatch s g c).
Proof.
  intros Hg Hv. unfold dispatch. rewrite Hg, Hv. eapply step_command; eauto.
Qed.

Lemma step_resume_with s i f : is_Some (pending s !! i) -> step s (resume_with s i f).
Proof.
  intros [p Hp]. unfold resume_with. rewrite Hp. apply step_resume, Hp.
Qed.
End Reachable.

(** [reach_tac] proves a concrete state reachable by replaying, from
    the last, the steps that built it. *)
Ltac reach_tac :=
  unfold reachable;
  repeat first
    [ match goal with |- rtc _ ?x ?x => apply rtc_refl end
    | eapply rtc_r; [|apply step_resume_with; vm_compute; eauto]
    | eapply rtc_r; [|eapply step_dispatch; vm_compute; reflexivity]
    | eapply rtc_r; [|apply step_create; vm_compute; reflexivity] ].

(** ** Properties of the process *)

Section Claims.
Context `{NodeEnv}.

(** C7: In every reachable state, the object [client.players] holds for
    a guild exists and belongs to that guild, so a command for a guild
    runs on that guild's session. *)
Theorem registry_consistent s g o :
  reachable s -> players (glob s) !! g = Some o ->
  exists v, heap s !! o = Some v /\ guildId (config v) = g.
Proof. intros Hr. apply (inv_players _ (reachable_inv _ Hr)). Qed.

(** C8: In every reachable state [nodelinkPlayersCount] is the number of
    [VoiceConnection]s ever set up: [destroy] never decrements it. *)
Theorem players_count_created s :
  reachable s -> playersCount (glob s) = Z.of_nat (next_obj s).
Proof. intros Hr. apply (inv_count _ (reachable_inv _ Hr)). Qed.

(** C15: Whatever the configuration, the process that creates guild
    ["G1"]'s session and then dispatches [destroy] to it reaches a state
    where no session is registered, [nodelinkPlayersCount] is still 1
    ([destroy] never decrements it) and [nodelinkPlayingPlayersCount] is
    -1: the session never played, yet [_stopTrack] decremented it. *)
Theorem create_destroy_counters :
  let s := dispatch (create init "G1") "G1" CmdDestroy in
  reachable s /\ players (glob s) = ∅ /\
    playingCount (glob s) = -1 /\ playersCount (glob s) = 1.
Proof. cbv zeta. split; [reach_tac | vm_compute; auto]. Qed.

End Claims.

(** ** Interleavings, on a concrete configuration *)

#[local] Existing Instance demo_env.

Definition demo_answers := demo_oracle true true true.

(** Guild ["G1"]'s session, object 0. *)
Definition sc_created : Sys := create init "G1".

(** [play] awaits the resolver; [destroy] runs; then the resolver and
    the source answer. *)
Definition sc_play_destroyed : Sys :=
  let s := dispatch sc_created "G1" (CmdPlay "QAAA" (demo_info "a") false) in
  let s := dispatch s "G1" CmdDestroy in
  resume_with (resume_with s 0 demo_answers) 0 demo_answers.

(** [play(A)] then [play(B)] both await the resolver; B's answers
    arrive first, then A's. *)
Definition sc_two_plays : Sys :=
  let s := dispatch sc_created "G1" (CmdPlay "A" (demo_info "a") false) in
  let s := dispatch s "G1" (CmdPlay "B" (demo_info "b") false) in
  let s := resume_with (resume_with s 1 demo_answers) 1 demo_answers in
  resume_with (resume_with s 0 demo_answers) 0 demo_answers.

Lemma reachable_created : reachable sc_created.
Proof. unfold sc_created. reach_tac. Qed.

(** C13: A [play] that was awaiting when the session was destroyed still
    resumes and starts playback on the destroyed connection: the trace
    has [connection.destroy()] followed by [connection.play(...)] on the
    same object. *)
Theorem destroyed_session_plays :
  exists s st, reachable s /\
    trace (glob s) = [ECmd 0 CDestroy; ECmd 0 (CPlay st)].
Proof.
  exists sc_play_destroyed. eexists.
  split; [unfold sc_play_destroyed; reach_tac | vm_compute; reflexivity].
Qed.

(** C14: [play(A)] then [play(B)] both await the resolver; B's answers
    arrive first, then A's ([sc_two_plays]).  This interleaving is
    reachable, and it leaves A, the first-requested track, current
    although B was requested last: A's [play] read [oldTrack] before its
    await, when it was still [null], so it replaces B without any
    [TrackEndEvent]; the only effects are the two [connection.play]
    calls. *)
Theorem stale_play_wins :
  reachable sc_two_plays /\
  exists v st, heap sc_two_plays !! 0%nat = Some v /\
    option_map encoded (track (config v)) = Some "A" /\
    trace (glob sc_two_plays) = [ECmd 0 (CPlay st); ECmd 0 (CPlay st)].
Proof.
  split; [unfold sc_two_plays; reach_tac|].
  vm_compute. eauto.
Qed.

(** C16: Nothing bounds the volume: a reachable state has a session
    whose [config.volume] is 5000 and whose live stream was set to that
    volume, outside the range [0, 1000] the spec gives the volume. *)
Theorem volume_unbounded :
  exists s v, reachable s /\ heap s !! 0%nat = Some v /\
    volume (config v) = 5000 /\ trace (glob s) = [ECmd 0 (CSetVolume 5000)].
Proof.
  exists (dispatch sc_created "G1" (CmdVolume 5000)). eexists.
  split; [unfold sc_created; reach_tac|]. vm_compute. eauto.
Qed.

Lemma registry_consistent_witness :
  exists v, heap sc_created !! 0%nat = Some v /\ guildId (config v) = "G1".
Proof.
  apply (registry_consistent sc_created "G1" 0); [exact reachable_created | reflexivity].
Defined.

Lemma players_count_created_witness : playersCount (glob sc_created) = 1.
Proof. exact (players_count_created sc_created reachable_created). Defined.

