(* ===== verification/RegistrySpec.v ===== *)
(** * The contract of the registry, and its refinement

    What [client.players] and the creation counter promise, as an
    abstract machine ([AbsRegistry]): a guild without a session gets a
    fresh object, and otherwise entries are only dropped.  [abs] reads
    that state off the process of [Registry]; every step of the process
    is simulated by steps of the abstract machine, so its reachable
    states are abstract reachable states, and the facts proved of the
    contract hold of every execution of the code. *)

From S2P Require Import Prelude Model VoiceHandler Playback Registry.

Module AbsRegistry.

(** The registry ([client.players], guild to object identity) and the
    number of objects created. *)
Record St := mkSt { reg : gmap string nat; created : nat }.

Inductive astep : St -> St -> Prop :=
  | a_create a g :
      reg a !! g = None ->
      astep a (mkSt (<[g := created a]> (reg a)) (S (created a)))
  | a_release a r :
      r ⊆ reg a -> astep a (mkSt r (created a)).

Definition ainit : St := mkSt ∅ 0.

(** No step forgets an object it created or lowers the counter, and
    an entry that names an object already created was there before. *)
Lemma astep_old a a' g o :
  astep a a' -> reg a' !! g = Some o -> o < created a -> reg a !! g = Some o.
Proof.
  intros [a0 g0 Hg|a0 r Hr] Ho Hlt; cbn in *.
  - destruct (decide (g = g0)) as [->|Hne].
    + rewrite lookup_insert_eq in Ho. injection Ho as <-. lia.
    + rewrite lookup_insert_ne in Ho by congruence. exact Ho.
  - eapply lookup_weaken; eauto.
Qed.

Lemma astep_created a a' : astep a a' -> created a <= created a'.
Proof. intros []; cbn; lia. Qed.

Lemma rtc_astep_old a a' g o :
  rtc astep a a' -> reg a' !! g = Some o -> o < created a -> reg a !! g = Some o.
Proof.
  induction 1 as [|a1 a2 a3 H12 _ IH]; intros Ho Hlt; [exact Ho|].
  eapply astep_old; [exact H12| |exact Hlt].
  apply IH; [exact Ho|]. pose proof (astep_created _ _ H12). lia.
Qed.

End AbsRegistry.

Import AbsRegistry.

(** What the abstract machine sees of the process. *)
Definition abs (s : Sys) : St := mkSt (players (glob s)) (next_obj s).

Section Refinement.
Context `{NodeEnv}.

(** A handler run keeps the counter and only drops entries. *)
Lemma abs_run_on s o v p :
  guar frame (world_of s o v) p -> astep (abs s) (abs (run_on s o v p)).
Proof.
  intros Hg. destruct (run_on_frame _ _ _ _ Hg) as (w & extra & -> & (_ & _ & Hsub & _) & _).
  exact (a_release (abs s) _ Hsub).
Qed.

(** [new VoiceConnection] registered, then [setup()], which leaves
    [client.players] alone: one creation. *)
Lemma abs_create s g :
  players (glob s) !! g = None -> astep (abs s) (abs (create s g)).
Proof. intros Hg. exact (a_create (abs s) g Hg). Qed.

Lemma abs_resume s i p a :
  Inv s -> pending s !! i = Some p -> rtc astep (abs s) (abs (resume s i p a)).
Proof.
  intros HI Hi.
  assert (Hg : guarded p) by (eapply Forall_lookup_1; [apply (inv_pending _ HI) | exact Hi]).
  unfold resume. destruct (heap s !! p_obj p); [|reflexivity].
  apply rtc_once, (abs_run_on {| heap := heap s; glob := glob s; pending := delete i (pending s);
                                  next_obj := next_obj s |}), Hg.
Qed.

(** Every step of the process is matched by at most two abstract
    steps. *)
Lemma abs_step s s' : Inv s -> step s s' -> rtc astep (abs s) (abs s').
Proof.
  intros HI Hs. destruct Hs.
  - apply rtc_once, abs_create; assumption.
  - apply rtc_once, abs_run_on, guar_cmd.
  - apply rtc_once, abs_run_on, guar_ev.
  - apply rtc_once, abs_run_on, guar_interval.
  - eapply abs_resume; eauto.
  - reflexivity.
  - reflexivity.
Qed.

Lemma abs_steps s s' : Inv s -> rtc step s s' -> rtc astep (abs s) (abs s').
Proof.
  intros HI Hs. induction Hs as [|x y z Hxy _ IH]; [reflexivity|].
  etransitivity; [exact (abs_step _ _ HI Hxy)|]. apply IH. eapply inv_step; eauto.
Qed.

(** C9: The process refines the contract of the registry: every state
    reachable by the code is, read through [abs], a state the abstract
    registry reaches, and every execution from it is matched step by
    step by an abstract execution; so [client.players] gains an entry
    only when a guild without one gets a fresh object, and otherwise only
    loses entries. *)
Theorem registry_refines s :
  reachable s ->
  rtc astep ainit (abs s) /\ forall s', rtc step s s' -> rtc astep (abs s) (abs s').
Proof.
  intros Hr. split.
  - exact (abs_steps init s inv_init Hr).
  - intros s'. apply abs_steps, reachable_inv, Hr.
Qed.

(** C10: Along any execution from a reachable state, an entry of
    [client.players] naming an object that already existed at the start
    was that same entry at the start: an object dropped by [destroy] is
    never registered again, and no guild takes over another's object. *)
Theorem no_reregistration s s' g o :
  reachable s -> rtc step s s' -> players (glob s') !! g = Some o -> (o < next_obj s)%nat ->
  players (glob s) !! g = Some o.
Proof.
  intros Hr Hs. apply (rtc_astep_old (abs s) (abs s')), abs_steps; [|exact Hs].
  apply reachable_inv, Hr.
Qed.

End Refinement.

#[local] Existing Instance demo_env.

Lemma registry_refines_witness :
  rtc astep ainit (abs sc_created) /\
  forall s', rtc step sc_created s' -> rtc astep (abs sc_created) (abs s').
Proof. exact (registry_refines sc_created reachable_created). Defined.

Lemma no_reregistration_witness : players (glob sc_created) !! "G1" = Some 0%nat.
Proof.
  apply (no_reregistration sc_created sc_two_plays "G1" 0 reachable_created);
    [unfold sc_two_plays; reach_tac | vm_compute; reflexivity | vm_compute; lia].
Defined.

