(* ===== verification/Spotify.v ===== *)
(** * Spotify: the Spotify source ([src/src/sources/spotify.js])

    [init] fetches the two tokens into the module variable
    [playerInfo]; [search] and [loadFrom] ask the Spotify API, then
    start one [searchWithDefault] lookup per catalogue item with
    [items.forEach(async ...)]: the callbacks run concurrently and share
    the closure's [tracks], [index] and [shouldStop]; the callback that
    completes last rejoins the built tracks with the catalogue items and
    resolves the command's promise.

    The callbacks are [prog]s over the closure state [SpSt], with the
    track objects in a store so that the mutation of [info.position]
    through an alias is the code's.  [spawn_all] is the synchronous pass
    of [forEach], [settle] resumes the pending callbacks in a given
    completion order.  API payloads are typed views of the JSON the code
    reads ([SItem], [PItem], [Episode], [ApiData]); a field the code
    reads that may be absent is an [option], and reading through an
    absent object throws a [TypeError] as in JavaScript. *)

From S2P Require Import Prelude Model.

Local Open Scope string_scope.

(** ** Data *)

(** A track object [{ encoded, info, pluginInfo: {} }]. *)
Record LoadedTrack := {
  lt_encoded : string;
  lt_info : TrackInfo
}.

(** The result of [searchWithDefault(query)]: a [search] load with its
    tracks, or any other [loadType] (passed through as it is). *)
Inductive SearchRes :=
  | SRSearch (data : list LoadedTrack)
  | SROther (loadType : string).

(** What a command's promise resolves with; the tracks are references
    to the track objects of the store. *)
Inductive LoadResult :=
  | LEmpty
  | LError (message : string)
  | LTrack (t : LoadedTrack)
  | LForward (r : SearchRes)
  | LSearch (tracks : list nat)
  | LList (loadType : string) (name : string) (tracks : list nat).

(** [searchV2.tracksV2.items[i].item.data] *)
Record SItem := {
  si_name : string;
  si_artists : list string;            (** [artists.items[k].profile.name] *)
  si_duration : Z;                     (** [duration.totalMilliseconds] *)
  si_uri : string;
  si_external_ids : option (option string)  (** [external_ids], its [isrc] *)
}.

(** A playlist item's [track], or an album item. *)
Record PItem := {
  pi_name : string;
  pi_artists : list string;            (** [artists[k].name] *)
  pi_url : string                      (** [external_urls.spotify] *)
}.

(** An episode of a show. *)
Record Episode := {
  ep_name : string;
  ep_show_publisher : option string;   (** [show.publisher]; [None]: no [show] *)
  ep_publisher : option string;        (** [publisher] *)
  ep_url : string;
  ep_images : list string;             (** [images[k].url] *)
  ep_external_ids : option (option string)
}.

(** The Spotify module's configuration and its synchronous helpers. *)
Class SpotifyEnv := {
  encodeTrack : TrackInfo -> string;
  maxResultsLength : nat;
  maxAlbumPlaylistLength : nat;
  market : string
}.

(** ** The closure of a fan-out *)

#[projections(primitive)]
Record SpSt := {
  sp_store : list LoadedTrack;   (** the track objects built, by reference *)
  sp_tracks : list nat;          (** [tracks] *)
  sp_index : nat;                (** [index] *)
  sp_stop : bool;                (** [shouldStop] *)
  sp_resolved : option LoadResult  (** the promise, once resolved *)
}.

Definition sp_init : SpSt :=
  {| sp_store := []; sp_tracks := []; sp_index := 0; sp_stop := false; sp_resolved := None |}.

(** [data.error] of an API answer. *)
Record ApiError := {
  err_status : Z;
  err_message : string
}.

(** The payload of [api.spotify.com/v1<endpoint>], as the case of
    [type[1]] reads it; [DNone] is a payload without those fields. *)
Inductive ApiData :=
  | DTrack (name : string) (artists : list string) (url : string)
      (album_images : list string) (external_ids : option (option string))
  | DEpisode (name : string) (show_publisher : option string) (url : string)
      (images : list string) (external_ids : option (option string))
  (** a playlist ([items[k].track]) or an album ([items[k]]) *)
  | DList (name : string) (items : list (option PItem))
  | DShow (name : string) (episodes : list Episode)
  | DNone.

Record ApiResp := {
  api_error : option ApiError;
  api_data : ApiData
}.

(** What the code awaits: [searchWithDefault(query)] and
    [makeRequest('https://api.spotify.com/v1' + endpoint)]. *)
Inductive SQuery :=
  | QSearchDefault (query : string)
  | QApi (endpoint : string).

Definition SAnswer (q : SQuery) : Type :=
  match q with
  | QSearchDefault _ => SearchRes
  | QApi _ => ApiResp
  end.

Local Abbreviation C := (prog SpSt SQuery SAnswer).

Definition set_store (l : list LoadedTrack) (s : SpSt) : SpSt :=
  {| sp_store := l; sp_tracks := sp_tracks s; sp_index := sp_index s;
     sp_stop := sp_stop s; sp_resolved := sp_resolved s |}.
Definition set_tracks (l : list nat) (s : SpSt) : SpSt :=
  {| sp_store := sp_store s; sp_tracks := l; sp_index := sp_index s;
     sp_stop := sp_stop s; sp_resolved := sp_resolved s |}.
Definition set_index (n : nat) (s : SpSt) : SpSt :=
  {| sp_store := sp_store s; sp_tracks := sp_tracks s; sp_index := n;
     sp_stop := sp_stop s; sp_resolved := sp_resolved s |}.
Definition set_stop (b : bool) (s : SpSt) : SpSt :=
  {| sp_store := sp_store s; sp_tracks := sp_tracks s; sp_index := sp_index s;
     sp_stop := b; sp_resolved := sp_resolved s |}.

(** [resolve(r)]: the first call settles the promise, later ones do
    nothing. *)
Definition resolve_f (r : LoadResult) (s : SpSt) : SpSt :=
  match sp_resolved s with
  | Some _ => s
  | None => {| sp_store := sp_store s; sp_tracks := sp_tracks s; sp_index := sp_index s;
               sp_stop := sp_stop s; sp_resolved := Some r |}
  end.

Definition resolve (r : LoadResult) : C unit := modify (resolve_f r).

(** [tracks.push({ encoded: encodeTrack(track), info: track, pluginInfo: {} })]:
    a fresh object. *)
Definition push_track `{SpotifyEnv} (t : TrackInfo) : C unit :=
  modify (fun s => set_tracks (sp_tracks s ++ [length (sp_store s)])
                     (set_store (sp_store s ++ [{| lt_encoded := encodeTrack t; lt_info := t |}]) s)).

(** [a[i]] read further: [undefined.x] throws. *)
Definition nth_or_throw {A} (l : list A) (i : nat) : C A :=
  match l !! i with
  | Some a => mret a
  | None => throw (TypeError "Cannot read properties of undefined")
  end.

(** [o.x] on an object that may be absent. *)
Definition some_or_throw {A} (o : option A) : C A :=
  match o with
  | Some a => mret a
  | None => throw (TypeError "Cannot read properties of undefined")
  end.

(** [names.join(', ')] *)
Definition join_names (l : list string) : string := String.concat ", " l.

(** [track2.info.position = i], through the reference [r]. *)
Definition set_info_position (p : Z) (t : TrackInfo) : TrackInfo :=
  {| identifier := identifier t; isSeekable := isSeekable t; author := author t;
     info_length := info_length t; isStream := isStream t; position := p;
     title := title t; uri := uri t; artworkUrl := artworkUrl t; isrc := isrc t;
     sourceName := sourceName t |}.

Definition with_position (i : nat) (lt : LoadedTrack) : LoadedTrack :=
  {| lt_encoded := lt_encoded lt; lt_info := set_info_position (Z.of_nat i) (lt_info lt) |}.

Definition set_position (r i : nat) : C unit :=
  modify (fun s => set_store (alter (with_position i) r (sp_store s)) s).

(** ** The rejoin of a fan-out

    The last callback to complete walks the catalogue items
    ([index2]) and, for each, the built tracks ([index3]); a track that
    matches the item gets [position = index2] and is pushed to
    [new_tracks]; at the last pair the promise is resolved with
    [new_tracks].  [stoppable] is the [if (shouldStop) return] of
    [loadFrom] ([search] has none). *)
Section Join.
Context {I : Type} (matches : TrackInfo -> I -> C bool) (stoppable : bool)
  (n : nat) (mk : list nat -> LoadResult).

Fixpoint join_inner (it : I) (index2 : nat) (refs : list nat) (index3 ntracks : nat)
    (acc : list nat) : C (list nat) :=
  match refs with
  | [] => mret acc
  | r :: rest =>
      s ← get;
      if stoppable && sp_stop s then join_inner it index2 rest (S index3) ntracks acc
      else
        t ← some_or_throw (sp_store s !! r);
        b ← matches (lt_info t) it;
        acc' ← (if (b : bool) then (set_position r index2;; mret (acc ++ [r])%list) else mret acc);
        when (Nat.eqb index2 (n - 1) && Nat.eqb index3 (ntracks - 1))
          (when stoppable (modify (set_stop true));; resolve (mk acc'));;
        join_inner it index2 rest (S index3) ntracks acc'
  end.

Fixpoint join_outer (items : list I) (index2 : nat) (refs : list nat) (acc : list nat) :
    C (list nat) :=
  match items with
  | [] => mret acc
  | it :: rest =>
      acc' ← join_inner it index2 refs 0 (length refs) acc;
      join_outer rest (S index2) refs acc'
  end.

(** The end of every callback (lines 150-176, 358-396, 434-472): the
    callback that sees [index == items.length - 1] resolves [empty] (and
    returns) when no track was built, and rejoins otherwise; [index++]. *)
Definition cb_tail (items : list I) : C unit :=
  s ← get;
  if Nat.eqb (sp_index s) (length items - 1) then
    if Nat.eqb (length (sp_tracks s)) 0 then resolve LEmpty
    else
      _ ← join_outer items 0 (sp_tracks s) [];
      modify (fun s => set_index (S (sp_index s)) s)
  else modify (fun s => set_index (S (sp_index s)) s).

End Join.

(** ** The fan-out driver *)

(** A callback awaiting its lookup. *)
Record Pend := mkPend {
  pd_q : SQuery;
  pd_k : SAnswer pd_q -> C unit
}.

(** The synchronous pass of [items.forEach(async cb)]: each callback
    runs until its first [await], and waits under its item position; one
    that throws is dropped (its promise rejects unobserved), with the
    changes it made kept. *)
Fixpoint spawn_all (cbs : list (C unit)) (i : nat) (s : SpSt) : SpSt * gmap nat Pend :=
  match cbs with
  | [] => (s, ∅)
  | c :: rest =>
      match exec c s with
      | Done _ s' | Failed _ s' => spawn_all rest (S i) s'
      | Blocked q k s' => let '(s'', ps) := spawn_all rest (S i) s' in (s'', <[i := mkPend q k]> ps)
      end
  end.

(** The lookups complete in the order [order] (item positions); each
    resumed callback runs to its end, or to its next [await]. *)
Fixpoint settle (o : forall q, SAnswer q) (order : list nat) (ps : gmap nat Pend) (s : SpSt) :
    SpSt * gmap nat Pend :=
  match order with
  | [] => (s, ps)
  | i :: rest =>
      match ps !! i with
      | None => settle o rest ps s
      | Some p =>
          match exec (pd_k p (o (pd_q p))) s with
          | Done _ s' | Failed _ s' => settle o rest (delete i ps) s'
          | Blocked q k s' => settle o rest (<[i := mkPend q k]> ps) s'
          end
      end
  end.

(** The closure after the fan-out of [cbs] from [s] completed in [order]. *)
Definition fan_out (o : forall q, SAnswer q) (order : list nat) (cbs : list (C unit)) (s : SpSt) :
    SpSt :=
  let '(s1, ps) := spawn_all cbs 0 s in fst (settle o order ps s1).

(** ** [search(query)] (lines 65-181) *)

(** The answer of the [searchDesktop] request: [tracksV2.totalCount]
    and [tracksV2.items] (an item may be [null]). *)
Record SearchResp := {
  totalCount : Z;
  sr_items : list (option SItem)
}.

Section Search.
Context `{SpotifyEnv}.

(** The track built from item [d] and the first result of its lookup
    (lines 128-140). *)
Definition search_track (d : SItem) (first : TrackInfo) (isrc0 : option string) : TrackInfo :=
  {| identifier := identifier first; isSeekable := true; author := join_names (si_artists d);
     info_length := si_duration d; isStream := false; position := 0; title := si_name d;
     uri := si_uri d; artworkUrl := artworkUrl first; isrc := isrc0; sourceName := "spotify" |}.

(** Lines 122-148: the lookup of a non-null item and the push of its
    track. *)
Definition search_body (it : option SItem) : C unit :=
  match it with
  | None => mret tt
  | Some d =>
      a0 ← nth_or_throw (si_artists d) 0;
      r ← await (QSearchDefault (si_name d +:+ " " +:+ a0));
      match r with
      | SRSearch l =>
          t0 ← nth_or_throw l 0;
          ids ← some_or_throw (si_external_ids d);
          push_track (search_track d (lt_info t0) ids)
      | SROther _ => mret tt
      end
  end.

(** Line 160: the item [items2] (read through [items2.item.data]) and
    the track have the same title and the same artists. *)
Definition search_matches (t : TrackInfo) (it2 : option SItem) : C bool :=
  d ← some_or_throw it2;
  mret (String.eqb (title t) (si_name d) && String.eqb (author t) (join_names (si_artists d))).

(** The callback of line 121, on the truncated item list [items]. *)
Definition search_cb (items : list (option SItem)) (it : option SItem) : C unit :=
  search_body it;;
  cb_tail search_matches false (length items) LSearch items.

(** Lines 109-121 once the token is there: [empty] when nothing
    matched, otherwise the callbacks on the first [maxResultsLength]
    items. *)
Definition search_main (resp : SearchResp) : C (list (C unit)) :=
  if Z.eqb (totalCount resp) 0 then resolve LEmpty;; mret []
  else
    let items := take maxResultsLength (sr_items resp) in
    mret (map (search_cb items) items).

(** The promise's outcome, the lookups completing in [order]. *)
Definition search_run (o : forall q, SAnswer q) (order : list nat) (resp : SearchResp) : SpSt :=
  match exec (search_main resp) sp_init with
  | Done cbs s => fan_out o order cbs s
  | Failed _ s | Blocked _ _ s => s
  end.

End Search.

(** ** [loadFrom(query, type)] (lines 183-479) *)

Section LoadFrom.
Context `{SpotifyEnv}.

(** [switch (type[1])] (lines 187-211): the API path, [None] for the
    [default] case, which resolves [empty]. *)
Definition endpoint (type1 type2 : string) : option string :=
  if String.eqb type1 "track" then Some ("/tracks/" +:+ type2)
  else if String.eqb type1 "playlist" then Some ("/playlists/" +:+ type2)
  else if String.eqb type1 "album" then Some ("/albums/" +:+ type2)
  else if String.eqb type1 "episode" then Some ("/episodes/" +:+ type2 +:+ "?market=" +:+ market)
  else if String.eqb type1 "show" then Some ("/shows/" +:+ type2 +:+ "?market=" +:+ market)
  else None.

(** Lines 222-251: an error answer.  [setSpotifyToken] is bound nowhere
    in the module, so the 401 branch throws a [ReferenceError]. *)
Definition on_api_error (e : ApiError) : C (list (C unit)) :=
  when (Z.eqb (err_status e) 401) (throw (ReferenceError "setSpotifyToken"));;
  if Z.eqb (err_status e) 400 then resolve LEmpty;; mret []
  else if String.eqb (err_message e) "Invalid playlist Id" then resolve LEmpty;; mret []
  else resolve (LError (err_message e));; mret [].

(** The track of an album or playlist item (lines 336-348). *)
Definition list_track (p : PItem) (a0 : string) (first : TrackInfo) : TrackInfo :=
  {| identifier := identifier first; isSeekable := true; author := a0;
     info_length := info_length first; isStream := false; position := 0;
     title := pi_name p; uri := pi_url p; artworkUrl := artworkUrl first; isrc := None;
     sourceName := "spotify" |}.

(** Lines 330-356: the lookup of an item whose [track] (playlist) or
    itself (album) is not [null]. *)
Definition list_body (it : option PItem) : C unit :=
  match it with
  | None => mret tt
  | Some p =>
      a0 ← nth_or_throw (pi_artists p) 0;
      r ← await (QSearchDefault (pi_name p +:+ " " +:+ a0));
      match r with
      | SRSearch l => t0 ← nth_or_throw l 0; push_track (list_track p a0 (lt_info t0))
      | SROther _ => mret tt
      end
  end.

(** Line 370: same title, and same first artist (read only when the
    titles are equal). *)
Definition list_matches (t : TrackInfo) (it2 : option PItem) : C bool :=
  p ← some_or_throw it2;
  if String.eqb (title t) (pi_name p) then
    a ← nth_or_throw (pi_artists p) 0; mret (String.eqb (author t) a)
  else mret false.

Definition list_cb (type1 name : string) (items : list (option PItem)) (it : option PItem) :
    C unit :=
  list_body it;;
  cb_tail list_matches true (length items) (LList type1 name) items.

(** The track of an episode (lines 413-425). *)
Definition episode_track (e : Episode) (pub img : string) (isrc0 : option string)
    (first : TrackInfo) : TrackInfo :=
  {| identifier := identifier first; isSeekable := true; author := pub;
     info_length := info_length first; isStream := false; position := 0;
     title := ep_name e; uri := ep_url e; artworkUrl := Some img; isrc := isrc0;
     sourceName := "spotify" |}.

(** Lines 410-432. *)
Definition show_body (e : Episode) : C unit :=
  pub ← some_or_throw (ep_show_publisher e);
  r ← await (QSearchDefault (ep_name e +:+ " " +:+ pub));
  match r with
  | SRSearch l =>
      t0 ← nth_or_throw l 0;
      img ← nth_or_throw (ep_images e) 0;
      ids ← some_or_throw (ep_external_ids e);
      push_track (episode_track e pub img ids (lt_info t0))
  | SROther _ => mret tt
  end.

(** Line 446: the title against [episode2.name] and the author against
    [episode2.publisher]; a string is never [==] to [undefined]. *)
Definition show_matches (t : TrackInfo) (e2 : Episode) : C bool :=
  mret (String.eqb (title t) (ep_name e2) &&
        match ep_publisher e2 with Some p => String.eqb (author t) p | None => false end).

Definition show_cb (name : string) (eps : list Episode) (e : Episode) : C unit :=
  show_body e;;
  cb_tail show_matches true (length eps) (LList "show" name) eps.

(** The double quote character, ASCII 34. *)
Definition dq : string := String (Ascii.ascii_of_nat 34) EmptyString.

(** The track of a [track] answer (lines 255-283). *)
Definition track_track (name a0 url img : string) (isrc0 : option string) (first : TrackInfo) :
    TrackInfo :=
  {| identifier := identifier first; isSeekable := true; author := a0;
     info_length := info_length first; isStream := false; position := 0;
     title := name; uri := url; artworkUrl := Some img; isrc := isrc0;
     sourceName := "spotify" |}.

(** [switch (type[1])] on the answer (lines 253-477): a single track is
    resolved after its lookup; a list or a show starts the fan-out,
    returned as its callbacks.  An answer without the fields the case
    reads throws a [TypeError]. *)
Definition load_case (type1 : string) (data : ApiData) : C (list (C unit)) :=
  match data with
  | DTrack name artists url images ext =>
      if String.eqb type1 "track" then
        a0 ← nth_or_throw artists 0;
        r ← await (QSearchDefault (dq +:+ name +:+ " " +:+ a0 +:+ dq));
        match r with
        | SROther _ => resolve (LForward r);; mret []
        | SRSearch l =>
            t0 ← nth_or_throw l 0;
            img ← nth_or_throw images 0;
            ids ← some_or_throw ext;
            let t := track_track name a0 url img ids (lt_info t0) in
            resolve (LTrack {| lt_encoded := encodeTrack t; lt_info := t |});; mret []
        end
      else throw (TypeError "Cannot read properties of undefined")
  | DEpisode name pub url images ext =>
      if String.eqb type1 "episode" then
        p ← some_or_throw pub;
        r ← await (QSearchDefault (dq +:+ name +:+ " " +:+ p +:+ dq));
        match r with
        | SROther _ => resolve (LForward r);; mret []
        | SRSearch l =>
            t0 ← nth_or_throw l 0;
            img ← nth_or_throw images 0;
            ids ← some_or_throw ext;
            let t := track_track name p url img ids (lt_info t0) in
            resolve (LTrack {| lt_encoded := encodeTrack t; lt_info := t |});; mret []
        end
      else throw (TypeError "Cannot read properties of undefined")
  | DList name items =>
      if String.eqb type1 "playlist" || String.eqb type1 "album" then
        let items := take maxAlbumPlaylistLength items in
        mret (map (list_cb type1 name items) items)
      else throw (TypeError "Cannot read properties of undefined")
  | DShow name eps =>
      if String.eqb type1 "show" then
        let eps := take maxAlbumPlaylistLength eps in
        mret (map (show_cb name eps) eps)
      else throw (TypeError "Cannot read properties of undefined")
  | DNone => throw (TypeError "Cannot read properties of undefined")
  end.

(** The executor of [loadFrom]'s promise up to the fan-out. *)
Definition loadFrom_main (type1 type2 : string) : C (list (C unit)) :=
  match endpoint type1 type2 with
  | None => resolve LEmpty;; mret []
  | Some ep =>
      data ← await (QApi ep);
      match api_error data with
      | Some e => on_api_error e
      | None => load_case type1 (api_data data)
      end
  end.

(** The promise's outcome: the requests answered by [o], the lookups of
    the fan-out completing in [order]. *)
Definition loadFrom_run (o : forall q, SAnswer q) (order : list nat) (type1 type2 : string) :
    SpSt :=
  match run o (loadFrom_main type1 type2) sp_init with
  | RDone cbs s => fan_out o order cbs s
  | RFailed _ s => s
  end.

End LoadFrom.

(** ** [init()] (lines 10-63) and the token wait of [search] *)

(** The module variable [playerInfo]. *)
Record PlayerInfo := {
  accessToken : option string;
  clientToken : option string
}.

(** The answer of [get_access_token]: not an object (a failed request),
    [null], or an object with its [accessToken]. *)
Inductive TokenResp := TokNotObject | TokNull | TokObject (accessToken : option string).

(** The answer of [clienttoken]: its [response_type] and its
    [granted_token], with the [token] inside. *)
Inductive ClientResp :=
  | CliNotObject
  | CliNull
  | CliObject (response_type : string) (granted_token : option (option string)).

Inductive IQuery := QAccessToken | QClientToken.

Definition IAnswer (q : IQuery) : Type :=
  match q with QAccessToken => TokenResp | QClientToken => ClientResp end.

(** [typeof v != 'object'] ([typeof null] is ['object']). *)
Definition tok_not_object (t : TokenResp) : bool :=
  match t with TokNotObject => true | _ => false end.
Definition cli_not_object (c : ClientResp) : bool :=
  match c with CliNotObject => true | _ => false end.

Definition init : prog PlayerInfo IQuery IAnswer unit :=
  token ← await QAccessToken;
  if tok_not_object token then mret tt
  else
    data ← await QClientToken;
    if cli_not_object data then mret tt
    else
      rt ← (match data with
            | CliObject rt _ => mret rt
            | _ => throw (TypeError "Cannot read properties of null (reading 'response_type')")
            end);
      if negb (String.eqb rt "RESPONSE_GRANTED_TOKEN_RESPONSE") then mret tt
      else
        a ← (match token with
             | TokObject a => mret a
             | _ => throw (TypeError "Cannot read properties of null (reading 'accessToken')")
             end);
        c ← (match data with
             | CliObject _ (Some c) => mret c
             | _ => throw (TypeError "Cannot read properties of undefined (reading 'token')")
             end);
        put {| accessToken := a; clientToken := c |}.

(** [!!playerInfo.accessToken]: a non-empty string. *)
Definition has_token (pi : PlayerInfo) : bool :=
  match accessToken pi with Some a => negb (String.eqb a "") | None => false end.

(** Lines 67-71: [while (1) { if (playerInfo.accessToken) break;
    sleep(200) }].  [sleep] is not awaited, so an iteration never yields
    to the event loop: nothing else runs, and [playerInfo] cannot change
    while the loop spins.  [fuel] bounds the iterations; [None] is a
    loop still spinning. *)
Fixpoint token_loop (fuel : nat) (pi : PlayerInfo) : option unit :=
  match fuel with
  | 0 => None
  | S f => if has_token pi then Some tt else token_loop f pi
  end.

(** [if (!playerInfo.accessToken) while (1) ...] *)
Definition token_wait (fuel : nat) (pi : PlayerInfo) : option unit :=
  if has_token pi then Some tt else token_loop fuel pi.
