(* ===== verification/FanOut.v ===== *)
(** * FanOut: the fan-out of [spotify.js] and its rejoin

    [search] and [loadFrom] share one pattern: one [searchWithDefault]
    lookup per catalogue item, started by [items.forEach(async ...)];
    each callback pushes the track it built, and the callback that
    completes last rejoins the tracks with the items ([cb_tail],
    [join_outer], [join_inner]).  This file proves what that pattern
    computes, once for all its uses:
    - the rejoin as a function of the store ([join_outer_exec],
      [join_pure]) and, when each item matches exactly one track, the
      references it collects and the positions it writes
      ([join_pure_unique], [marks_lookup]);
    - the interface [FanOut] a kind of item provides (its callback body,
      its rejoin test, the track it builds, its key) with its laws, and
      the instances of [search] ([search_fan_out]) and of playlists and
      albums ([list_fan_out]);
    - for every instance, every completion order of the lookups and
      well-formed answers with distinct keys, the promise resolves with
      the tracks in catalogue order, the [j]-th at position [j]
      ([fan_out_order]);
    - that a fan-out whose callbacks all keep a relation keeps it
      ([fan_out_guar]). *)

From S2P Require Import Prelude Model Spotify.

Local Open Scope string_scope.

Local Abbreviation C := (prog SpSt SQuery SAnswer).

(** ** Execution of the primitives *)

Lemma sp_store_set_store l s : sp_store (set_store l s) = l.
Proof. reflexivity. Qed.

Lemma exec_set_position r i s :
  exec (set_position r i : C unit) s = Done tt (set_store (alter (with_position i) r (sp_store s)) s).
Proof. reflexivity. Qed.

Lemma exec_resolve x s : exec (resolve x : C unit) s = Done tt (resolve_f x s).
Proof. reflexivity. Qed.

Lemma alter_is_Some {A} (g : A -> A) (st : list A) r r' :
  is_Some (alter g r st !! r') <-> is_Some (st !! r').
Proof.
  rewrite list_lookup_alter. case_decide; [|reflexivity]. subst.
  destruct (st !! r'); cbn; intuition (try discriminate; eauto).
Qed.

(** [xsimp] executes the straight-line part of a callback: it pushes
    [exec] through binds and the primitives of the closure. *)
Ltac xsimp :=
  repeat (rewrite ?exec_bind, ?exec_get, ?exec_ret, ?exec_modify, ?exec_set_position,
            ?exec_resolve; cbv beta iota).

(** ** The rejoin as a function of the store *)

Section JoinSpec.
Context {I : Type} (matches : TrackInfo -> I -> C bool) (f : TrackInfo -> I -> bool)
  (stoppable : bool) (n : nat) (mk : list nat -> LoadResult).

(** The references in [refs] whose object in [st] matches [it]. *)
Definition matching (st : list LoadedTrack) (it : I) (refs : list nat) : list nat :=
  List.filter (fun r => match st !! r with Some t => f (lt_info t) it | None => false end) refs.

(** [position = i] written through each reference of [M]. *)
Definition mark (st : list LoadedTrack) (M : list nat) (i : nat) : list LoadedTrack :=
  fold_left (fun st r => alter (with_position i) r st) M st.

(** The state after the last pair of the rejoin. *)
Definition join_end (acc : list nat) (s : SpSt) : SpSt :=
  resolve_f (mk acc) (if stoppable then set_stop true s else s).

Lemma join_end_store acc s : sp_store (join_end acc s) = sp_store s.
Proof. unfold join_end, resolve_f. destruct stoppable, (sp_resolved _); reflexivity. Qed.

(** Matching reads the title and the author, never the position. *)
Hypothesis f_position : forall p t it, f (set_info_position p t) it = f t it.

Lemma matching_alter st it refs r i :
  matching (alter (with_position i) r st) it refs = matching st it refs.
Proof.
  unfold matching. apply List.filter_ext. intros r'.
  rewrite list_lookup_alter. case_decide; [subst r'|reflexivity].
  destruct (st !! r); [exact (f_position _ _ _) | reflexivity].
Qed.

Lemma matching_cons st it r rest :
  matching st it (r :: rest) =
  if match st !! r with Some t => f (lt_info t) it | None => false end
  then r :: matching st it rest else matching st it rest.
Proof. reflexivity. Qed.

Lemma join_inner_exec it i2 refs k ntr acc s :
  (forall t s, exec (matches t it) s = Done (f t it) s) ->
  Forall (fun r => is_Some (sp_store s !! r)) refs ->
  stoppable && sp_stop s = false ->
  k + length refs = ntr ->
  exec (join_inner matches stoppable n mk it i2 refs k ntr acc) s =
  (let M := matching (sp_store s) it refs in
   let s1 := set_store (mark (sp_store s) M i2) s in
   Done (acc ++ M)%list
     (if Nat.eqb i2 (n - 1) && negb (Nat.eqb (length refs) 0) then join_end (acc ++ M)%list s1 else s1)).
Proof.
  intros Hm. revert k acc s.
  induction refs as [|r rest IH]; intros k acc s Hs Hstop Hk.
  - cbn. rewrite app_nil_r, andb_false_r. reflexivity.
  - apply Forall_cons in Hs as [[t Ht] Hs]. cbn [join_inner].
    rewrite exec_bind, exec_get. cbv beta iota. rewrite Hstop, exec_bind, Ht. cbn [some_or_throw].
    rewrite exec_ret, exec_bind, Hm.
    assert (Hk' : (k =? ntr - 1)%nat = (length rest =? 0)%nat).
    { cbn in Hk. apply Bool.eq_iff_eq_true. rewrite !Nat.eqb_eq. lia. }
    rewrite Hk', matching_cons, Ht. cbv zeta.
    destruct (f (lt_info t) it) eqn:Hf; xsimp;
      (destruct rest as [|r' rest']; cbn [length Nat.eqb negb];
       [ rewrite ?andb_true_r; destruct (i2 =? n - 1)%nat; cbn -[join_end];
         [unfold join_end; destruct stoppable; xsimp; cbn; rewrite ?app_nil_r; reflexivity | rewrite ?app_nil_r; reflexivity]
       | rewrite ?andb_false_r, exec_when_false, IH; cbv zeta;
         [ rewrite ?sp_store_set_store, ?matching_alter, <- ?app_assoc; reflexivity
         | first [exact Hs | eapply Forall_impl; [exact Hs | intros; apply alter_is_Some; assumption]]
         | exact Hstop
         | cbn in *; lia ]]).
Qed.

(** The rejoin of [items] (from position [i2]) against [refs], as a
    function: the references pushed to [new_tracks] and the store with
    the positions written. *)
Fixpoint join_pure (items : list I) (i2 : nat) (refs : list nat) (st : list LoadedTrack) :
    list nat * list LoadedTrack :=
  match items with
  | [] => ([], st)
  | it :: rest =>
      let M := matching st it refs in
      let '(M', st') := join_pure rest (S i2) refs (mark st M i2) in
      ((M ++ M')%list, st')
  end.

Lemma mark_is_Some st M i r : is_Some (mark st M i !! r) <-> is_Some (st !! r).
Proof.
  revert st. induction M as [|r' M IH]; intros st; [reflexivity|].
  etransitivity; [apply (IH (alter (with_position i) r' st)) | apply alter_is_Some].
Qed.

Lemma matching_mark st M i it refs : matching (mark st M i) it refs = matching st it refs.
Proof.
  revert st. induction M as [|r' M IH]; intros st; [reflexivity|].
  etransitivity; [apply (IH (alter (with_position i) r' st)) | apply matching_alter].
Qed.

(** The rejoin of the last [length items] items, [matches] being [f]
    on each of them and every reference valid: it resolves, at its last
    pair, with every reference [join_pure] collects. *)
Lemma join_outer_exec items i2 refs acc s :
  Forall (fun it => forall t s, exec (matches t it) s = Done (f t it) s) items ->
  Forall (fun r => is_Some (sp_store s !! r)) refs ->
  stoppable && sp_stop s = false ->
  i2 + length items = n -> items <> [] -> refs <> [] ->
  exec (join_outer matches stoppable n mk items i2 refs acc) s =
  let '(M, st) := join_pure items i2 refs (sp_store s) in
  Done (acc ++ M)%list (join_end (acc ++ M)%list (set_store st s)).
Proof.
  intros Hm. revert i2 acc s.
  induction items as [|it rest IH]; intros i2 acc s Hs Hstop Hn Hne Hr; [done|].
  apply Forall_cons in Hm as [Hit Hm]. cbn [join_outer join_pure].
  rewrite exec_bind, join_inner_exec by (done || lia). cbv zeta.
  destruct rest as [|it' rest'].
  - cbn in Hn. rewrite (proj2 (Nat.eqb_eq _ _)) by lia.
    destruct refs; [done|]. cbn. rewrite !app_nil_r. reflexivity.
  - cbn in Hn. rewrite (proj2 (Nat.eqb_neq _ _)) by lia. cbn [andb].
    rewrite IH; [|done| |done|cbn; lia|done|done].
    + rewrite ?sp_store_set_store.
      destruct (join_pure _ _ _ _). rewrite app_assoc. reflexivity.
    + eapply Forall_impl; [exact Hs|]. intros r Hr'. apply mark_is_Some, Hr'.
Qed.

(** [position = j] written through [g j], for [j] from [i2], [len] times. *)
Definition marks (st : list LoadedTrack) (g : nat -> nat) (i2 len : nat) : list LoadedTrack :=
  fold_left (fun st j => alter (with_position j) (g j) st) (seq i2 len) st.

(** When item [j] matches exactly the reference [g j], the rejoin
    collects [g] over the items, in their order. *)
Lemma join_pure_unique items i2 refs st g :
  (forall j it, items !! j = Some it -> matching st it refs = [g (i2 + j)]) ->
  join_pure items i2 refs st = (g <$> seq i2 (length items), marks st g i2 (length items)).
Proof.
  revert i2 st. induction items as [|it rest IH]; intros i2 st Hu; [reflexivity|].
  cbn [join_pure]. rewrite (Hu 0 it), Nat.add_0_r by reflexivity.
  rewrite IH.
  - reflexivity.
  - intros j it' Hj. rewrite matching_mark, (Hu (S j) it') by exact Hj.
    f_equal. f_equal. lia.
Qed.

Lemma marks_S st g i2 len :
  marks st g i2 (S len) = marks (alter (with_position i2) (g i2) st) g (S i2) len.
Proof. reflexivity. Qed.

Lemma marks_lookup_ne st g i2 len r :
  (forall k, i2 <= k < i2 + len -> g k <> r) -> marks st g i2 len !! r = st !! r.
Proof.
  revert i2 st. induction len as [|len IH]; intros i2 st Hne; [reflexivity|].
  rewrite marks_S, IH by (intros k Hk; apply Hne; lia).
  apply list_lookup_alter_ne, Hne. lia.
Qed.

Lemma marks_lookup st g i2 len j :
  (forall a b, i2 <= a < i2 + len -> i2 <= b < i2 + len -> g a = g b -> a = b) ->
  i2 <= j < i2 + len ->
  marks st g i2 len !! g j = with_position j <$> st !! g j.
Proof.
  revert i2 st. induction len as [|len IH]; intros i2 st Hinj Hj; [lia|].
  rewrite marks_S. destruct (decide (j = i2)) as [->|Hne].
  - rewrite marks_lookup_ne; [|intros k Hk E; apply Hinj in E; lia].
    rewrite list_lookup_alter. case_decide; done.
  - rewrite IH; [| intros a b Ha Hb; apply Hinj; lia | lia].
    rewrite list_lookup_alter_ne; [reflexivity|].
    intros E. apply Hinj in E; lia.
Qed.

End JoinSpec.

(** ** The rejoin never awaits *)

Section JoinTotal.
Context {I : Type} (matches : TrackInfo -> I -> C bool) (stoppable : bool)
  (n : nat) (mk : list nat -> LoadResult).
Hypothesis Hm : forall t it, nonblocking (matches t it).

Lemma join_inner_nonblocking it index2 refs index3 ntracks acc :
  nonblocking (join_inner matches stoppable n mk it index2 refs index3 ntracks acc).
Proof.
  revert index3 acc. induction refs as [|r refs IH]; intros index3 acc; cbn [join_inner];
    [auto with nodelink|].
  unfold some_or_throw, set_position, resolve. nb_tac.
Qed.

#[local] Hint Resolve join_inner_nonblocking : nodelink.

Lemma join_outer_nonblocking items index2 refs acc :
  nonblocking (join_outer matches stoppable n mk items index2 refs acc).
Proof.
  revert index2 acc. induction items as [|it items IH]; intros index2 acc; cbn [join_outer]; nb_tac.
Qed.

#[local] Hint Resolve join_outer_nonblocking : nodelink.

Lemma cb_tail_nonblocking items : nonblocking (cb_tail matches stoppable n mk items).
Proof. unfold cb_tail, resolve. nb_tac. Qed.

End JoinTotal.


(** The position of [j] in a completion order. *)
Fixpoint index_of (l : list nat) (j : nat) : nat :=
  match l with
  | [] => 0
  | x :: r => if Nat.eqb x j then 0 else S (index_of r j)
  end.

Lemma index_of_lookup l j : j ∈ l -> l !! index_of l j = Some j.
Proof.
  induction l as [|x r IH]; intros Hj; [inversion Hj|]. cbn.
  destruct (Nat.eqb_spec x j) as [->|Hne]; [reflexivity|].
  apply IH. inversion Hj; subst; [congruence|assumption].
Qed.

Lemma index_of_unique l j r : NoDup l -> l !! r = Some j -> index_of l j = r.
Proof.
  intros Hnd Hr. eapply NoDup_lookup; [exact Hnd| |exact Hr].
  apply index_of_lookup. eapply list_elem_of_lookup_2, Hr.
Qed.

Lemma filter_seq_eqb_nil x a m :
  x < a -> List.filter (fun r => Nat.eqb r x) (seq a m) = [].
Proof.
  revert a. induction m as [|m IH]; intros a Hx; [reflexivity|]. cbn.
  rewrite (proj2 (Nat.eqb_neq _ _)) by lia. apply IH. lia.
Qed.

Lemma filter_seq_eqb x a m :
  a <= x < a + m -> List.filter (fun r => Nat.eqb r x) (seq a m) = [x].
Proof.
  revert a. induction m as [|m IH]; intros a Hx; [lia|]. cbn.
  destruct (Nat.eqb_spec a x) as [->|Hne].
  - rewrite filter_seq_eqb_nil by lia. reflexivity.
  - apply IH. lia.
Qed.

(** ** Track objects and keys *)

Definition mkLT `{SpotifyEnv} (ti : TrackInfo) : LoadedTrack :=
  {| lt_encoded := encodeTrack ti; lt_info := ti |}.

#[export] Instance TrackInfo_inhabited : Inhabited TrackInfo :=
  populate {| identifier := ""; isSeekable := false; author := ""; info_length := 0;
              isStream := false; position := 0; title := ""; uri := ""; artworkUrl := None;
              isrc := None; sourceName := "" |}.

(** The title and the artists of a track: what the rejoin compares. *)
Definition track_key (ti : TrackInfo) : string * string := (title ti, author ti).

Definition key_eqb (a b : string * string) : bool :=
  String.eqb (fst a) (fst b) && String.eqb (snd a) (snd b).

Lemma key_eqb_spec a b : key_eqb a b = true <-> a = b.
Proof.
  destruct a as [a1 a2], b as [b1 b2]. unfold key_eqb. cbn.
  rewrite andb_true_iff, !String.eqb_eq. split; [intros [-> ->]; reflexivity | intros [= -> ->]; auto].
Qed.

(** ** The interface of a kind of catalogue item *)

(** What the body of a callback does, with the answers of its lookup:
    it pushes a track, it completes without one ([null] item, a lookup
    of another [loadType]), or it throws (a read on [undefined]). *)
Inductive CbOutcome := CbBuilt (ti : TrackInfo) | CbSkipped | CbThrows.

Definition outcome_track (r : CbOutcome) : option TrackInfo :=
  match r with CbBuilt ti => Some ti | _ => None end.

(** [body] has the outcome [r] when its lookup is answered by [o]; it
    reads no state before its [await], so the outcome does not depend
    on the closure. *)
Definition body_behaves `{SpotifyEnv} (o : forall q, SAnswer q) (body : C unit) (r : CbOutcome) :
    Prop :=
  match r with
  | CbBuilt ti =>
      exists q k, (forall s, exec body s = Blocked q k s) /\
                  (forall s, exec (k (o q)) s = exec (push_track ti) s)
  | CbSkipped =>
      (forall s, exec body s = Done tt s) \/
      exists q k, (forall s, exec body s = Blocked q k s) /\ (forall s, exec (k (o q)) s = Done tt s)
  | CbThrows =>
      (forall s, exists e, exec body s = Failed e s) \/
      exists q k, (forall s, exec body s = Blocked q k s) /\
                  (forall s, exists e, exec (k (o q)) s = Failed e s)
  end.

(** What the callbacks of a fan-out over items of type [I] do:
    [fo_body] runs the lookup of an item, with the outcome [fo_outcome];
    [fo_matches] is the rejoin test, which compares a track's key with
    the item's [fo_key]. *)
Class FanOut `{SpotifyEnv} (I : Type) := {
  fo_body : I -> C unit;
  fo_matches : TrackInfo -> I -> C bool;
  fo_stoppable : bool;
  fo_outcome : (forall q, SAnswer q) -> I -> CbOutcome;
  fo_key : I -> string * string;
  fo_outcome_key o it ti : fo_outcome o it = CbBuilt ti -> track_key ti = fo_key it;
  fo_matches_exec o it ti t s :
    fo_outcome o it = CbBuilt ti ->
    exec (fo_matches t it) s = Done (key_eqb (track_key t) (fo_key it)) s;
  fo_outcome_spec o it : body_behaves o (fo_body it) (fo_outcome o it);
  fo_matches_nonblocking t it : nonblocking (fo_matches t it)
}.

(** The whole callback of an item, on the item list [items], resolving
    with [mk]. *)
Definition fo_cb {Itm : Type} `{FanOut Itm} (mk : list nat -> LoadResult) (items : list Itm) (it : Itm) : C unit :=
  fo_body it;; cb_tail fo_matches fo_stoppable (length items) mk items.

(** The rejoin test as a function. *)
Definition fo_f {Itm : Type} `{FanOut Itm} (t : TrackInfo) (it : Itm) : bool := key_eqb (track_key t) (fo_key it).

Lemma fo_f_position {Itm : Type} `{FanOut Itm} p t it : fo_f (set_info_position p t) it = fo_f t it.
Proof. reflexivity. Qed.

(** ** Completion in any order *)

Section FanOutOrder.
Context {Itm : Type} `{FanOut Itm} (o : forall q, SAnswer q) (mk : list nat -> LoadResult).
Variable items : list Itm.

Local Abbreviation tail := (cb_tail fo_matches fo_stoppable (length items) mk items).

(** The callback of an item that builds [ti] awaits its lookup, then
    pushes [ti] and runs the end of the callback. *)
Lemma cb_blocked it ti :
  fo_outcome o it = CbBuilt ti ->
  exists q k, (forall s, exec (fo_cb mk items it) s = Blocked q k s) /\
    forall s, exec (k (o q)) s = exec (push_track ti;; tail) s.
Proof.
  intros Hb. pose proof (fo_outcome_spec o it) as Hs. rewrite Hb in Hs.
  destruct Hs as (q & k & Hq & Hk).
  exists q, (fun a => k a ≫= fun _ => tail). split.
  - intros s. unfold fo_cb. rewrite exec_bind, Hq. reflexivity.
  - intros s. rewrite !exec_bind, Hk. reflexivity.
Qed.

(** The answers are well formed: item [j] builds track [tis !! j]. *)
Definition built_all (its : list Itm) (tis : list TrackInfo) : Prop :=
  Forall2 (fun it ti => fo_outcome o it = CbBuilt ti) its tis.

(** The synchronous pass leaves the closure as it was, and each item
    waits for its lookup, after which it pushes its track. *)
Lemma spawn_fan_out its tis i s :
  built_all its tis ->
  fst (spawn_all (map (fo_cb mk items) its) i s) = s /\
  forall j ti, tis !! j = Some ti ->
    exists p, snd (spawn_all (map (fo_cb mk items) its) i s) !! (i + j) = Some p /\
      forall s', exec (pd_k p (o (pd_q p))) s' = exec (push_track ti;; tail) s'.
Proof.
  intros Hb. revert i s. induction Hb as [|it ti its tis Hd _ IH]; intros i s.
  - split; [reflexivity|]. intros j ti Hj. rewrite lookup_nil in Hj. discriminate.
  - destruct (cb_blocked it ti Hd) as (q & k & Hq & Hk).
    cbn [map spawn_all]. rewrite Hq.
    destruct (IH (S i) s) as [IH1 IH2].
    destruct (spawn_all (map (fo_cb mk items) its) (S i) s) as [s'' ps] eqn:E.
    cbn in IH1, IH2 |- *. split; [exact IH1|].
    intros [|j] ti' Hj.
    + injection Hj as <-. rewrite Nat.add_0_r, lookup_insert_eq. eexists; split; [reflexivity|exact Hk].
    + destruct (IH2 j ti' Hj) as (p & Hp & Hp').
      exists p. rewrite lookup_insert_ne by lia. rewrite <- Hp. split; [f_equal; lia|exact Hp'].
Qed.

Variable tis : list TrackInfo.

(** The closure once the callbacks of [P] completed, in that order,
    and before the last one. *)
Definition state_of (P : list nat) : SpSt :=
  {| sp_store := map (fun j => mkLT (tis !!! j)) P; sp_tracks := seq 0 (length P);
     sp_index := length P; sp_stop := false; sp_resolved := None |}.

Lemma exec_push_track ti s :
  exec (push_track ti : C unit) s =
  Done tt (set_tracks (sp_tracks s ++ [length (sp_store s)])
             (set_store (sp_store s ++ [mkLT ti]) s)).
Proof. reflexivity. Qed.

Lemma push_state P i :
  set_tracks (sp_tracks (state_of P) ++ [length (sp_store (state_of P))])
    (set_store (sp_store (state_of P) ++ [mkLT (tis !!! i)]) (state_of P)) =
  set_index (length P) (state_of (P ++ [i])).
Proof.
  unfold state_of, set_index, set_tracks, set_store. cbn.
  rewrite map_app, length_app, length_map. cbn [length map].
  rewrite Nat.add_1_r, seq_S. reflexivity.
Qed.

Lemma state_of_tracks P : sp_tracks (state_of P) = seq 0 (length P).
Proof. reflexivity. Qed.

(** A callback that is not the last one pushes its track and counts
    itself. *)
Lemma step_mid P i :
  S (length P) < length items ->
  exec (push_track (tis !!! i);; tail) (state_of P) = Done tt (state_of (P ++ [i])).
Proof.
  intros Hlt. rewrite exec_bind, exec_push_track, push_state. cbv beta iota.
  unfold cb_tail. xsimp. cbn [sp_index set_index].
  rewrite (proj2 (Nat.eqb_neq _ _)) by lia. xsimp.
  unfold set_index, state_of. cbn. rewrite length_app, Nat.add_1_r. reflexivity.
Qed.

Hypothesis Hb : built_all items tis.

Lemma built_all_matches :
  Forall (fun it => forall t s, exec (fo_matches t it) s = Done (fo_f t it) s) items.
Proof.
  apply Forall_forall. intros it Hit t s.
  destruct (list_elem_of_lookup_1 _ _ Hit) as [j Hj].
  destruct (Forall2_lookup_l _ _ _ _ _ Hb Hj) as (ti & _ & Hd).
  exact (fo_matches_exec o it ti t s Hd).
Qed.

(** The last callback pushes its track and rejoins. *)
Lemma step_last P i :
  S (length P) = length items ->
  exec (push_track (tis !!! i);; tail) (state_of P) =
  let s1 := set_index (length P) (state_of (P ++ [i])) in
  let '(M, st) := join_pure fo_f items 0 (seq 0 (length items)) (sp_store s1) in
  Done tt (set_index (length items) (join_end fo_stoppable mk M (set_store st s1))).
Proof.
  intros Heq. rewrite exec_bind, exec_push_track, push_state. cbv beta iota.
  unfold cb_tail. xsimp. cbn [sp_index set_index sp_tracks].
  rewrite (proj2 (Nat.eqb_eq _ _)) by lia.
  rewrite state_of_tracks, length_app, Nat.add_1_r, Heq, length_seq.
  rewrite (proj2 (Nat.eqb_neq _ _)) by lia.
  rewrite exec_bind, (join_outer_exec fo_matches fo_f fo_stoppable (length items) mk fo_f_position).
  - destruct (join_pure _ _ _ _ _) as [M st]. xsimp. cbn [app].
    rewrite <- Heq. unfold join_end. destruct fo_stoppable; reflexivity.
  - exact built_all_matches.
  - apply Forall_forall. intros r Hr%elem_of_seq.
    apply lookup_lt_is_Some. cbn. rewrite length_map, length_app. cbn. lia.
  - apply andb_false_r.
  - reflexivity.
  - intros ->. cbn in Heq. lia.
  - intros E%(f_equal length). rewrite length_seq in E. cbn in E. lia.
Qed.

(** The closure once the callbacks of [Q] completed in that order, the
    last one having rejoined. *)
Definition final_of (Q : list nat) : SpSt :=
  let s1 := set_index (length Q - 1) (state_of Q) in
  let '(M, st) := join_pure fo_f items 0 (seq 0 (length items)) (sp_store s1) in
  set_index (length items) (join_end fo_stoppable mk M (set_store st s1)).

(** Every item outside [P] waits for its lookup, and then pushes its
    track. *)
Definition pending_ok (P : list nat) (pm : gmap nat Pend) : Prop :=
  forall j, j < length items -> j ∉ P ->
    exists p, pm !! j = Some p /\
      forall s, exec (pd_k p (o (pd_q p))) s = exec (push_track (tis !!! j);; tail) s.

Lemma pending_ok_delete P pm i :
  pending_ok P pm -> pending_ok (P ++ [i]) (delete i pm).
Proof.
  intros Hp j Hj Hn. rewrite elem_of_app, list_elem_of_singleton in Hn.
  rewrite lookup_delete_ne by (intros ->; tauto). apply Hp; tauto.
Qed.

(** Completing the remaining callbacks in the order [rest] ends in the
    rejoin of the whole completion order. *)
Lemma settle_spec rest P pm :
  pending_ok P pm -> NoDup (P ++ rest) -> Forall (fun j => j < length items) rest ->
  length P + length rest = length items -> rest <> [] ->
  fst (settle o rest pm (state_of P)) = final_of (P ++ rest).
Proof.
  revert P pm. induction rest as [|i rest IH]; intros P pm Hp Hnd Hlt Hlen Hne; [done|].
  apply Forall_cons in Hlt as [Hi Hlt].
  assert (HiP : i ∉ P).
  { intros HiP. apply NoDup_app in Hnd as (_ & Hdis & _). apply (Hdis i); [done|left]. }
  destruct (Hp i Hi HiP) as (p & Hpm & Hk).
  cbn [settle]. rewrite Hpm, Hk.
  destruct rest as [|i' rest'].
  - rewrite step_last by (cbn in Hlen; lia).
    unfold final_of. rewrite length_app. cbn [length].
    replace (length P + 1 - 1) with (length P) by lia.
    destruct (join_pure _ _ _ _ _). reflexivity.
  - rewrite step_mid by (cbn in Hlen; lia). cbv beta iota.
    rewrite IH.
    + rewrite <- app_assoc. reflexivity.
    + apply pending_ok_delete, Hp.
    + rewrite <- app_assoc. exact Hnd.
    + exact Hlt.
    + rewrite length_app. cbn in *. lia.
    + done.
Qed.

Section Rejoin.
Variable order : list nat.
Hypothesis Hkeys : NoDup (track_key <$> tis).
Hypothesis Hperm : order ≡ₚ seq 0 (length tis).

Lemma built_all_length : length items = length tis.
Proof. exact (Forall2_length _ _ _ Hb). Qed.

Lemma order_elem j : j < length tis -> j ∈ order.
Proof. intros Hj. rewrite Hperm, elem_of_seq. lia. Qed.

(** Once the callbacks completed in [order], item [j] matches exactly
    the reference of the track it built: its position in [order]. *)
Lemma matching_final j it :
  items !! j = Some it ->
  matching fo_f (map (fun k => mkLT (tis !!! k)) order) it (seq 0 (length items)) =
  [index_of order j].
Proof.
  intros Hj. pose proof built_all_length as Hl.
  destruct (Forall2_lookup_l _ _ _ _ _ Hb Hj) as (ti & Hti & Hd).
  pose proof (fo_outcome_key o it ti Hd) as Hkey.
  assert (Hjn : j < length tis) by (apply lookup_lt_Some in Hti; lia).
  assert (Hord : order !! index_of order j = Some j) by apply index_of_lookup, order_elem, Hjn.
  assert (Hlen : length order = length tis) by (rewrite Hperm, length_seq; reflexivity).
  unfold matching. rewrite <- (filter_seq_eqb (index_of order j) 0 (length items)).
  2:{ apply lookup_lt_Some in Hord. lia. }
  apply List.filter_ext_in. intros r Hr%in_seq.
  rewrite list_lookup_fmap.
  destruct (lookup_lt_is_Some_2 order r) as [k Hk]; [lia|]. rewrite Hk. cbn.
  unfold fo_f. rewrite <- Hkey.
  destruct (Nat.eqb_spec r (index_of order j)) as [->|Hne].
  - rewrite Hord in Hk. injection Hk as <-.
    rewrite (list_lookup_total_correct _ _ _ Hti). apply key_eqb_spec. reflexivity.
  - assert (Hkj : k <> j) by (intros ->; apply Hne; symmetry; eapply index_of_unique;
                              [rewrite Hperm; apply NoDup_seq | exact Hk]).
    destruct (key_eqb _ _) eqn:E; [|reflexivity]. apply key_eqb_spec in E.
    exfalso. apply Hkj. eapply NoDup_lookup; [exact Hkeys| |].
    + rewrite list_lookup_fmap, list_lookup_lookup_total_lt by (apply list_elem_of_lookup_2 in Hk;
        rewrite Hperm, elem_of_seq in Hk; lia). reflexivity.
    + rewrite list_lookup_fmap, Hti. cbn. rewrite E. reflexivity.
Qed.

Lemma final_of_spec :
  tis <> [] ->
  sp_resolved (final_of order) = Some (mk (index_of order <$> seq 0 (length tis))) /\
  forall j, j < length tis ->
    lt_info <$> sp_store (final_of order) !! index_of order j =
    Some (set_info_position (Z.of_nat j) (tis !!! j)).
Proof.
  intros Hne. pose proof built_all_length as Hl.
  assert (Hlen : length order = length tis) by (rewrite Hperm, length_seq; reflexivity).
  unfold final_of. cbn [sp_store set_index state_of].
  rewrite (join_pure_unique fo_f fo_f_position _ _ _ _ (index_of order)).
  2:{ intros j it Hj. rewrite Nat.add_0_l. apply matching_final, Hj. }
  cbn. rewrite Hl. split; [unfold join_end; destruct fo_stoppable; reflexivity|].
  intros j Hj.
  assert (Hord : order !! index_of order j = Some j) by apply index_of_lookup, order_elem, Hj.
  rewrite join_end_store, sp_store_set_store, marks_lookup; [|intros a b Ha Hb' E | lia].
  - rewrite list_lookup_fmap, Hord. reflexivity.
  - assert (Sa : a ∈ order) by (apply order_elem; lia).
    assert (Sb : b ∈ order) by (apply order_elem; lia).
    apply index_of_lookup in Sa, Sb. congruence.
Qed.

(** Whatever order the lookups complete in, the fan-out resolves with
    the references of the tracks in catalogue order, and the [j]-th
    carries [position = j]. *)
Lemma fan_out_order :
  tis <> [] ->
  sp_resolved (fan_out o order (map (fo_cb mk items) items) sp_init) =
    Some (mk (index_of order <$> seq 0 (length tis))) /\
  (fun r => lt_info <$> sp_store (fan_out o order (map (fo_cb mk items) items) sp_init) !! r) <$>
    (index_of order <$> seq 0 (length tis)) =
  (fun j => Some (set_info_position (Z.of_nat j) (tis !!! j))) <$> seq 0 (length tis).
Proof.
  intros Hne. unfold fan_out.
  destruct (spawn_fan_out items tis 0 sp_init Hb) as [Hs Hp].
  destruct (spawn_all _ 0 sp_init) as [s1 pm]. cbn in Hs, Hp. subst s1.
  pose proof built_all_length as Hl.
  change sp_init with (state_of []). rewrite (settle_spec order [] pm).
  - destruct final_of_spec as [Hr Hst]; [exact Hne|]. split; [exact Hr|].
    rewrite <- list_fmap_compose. apply list_fmap_ext. intros k j Hj.
    apply lookup_seq in Hj as [-> ?]. apply Hst. lia.
  - intros j Hj _. destruct (lookup_lt_is_Some_2 tis j) as [ti Hti]; [lia|].
    destruct (Hp j ti Hti) as (p & Hpj & Hk). exists p. split; [exact Hpj|].
    rewrite (list_lookup_total_correct _ _ _ Hti). exact Hk.
  - rewrite Hperm. apply NoDup_seq.
  - apply Forall_forall. intros j Hj. rewrite Hperm, elem_of_seq in Hj. lia.
  - rewrite Hperm, length_seq. cbn. lia.
  - intros ->. apply Permutation_nil_l in Hperm. destruct tis; [done|discriminate].
Qed.

End Rejoin.

End FanOutOrder.

(** ** What every callback of a fan-out guarantees *)

Section FanOutGuar.
Context (R : SpSt -> SpSt -> Prop) `{!Reflexive R} `{!Transitive R}.

Definition pend_guarded (pm : gmap nat Pend) : Prop :=
  map_Forall (fun _ p => forall a s, guar R s (pd_k p a)) pm.

Lemma spawn_guar cbs i s :
  Forall (fun c => forall s, guar R s c) cbs ->
  R s (fst (spawn_all cbs i s)) /\ pend_guarded (snd (spawn_all cbs i s)).
Proof.
  intros Hc. revert i s. induction Hc as [|c cbs Hc _ IH]; intros i s.
  - split; [reflexivity | apply map_Forall_empty].
  - cbn. pose proof (guar_exec R _ _ (Hc s)) as He.
    destruct (exec c s) as [a s'|e s'|q k s'].
    + destruct (IH (S i) s') as [H1 H2]. split; [etransitivity; eauto | exact H2].
    + destruct (IH (S i) s') as [H1 H2]. split; [etransitivity; eauto | exact H2].
    + destruct He as [He Hk]. destruct (IH (S i) s') as [H1 H2].
      destruct (spawn_all cbs (S i) s') as [s'' ps]. cbn in *.
      split; [etransitivity; eauto|]. apply map_Forall_insert_2; [exact Hk | exact H2].
Qed.

Lemma settle_guar o order pm s :
  pend_guarded pm -> R s (fst (settle o order pm s)).
Proof.
  revert pm s. induction order as [|i order IH]; intros pm s Hpm; cbn; [reflexivity|].
  destruct (pm !! i) as [p|] eqn:Hp; [|apply IH, Hpm].
  pose proof (guar_exec R _ _ (Hpm i p Hp (o (pd_q p)) s)) as He.
  destruct (exec _ s) as [a s'|e s'|q k s'].
  - etransitivity; [exact He|]. apply IH, map_Forall_delete, Hpm.
  - etransitivity; [exact He|]. apply IH, map_Forall_delete, Hpm.
  - destruct He as [He Hk]. etransitivity; [exact He|].
    apply IH, map_Forall_insert_2; [exact Hk | exact Hpm].
Qed.

(** A fan-out whose callbacks all keep [R] keeps [R]. *)
Lemma fan_out_guar o order cbs s :
  Forall (fun c => forall s, guar R s c) cbs -> R s (fan_out o order cbs s).
Proof.
  intros Hc. unfold fan_out. destruct (spawn_guar cbs 0 s Hc) as [H1 H2].
  destruct (spawn_all cbs 0 s) as [s1 pm]. cbn in *.
  etransitivity; [exact H1 | apply settle_guar, H2].
Qed.

End FanOutGuar.

(** ** A callback that throws *)

(** A callback that throws never runs its [cb_tail]: [sp_index] stops
    short of the last count and the promise is never resolved, in any
    completion order. *)

Section FanOutThrow.
Context {Itm : Type} `{FanOut Itm} (o : forall q, SAnswer q) (mk : list nat -> LoadResult).
Variable items : list Itm.

Local Abbreviation tail := (cb_tail fo_matches fo_stoppable (length items) mk items).

(** Below the last count, [cb_tail] only counts. *)
Lemma tail_counts s :
  S (sp_index s) < length items -> exec tail s = Done tt (set_index (S (sp_index s)) s).
Proof.
  intros Hlt. unfold cb_tail. xsimp. rewrite (proj2 (Nat.eqb_neq _ _)) by lia. reflexivity.
Qed.

(** A resumed callback pushes a track or not and runs [cb_tail], or
    throws first. *)
Definition resumes_once (c : C unit) : Prop :=
  forall s, (exists ti, exec c s = exec (push_track ti;; tail) s) \/
            exec c s = exec tail s \/ exists e, exec c s = Failed e s.

Definition resumes_failing (c : C unit) : Prop := forall s, exists e, exec c s = Failed e s.

(** Below the last count, a resumed callback completes, counting itself
    at most once, and resolves nothing. *)
Lemma resume_step c s :
  resumes_once c -> S (sp_index s) < length items -> sp_resolved s = None ->
  exists s', (exec c s = Done tt s' \/ exists e, exec c s = Failed e s') /\
    sp_resolved s' = None /\ sp_index s' <= S (sp_index s).
Proof.
  intros Hc Hlt Hr. destruct (Hc s) as [[ti ->]|[->|[e ->]]].
  - rewrite exec_bind. cbn [exec push_track modify]. rewrite tail_counts by (cbn; lia).
    eexists; split; [left; reflexivity | cbn; split; [done|lia]].
  - rewrite tail_counts by lia. eexists; split; [left; reflexivity | cbn; split; [done|lia]].
  - exists s. split; [eauto | split; [done|lia]].
Qed.

(** The synchronous part of the callback of an item: below the last
    count it completes without resolving, or waits with a continuation
    that resumes once. *)
Lemma cb_first it s :
  S (sp_index s) < length items -> sp_resolved s = None ->
  match exec (fo_cb mk items it) s with
  | Done _ s' | Failed _ s' => sp_resolved s' = None /\ sp_index s' <= S (sp_index s)
  | Blocked q k s' => s' = s /\ resumes_once (k (o q))
  end.
Proof.
  intros Hlt Hr. unfold fo_cb. rewrite exec_bind.
  pose proof (fo_outcome_spec o it) as Hs. destruct (fo_outcome o it) as [ti| |]; cbn in Hs.
  - destruct Hs as (q & k & Hq & Hk). rewrite Hq. split; [done|].
    intros s'. left. exists ti. rewrite !exec_bind, Hk. reflexivity.
  - destruct Hs as [Hd | (q & k & Hq & Hk)].
    + rewrite Hd, tail_counts by done. cbn. split; [done|lia].
    + rewrite Hq. split; [done|]. intros s'. right; left. rewrite exec_bind, Hk. reflexivity.
  - destruct Hs as [Hf | (q & k & Hq & Hk)].
    + destruct (Hf s) as [e ->]. split; [done|lia].
    + rewrite Hq. split; [done|]. intros s'. right; right. rewrite exec_bind.
      destruct (Hk s') as [e ->]. eauto.
Qed.

(** The callback of an item that throws changes nothing and, if it
    waits, fails when resumed. *)
Lemma cb_first_throws it s :
  fo_outcome o it = CbThrows ->
  match exec (fo_cb mk items it) s with
  | Done _ _ => False
  | Failed _ s' => s' = s
  | Blocked q k s' => s' = s /\ resumes_failing (k (o q))
  end.
Proof.
  intros Ht. unfold fo_cb. rewrite exec_bind.
  pose proof (fo_outcome_spec o it) as Hs. rewrite Ht in Hs. cbn in Hs.
  destruct Hs as [Hf | (q & k & Hq & Hk)].
  - destruct (Hf s) as [e ->]. reflexivity.
  - rewrite Hq. split; [done|]. intros s'. rewrite exec_bind. destruct (Hk s') as [e ->]. eauto.
Qed.

(** The callbacks still waiting when item [i0] throws: [i0]'s fails,
    each other one runs [cb_tail] at most once, and [sp_index] plus
    their number stays below the last count. *)
Definition stuck_inv (i0 : nat) (s : SpSt) (ps : gmap nat Pend) : Prop :=
  sp_resolved s = None /\
  sp_index s + size (delete i0 ps) < length items /\
  (forall p, ps !! i0 = Some p -> resumes_failing (pd_k p (o (pd_q p)))) /\
  (forall j p, j <> i0 -> ps !! j = Some p -> resumes_once (pd_k p (o (pd_q p)))).

Lemma stuck_inv_delete i0 i ps s s' :
  stuck_inv i0 s ps -> sp_resolved s' = None ->
  sp_index s' + size (delete i0 (delete i ps)) < length items ->
  stuck_inv i0 s' (delete i ps).
Proof.
  intros (_ & _ & Hf & Ho) Hr Hb. split; [done|]. split; [done|]. split.
  - intros p (_ & Hp)%lookup_delete_Some. auto.
  - intros j p Hj (_ & Hp)%lookup_delete_Some. exact (Ho j p Hj Hp).
Qed.

(** A pending callback other than [i0]'s takes one from the count. *)
Lemma size_delete_other i0 i p (ps : gmap nat Pend) :
  i <> i0 -> ps !! i = Some p -> size (delete i0 ps) = S (size (delete i0 (delete i ps))).
Proof.
  intros Hne Hp. rewrite <- (insert_delete_id (delete i0 ps) i p) by
    (rewrite lookup_delete_ne by congruence; exact Hp).
  rewrite map_size_insert_None by apply lookup_delete_eq. rewrite delete_delete. reflexivity.
Qed.

Lemma settle_stuck i0 order ps s :
  stuck_inv i0 s ps -> sp_resolved (fst (settle o order ps s)) = None.
Proof.
  revert ps s. induction order as [|i order IH]; intros ps s Hinv; cbn; [apply Hinv|].
  destruct (ps !! i) as [p|] eqn:Hp; [|apply IH, Hinv].
  pose proof Hinv as (Hr & Hb & Hf & Ho).
  destruct (decide (i = i0)) as [->|Hne].
  - destruct (Hf p Hp s) as [e ->]. apply IH. eapply stuck_inv_delete; [exact Hinv|done|].
    rewrite delete_delete_eq. exact Hb.
  - pose proof (size_delete_other i0 i p ps Hne Hp) as Hsz.
    destruct (resume_step _ s (Ho i p Hne Hp)) as (s' & Hex & Hr' & Hi'); [lia|done|].
    destruct Hex as [E|[e E]]; rewrite E; apply IH;
      (eapply stuck_inv_delete; [exact Hinv|done|lia]).
Qed.

(** [ahead i i0] is 1 while the item [i0] is at or after position [i]. *)
Definition ahead (i i0 : nat) : nat := if Nat.leb i i0 then 1 else 0.

Lemma ahead_spec i i0 : (i <= i0 /\ ahead i i0 = 1) \/ (i0 < i /\ ahead i i0 = 0).
Proof. unfold ahead. destruct (Nat.leb_spec i i0); [left|right]; auto. Qed.

Ltac ahead_cases i i0 :=
  destruct (ahead_spec i i0) as [[? ?]|[? ?]];
  destruct (ahead_spec (S i) i0) as [[? ?]|[? ?]]; try lia.

(** The callbacks from position [i] on leave the closure unresolved,
    count at most the items other than [i0], and leave waiting
    continuations as [stuck_inv] needs them, at positions from [i] on. *)
Definition spawned (i0 i : nat) (s0 s' : SpSt) (len : nat) (ps : gmap nat Pend) : Prop :=
  sp_resolved s' = None /\
  sp_index s' + size (delete i0 ps) + ahead i i0 <= sp_index s0 + len /\
  (forall p, ps !! i0 = Some p -> resumes_failing (pd_k p (o (pd_q p)))) /\
  (forall j p, j <> i0 -> ps !! j = Some p -> resumes_once (pd_k p (o (pd_q p)))) /\
  (forall j, is_Some (ps !! j) -> i <= j).

(** A callback at [i] that waits joins the continuations of the later
    ones. *)
Lemma spawned_insert i0 i s0 s' len ps q k :
  spawned i0 (S i) s0 s' len ps ->
  (i = i0 -> resumes_failing (k (o q))) -> (i <> i0 -> resumes_once (k (o q))) ->
  spawned i0 i s0 s' (S len) (<[i := mkPend q k]> ps).
Proof.
  intros (Hr & Hb & Hf & Ho & Hk) Hfi Hoi.
  assert (Hn : ps !! i = None) by
    (destruct (ps !! i) eqn:E; [specialize (Hk i (mk_is_Some _ _ E)); lia | done]).
  split; [done|]. split; [|split; [|split]].
  - destruct (decide (i = i0)) as [->|Hne].
    + rewrite delete_insert_eq. ahead_cases i0 i0.
    + rewrite delete_insert_ne, map_size_insert_None by
        (try rewrite lookup_delete_ne by congruence; done).
      ahead_cases i i0.
  - intros p. destruct (decide (i = i0)) as [->|Hne].
    + rewrite lookup_insert_eq. intros [= <-]. auto.
    + rewrite lookup_insert_ne by congruence. apply Hf.
  - intros j p Hj. destruct (decide (j = i)) as [->|Hji].
    + rewrite lookup_insert_eq. intros [= <-]. auto.
    + rewrite lookup_insert_ne by congruence. apply Ho, Hj.
  - intros j [p Hp]. destruct (decide (j = i)) as [->|Hji]; [done|].
    rewrite lookup_insert_ne in Hp by congruence. specialize (Hk j (mk_is_Some _ _ Hp)). lia.
Qed.

(** A callback at [i] that completes at once leaves the later ones. *)
Lemma spawned_skip i0 i s0 s1 s' len ps :
  spawned i0 (S i) s1 s' len ps ->
  sp_index s1 + ahead i i0 <= sp_index s0 + 1 + ahead (S i) i0 ->
  spawned i0 i s0 s' (S len) ps.
Proof.
  intros (Hr & Hb & Hf & Ho & Hk) Hs. repeat split; auto; [lia|].
  intros j Hj. specialize (Hk j Hj). lia.
Qed.

Lemma spawn_stuck i0 it0 its i s s' ps :
  items !! i0 = Some it0 -> fo_outcome o it0 = CbThrows ->
  drop i items = its -> sp_resolved s = None ->
  sp_index s + length its < length items + ahead i i0 ->
  spawn_all (map (fo_cb mk items) its) i s = (s', ps) ->
  spawned i0 i s s' (length its) ps.
Proof.
  intros Hi0 Ht. pose proof (lookup_lt_Some _ _ _ Hi0) as Hn.
  revert i s s' ps. induction its as [|it rest IH]; intros i s s' ps Hd Hr Hb Hsp.
  - cbn [map spawn_all] in Hsp. injection Hsp as <- <-.
    apply (f_equal length) in Hd. rewrite length_drop in Hd. cbn in Hd.
    destruct (ahead_spec i i0) as [[? _]|[_ Ea]]; [lia|].
    split; [done|]. split; [rewrite delete_empty, map_size_empty, Ea; lia|].
    split; [|split]; intros *; rewrite lookup_empty; [discriminate | discriminate |].
    intros []; discriminate.
  - assert (Hit : items !! i = Some it) by
      (rewrite <- (Nat.add_0_r i), <- lookup_drop, Hd; reflexivity).
    assert (Hd' : drop (S i) items = rest) by
      (rewrite <- Nat.add_1_r, <- drop_drop, Hd; reflexivity).
    apply (f_equal length) in Hd. rewrite length_drop in Hd. cbn in Hd.
    cbn [map spawn_all] in Hsp. cbn [length] in Hb |- *.
    destruct (decide (i = i0)) as [->|Hne].
    + rewrite Hi0 in Hit. injection Hit as <-.
      pose proof (cb_first_throws it0 s Ht) as Hc.
      destruct (exec (fo_cb mk items it0) s) as [a s1|e s1|q k s1]; [done|subst s1|].
      * eapply spawned_skip; [apply (IH (S i0) s s' ps Hd' Hr); [ahead_cases i0 i0 | exact Hsp]|].
        ahead_cases i0 i0.
      * destruct Hc as [-> Hk0].
        destruct (spawn_all (map (fo_cb mk items) rest) (S i0) s) as [s'' ps'] eqn:E.
        injection Hsp as <- <-. apply spawned_insert; [|auto|congruence].
        apply (IH (S i0) s s'' ps' Hd' Hr); [ahead_cases i0 i0 | exact E].
    + assert (Hlt : S (sp_index s) < length items) by ahead_cases i i0.
      pose proof (cb_first it s Hlt Hr) as Hc.
      destruct (exec (fo_cb mk items it) s) as [a s1|e s1|q k s1].
      1,2: destruct Hc as [Hr1 Hi1];
        eapply spawned_skip; [apply (IH (S i) s1 s' ps Hd' Hr1); [ahead_cases i i0 | exact Hsp]|];
        ahead_cases i i0.
      destruct Hc as [-> Hk0].
      destruct (spawn_all (map (fo_cb mk items) rest) (S i) s) as [s'' ps'] eqn:E.
      injection Hsp as <- <-. apply spawned_insert; [|congruence|auto].
      apply (IH (S i) s s'' ps' Hd' Hr); [ahead_cases i i0 | exact E].
Qed.

(** The fan-out of all items, when the callback of item [i0] throws
    (before or after its lookup): whatever the completion order, the
    promise is never resolved. *)
Lemma fan_out_throw_pending i0 it0 order s :
  items !! i0 = Some it0 -> fo_outcome o it0 = CbThrows ->
  sp_index s = 0 -> sp_resolved s = None ->
  sp_resolved (fan_out o order (map (fo_cb mk items) items) s) = None.
Proof.
  intros Hi0 Ht Hidx Hr. unfold fan_out.
  destruct (spawn_all (map (fo_cb mk items) items) 0 s) as [s1 ps] eqn:E.
  destruct (spawn_stuck i0 it0 items 0 s s1 ps Hi0 Ht (drop_0 _) Hr) as (Hr1 & Hb & Hf & Ho & _);
    [destruct (ahead_spec 0 i0) as [[_ ->]|[? _]]; lia | exact E |].
  apply (settle_stuck i0). repeat split; auto.
  destruct (ahead_spec 0 i0) as [[_ Ea]|[? _]]; lia.
Qed.

End FanOutThrow.

(** ** Every callback runs to its end *)

(** No callback of a fan-out is left waiting once each lookup has been
    answered: a resumed callback pushes its track or not and runs
    [cb_tail], and none of that awaits. *)

(** The synchronous pass leaves at most one waiting callback per
    callback it runs. *)
Lemma spawn_size cbs i s : size (snd (spawn_all cbs i s)) <= length cbs.
Proof.
  revert i s. induction cbs as [|c cbs IH]; intros i s; cbn [spawn_all length].
  - cbn [snd]. rewrite map_size_empty. lia.
  - destruct (exec c s) as [a s'|e s'|q k s']; [specialize (IH (S i) s'); lia..|].
    specialize (IH (S i) s'). destruct (spawn_all cbs (S i) s') as [s'' ps]. cbn [snd] in *.
    rewrite map_size_insert. destruct (ps !! i); cbn; lia.
Qed.

Section FanOutComplete.
Context (o : forall q, SAnswer q).

(** A callback that, when it waits, is resumed by a continuation that
    never waits again. *)
Definition awaits_once (c : C unit) : Prop :=
  forall s, match exec c s with Blocked q k _ => nonblocking (k (o q)) | _ => True end.

Definition pend_total (pm : gmap nat Pend) : Prop :=
  map_Forall (fun _ p => nonblocking (pd_k p (o (pd_q p)))) pm.

Lemma spawn_total cbs i s :
  Forall awaits_once cbs ->
  pend_total (snd (spawn_all cbs i s)) /\
  forall j, is_Some (snd (spawn_all cbs i s) !! j) -> i <= j < i + length cbs.
Proof.
  intros Hc. revert i s. induction Hc as [|c cbs Hc _ IH]; intros i s; cbn [spawn_all length].
  - cbn [fst snd]. split; [apply map_Forall_empty|].
    intros j [? Hj]. rewrite lookup_empty in Hj. discriminate.
  - specialize (Hc s). destruct (exec c s) as [a s'|e s'|q k s'].
    1,2: destruct (IH (S i) s') as [H1 H2]; split; [exact H1|];
      intros j Hj; specialize (H2 j Hj); lia.
    destruct (IH (S i) s') as [H1 H2].
    destruct (spawn_all cbs (S i) s') as [s'' ps]. cbn [fst snd] in *.
    split; [apply map_Forall_insert_2; [exact Hc | exact H1]|].
    intros j [p Hj]. destruct (decide (j = i)) as [->|Hne]; [lia|].
    rewrite lookup_insert_ne in Hj by congruence. specialize (H2 j (mk_is_Some _ _ Hj)). lia.
Qed.

(** Completing, in [order], lookups that include every waiting one
    leaves no callback waiting. *)
Lemma settle_drains order ps s :
  pend_total ps -> (forall j, is_Some (ps !! j) -> j ∈ order) -> snd (settle o order ps s) = ∅.
Proof.
  revert ps s. induction order as [|i order IH]; intros ps s Hps Hin; cbn [settle].
  - apply map_empty. intros j. destruct (ps !! j) eqn:E; [|done].
    destruct (not_elem_of_nil j (Hin j (mk_is_Some _ _ E))).
  - destruct (ps !! i) as [p|] eqn:Hp.
    + pose proof (Hps i p Hp s) as Hnb.
      destruct (exec (pd_k p (o (pd_q p))) s) as [a s'|e s'|q k s']; [| |contradiction].
      all: apply IH; [apply map_Forall_delete, Hps|].
      all: intros j [Hne Hj]%lookup_delete_is_Some; specialize (Hin j Hj).
      all: apply elem_of_cons in Hin as [->|]; [congruence | done].
    + apply IH; [exact Hps|]. intros j Hj. specialize (Hin j Hj).
      apply elem_of_cons in Hin as [->|]; [|done]. rewrite Hp in Hj. by destruct Hj.
Qed.

(** The callback of an item of a fan-out awaits at most once. *)
Lemma fo_cb_awaits_once {Itm : Type} `{FanOut Itm} mk items it :
  awaits_once (fo_cb mk items it).
Proof.
  intros s. unfold fo_cb. rewrite exec_bind.
  pose proof (fo_outcome_spec o it) as Hs.
  pose proof (cb_tail_nonblocking fo_matches fo_stoppable (length items) mk fo_matches_nonblocking
                items) as Ht.
  destruct (fo_outcome o it) as [ti| |]; cbn in Hs.
  - destruct Hs as (q & k & Hq & Hk). rewrite Hq.
    intros s'. rewrite exec_bind, Hk. exact (Ht _).
  - destruct Hs as [Hd | (q & k & Hq & Hk)].
    + rewrite Hd. cbv beta iota. specialize (Ht s).
      destruct (exec _ s); [exact I | exact I | contradiction].
    + rewrite Hq. intros s'. rewrite exec_bind, Hk. exact (Ht s').
  - destruct Hs as [Hf | (q & k & Hq & Hk)].
    + destruct (Hf s) as [e ->]. exact I.
    + rewrite Hq. intros s'. rewrite exec_bind. destruct (Hk s') as [e ->]. exact I.
Qed.

(** A fan-out whose lookups complete in an order that includes every
    item leaves no callback waiting. *)
Lemma fan_out_drains {Itm : Type} `{FanOut Itm} mk items order s :
  (forall j, j < length items -> j ∈ order) ->
  snd (settle o order (snd (spawn_all (map (fo_cb mk items) items) 0 s))
         (fst (spawn_all (map (fo_cb mk items) items) 0 s))) = ∅.
Proof.
  intros Hord.
  destruct (spawn_total (map (fo_cb mk items) items) 0 s) as [H1 H2].
  { apply Forall_forall. intros c (it & -> & _)%list_elem_of_fmap. apply fo_cb_awaits_once. }
  apply settle_drains; [exact H1|]. intros j Hj. apply Hord.
  specialize (H2 j Hj). rewrite length_map in H2. lia.
Qed.

End FanOutComplete.

(** ** The items of [search] and of playlists and albums *)

Section Instances.
Context `{SpotifyEnv}.

(** The outcome of a [search] callback (lines 122-146). *)
Definition search_outcome (o : forall q, SAnswer q) (it : option SItem) : CbOutcome :=
  match it with
  | None => CbSkipped
  | Some d =>
      match si_artists d with
      | [] => CbThrows
      | a0 :: _ =>
          match o (QSearchDefault (si_name d +:+ " " +:+ a0)) with
          | SROther _ => CbSkipped
          | SRSearch [] => CbThrows
          | SRSearch (t0 :: _) =>
              match si_external_ids d with
              | Some ids => CbBuilt (search_track d (lt_info t0) ids)
              | None => CbThrows
              end
          end
      end
  end.

(** Line 160 compares the title with [name] and the author with the
    joined artists. *)
Definition search_key (it : option SItem) : string * string :=
  match it with Some d => (si_name d, join_names (si_artists d)) | None => ("", "") end.

Lemma search_outcome_key o it ti : search_outcome o it = CbBuilt ti -> track_key ti = search_key it.
Proof.
  destruct it as [d|]; [|discriminate]. cbn.
  destruct (si_artists d) eqn:Ha; [discriminate|].
  destruct (o _) as [[|? ?]|]; try discriminate.
  destruct (si_external_ids d); [|discriminate]. intros [= <-].
  unfold track_key. cbn. rewrite Ha. reflexivity.
Qed.

Lemma search_matches_exec o it ti t s :
  search_outcome o it = CbBuilt ti ->
  exec (search_matches t it) s = Done (key_eqb (track_key t) (search_key it)) s.
Proof. destruct it; [reflexivity | discriminate]. Qed.

Lemma search_outcome_spec o it : body_behaves o (search_body it) (search_outcome o it).
Proof.
  destruct it as [d|]; [|left; reflexivity].
  unfold search_outcome, search_body.
  destruct (si_artists d) as [|a0 rest] eqn:Ha; cbn.
  { left. intros s. eexists. reflexivity. }
  destruct (o (QSearchDefault (si_name d +:+ " " +:+ a0))) as [[|t0 l]|lt] eqn:Ho; cbn.
  - right. exists (QSearchDefault (si_name d +:+ " " +:+ a0)). eexists. split.
    + intros s. reflexivity.
    + intros s. cbn. rewrite Ho. eexists. reflexivity.
  - destruct (si_external_ids d) as [ids|] eqn:He; cbn.
    + exists (QSearchDefault (si_name d +:+ " " +:+ a0)). eexists. split.
      * intros s. reflexivity.
      * intros s. cbn. rewrite Ho. cbn. reflexivity.
    + right. exists (QSearchDefault (si_name d +:+ " " +:+ a0)). eexists. split.
      * intros s. reflexivity.
      * intros s. cbn. rewrite Ho. cbn. eexists. reflexivity.
  - right. exists (QSearchDefault (si_name d +:+ " " +:+ a0)). eexists. split.
    + intros s. reflexivity.
    + intros s. cbn. rewrite Ho. reflexivity.
Qed.

Lemma search_matches_nonblocking t it : nonblocking (search_matches t it).
Proof. unfold search_matches, some_or_throw. nb_tac. Qed.

#[export] Instance search_fan_out : FanOut (option SItem) :=
  {| fo_body := search_body; fo_matches := search_matches; fo_stoppable := false;
     fo_outcome := search_outcome; fo_key := search_key;
     fo_outcome_key := search_outcome_key; fo_matches_exec := search_matches_exec;
     fo_outcome_spec := search_outcome_spec;
     fo_matches_nonblocking := search_matches_nonblocking |}.

(** The outcome of a playlist or album callback (lines 330-356). *)
Definition list_outcome (o : forall q, SAnswer q) (it : option PItem) : CbOutcome :=
  match it with
  | None => CbSkipped
  | Some p =>
      match pi_artists p with
      | [] => CbThrows
      | a0 :: _ =>
          match o (QSearchDefault (pi_name p +:+ " " +:+ a0)) with
          | SROther _ => CbSkipped
          | SRSearch [] => CbThrows
          | SRSearch (t0 :: _) => CbBuilt (list_track p a0 (lt_info t0))
          end
      end
  end.

(** Line 370 compares the title with [name] and the author with the
    first artist. *)
Definition list_key (it : option PItem) : string * string :=
  match it with
  | Some p => (pi_name p, match pi_artists p with a0 :: _ => a0 | [] => "" end)
  | None => ("", "")
  end.

Lemma list_outcome_key o it ti : list_outcome o it = CbBuilt ti -> track_key ti = list_key it.
Proof.
  destruct it as [p|]; [|discriminate]. cbn.
  destruct (pi_artists p); [discriminate|].
  destruct (o _) as [[|? ?]|]; try discriminate. intros [= <-]. reflexivity.
Qed.

Lemma list_matches_exec o it ti t s :
  list_outcome o it = CbBuilt ti ->
  exec (list_matches t it) s = Done (key_eqb (track_key t) (list_key it)) s.
Proof.
  destruct it as [p|]; [|discriminate]. cbn.
  destruct (pi_artists p) as [|a0 rest]; [discriminate|]. intros _.
  unfold key_eqb. cbn. destruct (String.eqb (title t) (pi_name p)); reflexivity.
Qed.

Lemma list_outcome_spec o it : body_behaves o (list_body it) (list_outcome o it).
Proof.
  destruct it as [p|]; [|left; reflexivity].
  unfold list_outcome, list_body.
  destruct (pi_artists p) as [|a0 rest] eqn:Ha; cbn.
  { left. intros s. eexists. reflexivity. }
  destruct (o (QSearchDefault (pi_name p +:+ " " +:+ a0))) as [[|t0 l]|lt] eqn:Ho; cbn.
  - right. exists (QSearchDefault (pi_name p +:+ " " +:+ a0)). eexists. split.
    + intros s. reflexivity.
    + intros s. cbn. rewrite Ho. eexists. reflexivity.
  - exists (QSearchDefault (pi_name p +:+ " " +:+ a0)). eexists. split.
    + intros s. reflexivity.
    + intros s. cbn. rewrite Ho. reflexivity.
  - right. exists (QSearchDefault (pi_name p +:+ " " +:+ a0)). eexists. split.
    + intros s. reflexivity.
    + intros s. cbn. rewrite Ho. reflexivity.
Qed.

Lemma list_matches_nonblocking t it : nonblocking (list_matches t it).
Proof. unfold list_matches, some_or_throw, nth_or_throw. nb_tac. Qed.

#[export] Instance list_fan_out : FanOut (option PItem) :=
  {| fo_body := list_body; fo_matches := list_matches; fo_stoppable := true;
     fo_outcome := list_outcome; fo_key := list_key;
     fo_outcome_key := list_outcome_key; fo_matches_exec := list_matches_exec;
     fo_outcome_spec := list_outcome_spec;
     fo_matches_nonblocking := list_matches_nonblocking |}.

End Instances.
