(* ===== verification/Rerank.v ===== *)
(** * Rerank: the theorems on [spotify.js]

    What [search], [loadFrom] and [init] resolve with: at most
    [maxResultsLength] lookups in flight, every callback completing,
    and a callback that throws leaving the promise pending for every
    completion order (from [FanOut.fan_out_throw_pending]); the catalogue
    order restored for [search] and for playlists and albums whatever
    the completion order of the lookups (from [FanOut.fan_out_order]),
    duplicates aliased and a [null] entry leaving [search] pending (on
    concrete catalogues, for every completion order), a show never
    yielding a track (by the guarantee [keeps_no_tracks] of its
    callbacks), the API errors of [loadFrom], a track load and [init]. *)

From S2P Require Import Prelude Model Spotify FanOut.

Local Open Scope string_scope.

Local Abbreviation C := (prog SpSt SQuery SAnswer).


(** ** The lookups of a fan-out *)

(** C20: [search] keeps at most [maxResultsLength] lookups in flight:
    the synchronous pass over the (truncated) catalogue items leaves at
    most [min(maxResultsLength, items.length)] callbacks awaiting
    [searchWithDefault]. *)
Theorem search_lookups_bounded `{SpotifyEnv} (resp : SearchResp) cbs s1 :
  exec (search_main resp) sp_init = Done cbs s1 ->
  size (snd (spawn_all cbs 0 s1)) <= Nat.min maxResultsLength (length (sr_items resp)).
Proof.
  unfold search_main. destruct (Z.eqb _ _); intros [= <- <-].
  - cbn [spawn_all snd]. rewrite map_size_empty. lia.
  - etransitivity; [apply spawn_size|]. rewrite length_map, length_take. lia.
Qed.

(** C21: When the callback of one of the first [maxResultsLength]
    catalogue items throws (its lookup finds no track, the item has no
    artist or no [external_ids]), [search] never resolves, whatever order
    the other lookups complete in: that callback never reaches the
    [index == items.length - 1] test, so no callback sees the last count. *)
Theorem search_throw_pending `{SpotifyEnv} (o : forall q, SAnswer q) (resp : SearchResp)
    (order : list nat) j it :
  totalCount resp <> 0%Z ->
  take maxResultsLength (sr_items resp) !! j = Some it ->
  search_outcome o it = CbThrows ->
  sp_resolved (search_run o order resp) = None.
Proof.
  intros Htot Hj Ht. unfold search_run, search_main.
  rewrite (proj2 (Z.eqb_neq _ _)) by exact Htot.
  exact (fan_out_throw_pending o LSearch _ j it order sp_init Hj Ht eq_refl eq_refl).
Qed.

(** C22: When the callback of one of the first [maxAlbumPlaylistLength]
    entries of a playlist or an album throws (its lookup finds no track,
    or the entry has no artist), [loadFrom] never resolves, whatever
    order the other lookups complete in. *)
Theorem loadFrom_list_throw_pending `{SpotifyEnv} (o : forall q, SAnswer q) order type1 id ep
    name entries j it :
  endpoint type1 id = Some ep ->
  (String.eqb type1 "playlist" || String.eqb type1 "album") = true ->
  o (QApi ep) = {| api_error := None; api_data := DList name entries |} ->
  take maxAlbumPlaylistLength entries !! j = Some it ->
  list_outcome o it = CbThrows ->
  sp_resolved (loadFrom_run o order type1 id) = None.
Proof.
  intros Hep Ht Ho Hj Hthr.
  unfold loadFrom_run, loadFrom_main. rewrite Hep. cbn. rewrite Ho. cbn. rewrite Ht. cbn.
  exact (fan_out_throw_pending o (LList type1 name) _ j it order sp_init Hj Hthr eq_refl eq_refl).
Qed.

(** C19: Once each lookup of [search] has been answered, in any order
    that covers them, no callback is left waiting: every callback runs
    to its end, so a [search] that never resolves is not one whose
    callbacks are suspended. *)
Theorem search_callbacks_complete `{SpotifyEnv} (o : forall q, SAnswer q) (resp : SearchResp)
    order cbs s1 :
  exec (search_main resp) sp_init = Done cbs s1 ->
  (forall j, j < length cbs -> j ∈ order) ->
  snd (settle o order (snd (spawn_all cbs 0 s1)) (fst (spawn_all cbs 0 s1))) = ∅.
Proof.
  unfold search_main. destruct (Z.eqb _ _); intros [= <- <-] Hord.
  - apply settle_drains; [apply map_Forall_empty|].
    intros j [? Hj]. cbn [spawn_all snd] in Hj. rewrite lookup_empty in Hj. discriminate.
  - rewrite length_map in Hord. exact (fan_out_drains o LSearch _ order sp_init Hord).
Qed.

(** ** The order of the catalogue *)

(** C11: Whatever order the [searchWithDefault] lookups complete in,
    when every catalogue item builds a track and no two of them have
    the same title and artists, [search] resolves with the tracks in the
    order of the catalogue, the [j]-th with [position = j]. *)
Theorem search_restores_order `{SpotifyEnv} (o : forall q, SAnswer q) (resp : SearchResp)
    (order : list nat) (tis : list TrackInfo) :
  totalCount resp <> 0%Z ->
  built_all o (take maxResultsLength (sr_items resp)) tis ->
  NoDup (track_key <$> tis) ->
  order ≡ₚ seq 0 (length tis) ->
  tis <> [] ->
  exists refs, sp_resolved (search_run o order resp) = Some (LSearch refs) /\
    (fun r => lt_info <$> sp_store (search_run o order resp) !! r) <$> refs =
    (fun j => Some (set_info_position (Z.of_nat j) (tis !!! j))) <$> seq 0 (length tis).
Proof.
  intros Htot Hb Hkeys Hperm Hne.
  assert (Hmain : search_run o order resp =
    fan_out o order (map (search_cb (take maxResultsLength (sr_items resp)))
                         (take maxResultsLength (sr_items resp))) sp_init).
  { unfold search_run, search_main. rewrite (proj2 (Z.eqb_neq _ _)) by exact Htot. reflexivity. }
  rewrite Hmain. eexists. exact (fan_out_order o LSearch _ tis Hb order Hkeys Hperm Hne).
Qed.

(** C12: Whatever order the lookups complete in, when every item of a
    playlist or an album builds a track and no two have the same title
    and first artist, [loadFrom] resolves with the tracks in the order of
    the list, the [j]-th with [position = j]. *)
Theorem loadFrom_list_restores_order `{SpotifyEnv} (o : forall q, SAnswer q) order type1 id ep
    name entries (tis : list TrackInfo) :
  endpoint type1 id = Some ep ->
  (String.eqb type1 "playlist" || String.eqb type1 "album") = true ->
  o (QApi ep) = {| api_error := None; api_data := DList name entries |} ->
  built_all o (take maxAlbumPlaylistLength entries) tis ->
  NoDup (track_key <$> tis) ->
  order ≡ₚ seq 0 (length tis) ->
  tis <> [] ->
  exists refs, sp_resolved (loadFrom_run o order type1 id) = Some (LList type1 name refs) /\
    (fun r => lt_info <$> sp_store (loadFrom_run o order type1 id) !! r) <$> refs =
    (fun j => Some (set_info_position (Z.of_nat j) (tis !!! j))) <$> seq 0 (length tis).
Proof.
  intros Hep Ht Ho Hb Hkeys Hperm Hne.
  unfold loadFrom_run, loadFrom_main. rewrite Hep. cbn. rewrite Ho. cbn. rewrite Ht. cbn.
  eexists. exact (fan_out_order o (LList type1 name) _ tis Hb order Hkeys Hperm Hne).
Qed.

(** ** The token wait, [init] and the API answers of [loadFrom] *)

(** C26: [init] stores both tokens when the token endpoint answers an
    object and the client-token endpoint grants a token; with a [null]
    token answer ([typeof null] is ['object']) it still asks for the
    client token, then throws a [TypeError] and leaves [playerInfo] as
    it was. *)
Theorem init_outcomes (pi : PlayerInfo) (a c : option string) (o : forall q, IAnswer q) :
  (o QClientToken = CliObject "RESPONSE_GRANTED_TOKEN_RESPONSE" (Some c) ->
   o QAccessToken = TokObject a ->
   run o init pi = RDone tt {| accessToken := a; clientToken := c |}) /\
  (o QClientToken = CliObject "RESPONSE_GRANTED_TOKEN_RESPONSE" (Some c) ->
   o QAccessToken = TokNull ->
   run o init pi = RFailed (TypeError "Cannot read properties of null (reading 'accessToken')") pi).
Proof. split; intros Hc Ht; cbn; rewrite Ht; cbn; rewrite Hc; reflexivity. Qed.

Lemma settle_empty o order s : settle o order ∅ s = (s, ∅).
Proof. induction order; cbn; [reflexivity|]. rewrite lookup_empty. assumption. Qed.

(** C24: An error answer of the Spotify API settles [loadFrom] with
    [empty] for status 400 or ["Invalid playlist Id"], with [error] and
    the API's message otherwise; status 401 calls [setSpotifyToken],
    which is bound nowhere, so the executor throws a [ReferenceError]
    and the promise never settles. *)
Theorem loadFrom_api_error `{SpotifyEnv} (o : forall q, SAnswer q) order type1 type2 ep e :
  endpoint type1 type2 = Some ep -> api_error (o (QApi ep)) = Some e ->
  sp_resolved (loadFrom_run o order type1 type2) =
  if Z.eqb (err_status e) 401 then None
  else if Z.eqb (err_status e) 400 then Some LEmpty
  else if String.eqb (err_message e) "Invalid playlist Id" then Some LEmpty
  else Some (LError (err_message e)).
Proof.
  intros Hep He. unfold loadFrom_run, loadFrom_main. rewrite Hep. cbn. rewrite He.
  unfold on_api_error.
  destruct (Z.eqb (err_status e) 401); [reflexivity|]. cbn.
  destruct (Z.eqb (err_status e) 400); cbn; [rewrite settle_empty; reflexivity|].
  destruct (String.eqb _ _); cbn; rewrite settle_empty; reflexivity.
Qed.

(** C25: [loadFrom] of a track the API describes, whose lookup finds a
    track, resolves with the Spotify metadata (name, first artist,
    Spotify url, first album image, ISRC) and the identifier and length
    of the lookup's first result, at position 0. *)
Theorem loadFrom_track `{SpotifyEnv} (o : forall q, SAnswer q) order id
    name a0 artists url img images isrc0 t0 ts :
  o (QApi ("/tracks/" +:+ id)) =
    {| api_error := None; api_data := DTrack name (a0 :: artists) url (img :: images) (Some isrc0) |} ->
  o (QSearchDefault (dq +:+ name +:+ " " +:+ a0 +:+ dq)) = SRSearch (t0 :: ts) ->
  sp_resolved (loadFrom_run o order "track" id) =
    let ti := {| identifier := identifier (lt_info t0); isSeekable := true; author := a0;
                 info_length := info_length (lt_info t0); isStream := false; position := 0;
                 title := name; uri := url; artworkUrl := Some img; isrc := isrc0;
                 sourceName := "spotify" |} in
    Some (LTrack {| lt_encoded := encodeTrack ti; lt_info := ti |}).
Proof.
  intros Ha Hs. unfold loadFrom_run, loadFrom_main. cbn. rewrite Ha. cbn. rewrite Hs.
  cbn. rewrite settle_empty. reflexivity.
Qed.


(** ** Shows *)

(** A settled promise, if any, lists no track. *)
Definition no_tracks (r : option LoadResult) : Prop :=
  match r with
  | Some (LList _ _ (_ :: _)) | Some (LSearch (_ :: _)) => False
  | _ => True
  end.

(** The promise is left as it was, or settled without a track. *)
Definition keeps_no_tracks (s s' : SpSt) : Prop :=
  sp_resolved s' = sp_resolved s \/ no_tracks (sp_resolved s').

#[export] Instance keeps_no_tracks_refl : Reflexive keeps_no_tracks.
Proof. intros s. left. reflexivity. Qed.

#[export] Instance keeps_no_tracks_trans : Transitive keeps_no_tracks.
Proof. intros s1 s2 s3 [E1|N1] [E2|N2]; unfold keeps_no_tracks; rewrite ?E2, ?E1; auto. Qed.

(** A write that leaves the promise, or settles it without a track. *)
Ltac keeps_tac :=
  first [ left; reflexivity
        | unfold resolve_f; case_match; [left; reflexivity | right; exact I] ].

Ltac guar_keeps :=
  repeat (cbn -[join_inner join_outer];
          first [ match goal with H : _ && false = true |- _ =>
                          rewrite andb_false_r in H; discriminate H end
                | apply guar_ret | apply guar_throw | apply guar_get
                | apply guar_put; [keeps_tac|]
                | apply guar_await; intros
                | progress unfold when, some_or_throw, nth_or_throw
                | case_match ]).

Section Shows.
Context `{SpotifyEnv} (name : string).

(** An episode without a top-level [publisher] matches no track, so a
    rejoin over such episodes keeps [new_tracks] empty. *)
Lemma guar_join_inner_show {A} n it i2 refs k ntr (f : list nat -> C A) :
  ep_publisher it = None -> (forall s, guar keeps_no_tracks s (f [])) ->
  forall s, guar keeps_no_tracks s
    (join_inner show_matches true n (LList "show" name) it i2 refs k ntr [] ≫= f).
Proof.
  intros Hp Hf. revert k. induction refs as [|r refs IH]; intros k s; [apply Hf|].
  cbn [join_inner]. unfold show_matches. rewrite Hp. guar_keeps; apply IH.
Qed.

Lemma guar_join_outer_show n items i2 refs :
  Forall (fun e => ep_publisher e = None) items ->
  forall s, guar keeps_no_tracks s (join_outer show_matches true n (LList "show" name) items i2 refs []).
Proof.
  intros Hi. revert i2. induction Hi as [|it items Hit _ IH]; intros i2 s.
  - apply guar_ret.
  - cbn [join_outer]. apply guar_join_inner_show; [exact Hit|]. apply IH.
Qed.

Lemma guar_show_cb eps e :
  Forall (fun e => ep_publisher e = None) eps ->
  forall s, guar keeps_no_tracks s (show_cb name eps e).
Proof.
  intros Heps s. unfold show_cb. apply guar_bind.
  - unfold show_body, push_track. guar_keeps.
  - intros _ s'. unfold cb_tail. guar_keeps.
    apply guar_bind; [apply guar_join_outer_show, Heps | intros; guar_keeps].
Qed.

End Shows.

(** C17: A show's episodes are matched against [episode2.publisher], a
    field the code reads nowhere else (the author is [show.publisher]):
    when no episode has a top-level [publisher], [loadFrom] of a show
    never resolves with a track, whatever the API answers and whatever
    order the lookups complete in. *)
Theorem show_never_lists_tracks `{SpotifyEnv} (o : forall q, SAnswer q) order type2 err name eps :
  o (QApi ("/shows/" +:+ type2 +:+ "?market=" +:+ market)) =
    {| api_error := err; api_data := DShow name eps |} ->
  Forall (fun e => ep_publisher e = None) eps ->
  no_tracks (sp_resolved (loadFrom_run o order "show" type2)).
Proof.
  intros Ho Heps. unfold loadFrom_run, loadFrom_main. cbn. rewrite Ho. cbn.
  destruct err as [e|].
  - unfold on_api_error. destruct (Z.eqb (err_status e) 401); cbn; [exact I|].
    destruct (Z.eqb (err_status e) 400); cbn; [rewrite settle_empty; exact I|].
    destruct (String.eqb _ _); cbn; rewrite settle_empty; exact I.
  - set (eps' := take maxAlbumPlaylistLength eps). cbn.
    assert (Heps' : Forall (fun e => ep_publisher e = None) eps') by (apply Forall_take, Heps).
    destruct (fan_out_guar keeps_no_tracks o order (map (show_cb name eps') eps') sp_init)
      as [E|N]; [| rewrite E; exact I | exact N].
    apply Forall_map, Forall_forall. intros e _. apply guar_show_cb, Heps'.
Qed.

(** ** Two catalogues that break the rejoin *)

Section Catalogues.

#[local] Instance demo_spotify_env : SpotifyEnv :=
  {| encodeTrack := fun t => title t; maxResultsLength := 10; maxAlbumPlaylistLength := 100;
     market := "US" |}.

(** Every lookup finds one track, named after the query. *)
Definition found_track (q : string) : LoadedTrack :=
  mkLT {| identifier := q; isSeekable := true; author := "uploader"; info_length := 1000;
          isStream := false; position := 0; title := q; uri := "https://youtube.com/" +:+ q;
          artworkUrl := None; isrc := None; sourceName := "youtube" |}.

Definition lookups_found : forall q, SAnswer q :=
  fun q => match q as q0 return SAnswer q0 with
           | QSearchDefault s => SRSearch [found_track s]
           | QApi _ => {| api_error := None; api_data := DNone |}
           end.

Definition catalogue_item (name artist : string) : option SItem :=
  Some {| si_name := name; si_artists := [artist]; si_duration := 1000;
          si_uri := "spotify:track:" +:+ name; si_external_ids := Some None |}.

(** The same recording listed twice. *)
Definition resp_duplicate : SearchResp :=
  {| totalCount := 2; sr_items := [catalogue_item "Song" "Band"; catalogue_item "Song" "Band"] |}.

(** A [null] entry between two tracks. *)
Definition resp_with_null : SearchResp :=
  {| totalCount := 3; sr_items := [catalogue_item "A" "x"; None; catalogue_item "C" "y"] |}.

Lemma perm_two_cases (a b : nat) order :
  order ≡ₚ [a; b] -> order = [a; b] \/ order = [b; a].
Proof. intros Hp. symmetry in Hp. exact (Permutation_length_2_inv Hp). Qed.

(** C23: When the catalogue lists the same title and artists twice,
    [search] resolves with four results for two entries, in any
    completion order: each built track is pushed once per matching
    entry, the two copies are the same object, and both show the
    position of the last entry. *)
Theorem search_duplicates_aliased order :
  order ≡ₚ [0; 1] ->
  sp_resolved (search_run lookups_found order resp_duplicate) = Some (LSearch [0; 1; 0; 1]) /\
  (fun t => position (lt_info t)) <$> sp_store (search_run lookups_found order resp_duplicate) =
    [1; 1]%Z.
Proof. intros [-> | ->]%perm_two_cases; vm_compute; split; reflexivity. Qed.

(** C18: A [null] entry in the catalogue leaves [search] pending for ever,
    in any completion order, although both other entries built their
    tracks: the rejoin reads [items2.item] of the [null] entry and
    throws before the last pair resolves the promise. *)
Theorem search_null_item_pending order :
  order ≡ₚ [0; 2] ->
  sp_resolved (search_run lookups_found order resp_with_null) = None /\
  length (sp_store (search_run lookups_found order resp_with_null)) = 2.
Proof. intros [-> | ->]%perm_two_cases; vm_compute; split; reflexivity. Qed.


(** Two distinct recordings. *)
Definition resp_two : SearchResp :=
  {| totalCount := 2; sr_items := [catalogue_item "A" "x"; catalogue_item "B" "y"] |}.

Definition tis_two : list TrackInfo :=
  Eval vm_compute in omap (outcome_track ∘ search_outcome lookups_found) (sr_items resp_two).

Lemma search_restores_order_witness :
  exists refs, sp_resolved (search_run lookups_found [1; 0] resp_two) = Some (LSearch refs) /\
    (fun r => lt_info <$> sp_store (search_run lookups_found [1; 0] resp_two) !! r) <$> refs =
    (fun j => Some (set_info_position (Z.of_nat j) (tis_two !!! j))) <$> seq 0 (length tis_two).
Proof.
  apply (search_restores_order lookups_found resp_two [1; 0] tis_two).
  - discriminate.
  - repeat constructor.
  - vm_compute. apply (bool_decide_unpack _). vm_compute. reflexivity.
  - apply Permutation_swap.
  - discriminate.
Defined.

Lemma search_duplicates_aliased_witness :
  sp_resolved (search_run lookups_found [1; 0] resp_duplicate) = Some (LSearch [0; 1; 0; 1]) /\
  (fun t => position (lt_info t)) <$> sp_store (search_run lookups_found [1; 0] resp_duplicate) =
    [1; 1]%Z.
Proof. apply (search_duplicates_aliased [1; 0]). apply Permutation_swap. Defined.

Lemma search_null_item_pending_witness :
  sp_resolved (search_run lookups_found [2; 0] resp_with_null) = None /\
  length (sp_store (search_run lookups_found [2; 0] resp_with_null)) = 2.
Proof. apply (search_null_item_pending [2; 0]). apply Permutation_swap. Defined.

(** The API answers every request with the error [e]. *)
Definition api_fails (e : ApiError) : forall q, SAnswer q :=
  fun q => match q as q0 return SAnswer q0 with
           | QSearchDefault s => SRSearch [found_track s]
           | QApi _ => {| api_error := Some e; api_data := DNone |}
           end.

Lemma loadFrom_api_error_witness :
  sp_resolved (loadFrom_run (api_fails {| err_status := 401; err_message := "expired" |}) []
                 "track" "abc") = None.
Proof.
  exact (loadFrom_api_error (api_fails {| err_status := 401; err_message := "expired" |}) []
           "track" "abc" "/tracks/abc" {| err_status := 401; err_message := "expired" |}
           eq_refl eq_refl).
Defined.

(** The API describes track [abc]; lookups find it. *)
Definition api_track : forall q, SAnswer q :=
  fun q => match q as q0 return SAnswer q0 with
           | QSearchDefault s => SRSearch [found_track s]
           | QApi _ => {| api_error := None;
                          api_data := DTrack "Song" ["Band"] "https://open.spotify.com/track/abc"
                                        ["https://i.scdn.co/a.jpg"] (Some (Some "USRC1")) |}
           end.

Lemma loadFrom_track_witness :
  sp_resolved (loadFrom_run api_track [] "track" "abc") =
    Some (LTrack (mkLT (track_track "Song" "Band" "https://open.spotify.com/track/abc"
                          "https://i.scdn.co/a.jpg" (Some "USRC1")
                          (lt_info (found_track (dq +:+ "Song Band" +:+ dq)))))).
Proof. apply (loadFrom_track api_track [] "abc" _ _ [] _ _ [] _ _ []); reflexivity. Defined.

(** A show of two episodes, as the API describes them. *)
Definition demo_episode (nm : string) : Episode :=
  {| ep_name := nm; ep_show_publisher := Some "Studio"; ep_publisher := None;
     ep_url := "https://open.spotify.com/episode/" +:+ nm; ep_images := ["https://i.scdn.co/e.jpg"];
     ep_external_ids := Some None |}.

Definition api_show : forall q, SAnswer q :=
  fun q => match q as q0 return SAnswer q0 with
           | QSearchDefault s => SRSearch [found_track s]
           | QApi _ => {| api_error := None;
                          api_data := DShow "Podcast" [demo_episode "e1"; demo_episode "e2"] |}
           end.

Lemma show_never_lists_tracks_witness :
  no_tracks (sp_resolved (loadFrom_run api_show [1; 0] "show" "xyz")).
Proof.
  apply (show_never_lists_tracks api_show [1; 0] "xyz" None "Podcast"
           [demo_episode "e1"; demo_episode "e2"]); [reflexivity|].
  repeat constructor.
Defined.

(** A playlist of two tracks. *)
Definition playlist_item (name artist : string) : option PItem :=
  Some {| pi_name := name; pi_artists := [artist];
          pi_url := "https://open.spotify.com/track/" +:+ name |}.

Definition api_playlist : forall q, SAnswer q :=
  fun q => match q as q0 return SAnswer q0 with
           | QSearchDefault s => SRSearch [found_track s]
           | QApi _ => {| api_error := None;
                          api_data := DList "Mix" [playlist_item "A" "x"; playlist_item "B" "y"] |}
           end.

Definition tis_playlist : list TrackInfo :=
  Eval vm_compute in omap (outcome_track ∘ list_outcome api_playlist) [playlist_item "A" "x"; playlist_item "B" "y"].

Lemma loadFrom_list_restores_order_witness :
  exists refs, sp_resolved (loadFrom_run api_playlist [1; 0] "playlist" "p1") =
      Some (LList "playlist" "Mix" refs) /\
    (fun r => lt_info <$> sp_store (loadFrom_run api_playlist [1; 0] "playlist" "p1") !! r) <$> refs =
    (fun j => Some (set_info_position (Z.of_nat j) (tis_playlist !!! j))) <$> seq 0 (length tis_playlist).
Proof.
  apply (loadFrom_list_restores_order api_playlist [1; 0] "playlist" "p1" "/playlists/p1" "Mix"
           [playlist_item "A" "x"; playlist_item "B" "y"] tis_playlist).
  - reflexivity.
  - reflexivity.
  - reflexivity.
  - repeat constructor.
  - vm_compute. apply (bool_decide_unpack _). vm_compute. reflexivity.
  - apply Permutation_swap.
  - discriminate.
Defined.

(** The lookups find a track for every query but [miss]; the API
    answers [api]. *)
Definition lookups_missing (miss : string) (api : ApiResp) : forall q, SAnswer q :=
  fun q => match q as q0 return SAnswer q0 with
           | QSearchDefault s => if String.eqb s miss then SRSearch [] else SRSearch [found_track s]
           | QApi _ => api
           end.

(** A catalogue entry without [external_ids]. *)
Definition resp_no_ids : SearchResp :=
  {| totalCount := 2;
     sr_items := [catalogue_item "A" "x";
                  Some {| si_name := "B"; si_artists := ["y"]; si_duration := 1000;
                          si_uri := "spotify:track:B"; si_external_ids := None |}] |}.

Lemma search_throw_pending_witness :
  sp_resolved (search_run lookups_found [1; 0] resp_no_ids) = None.
Proof.
  apply (search_throw_pending lookups_found resp_no_ids [1; 0] 1 (resp_no_ids.(sr_items) !!! 1%nat));
    [discriminate | reflexivity | vm_compute; reflexivity].
Defined.

Lemma loadFrom_list_throw_pending_witness :
  sp_resolved (loadFrom_run (lookups_missing "A x" (api_playlist (QApi "/playlists/p1")))
                 [0; 1] "playlist" "p1") = None.
Proof.
  apply (loadFrom_list_throw_pending _ [0; 1] "playlist" "p1" "/playlists/p1" "Mix"
           [playlist_item "A" "x"; playlist_item "B" "y"] 0 (playlist_item "A" "x"));
    [reflexivity | reflexivity | reflexivity | reflexivity | vm_compute; reflexivity].
Defined.

(** More catalogue items than [maxResultsLength]. *)
Definition resp_many : SearchResp :=
  {| totalCount := 12; sr_items := repeat (catalogue_item "A" "x") 12 |}.

Lemma search_lookups_bounded_witness :
  size (snd (spawn_all (map (search_cb (take maxResultsLength (sr_items resp_many)))
                          (take maxResultsLength (sr_items resp_many))) 0 sp_init)) <=
  Nat.min maxResultsLength (length (sr_items resp_many)).
Proof. apply (search_lookups_bounded resp_many). reflexivity. Defined.

Lemma search_callbacks_complete_witness :
  snd (settle lookups_found [1; 0]
         (snd (spawn_all (map (search_cb (take maxResultsLength (sr_items resp_no_ids)))
                                (take maxResultsLength (sr_items resp_no_ids))) 0 sp_init))
         (fst (spawn_all (map (search_cb (take maxResultsLength (sr_items resp_no_ids)))
                                (take maxResultsLength (sr_items resp_no_ids))) 0 sp_init))) = ∅.
Proof.
  apply (search_callbacks_complete lookups_found resp_no_ids [1; 0]); [reflexivity|].
  intros j Hj. vm_compute in Hj. destruct j as [|[|j]]; [repeat constructor | constructor | lia].
Defined.

End Catalogues.

Lemma init_outcomes_witness :
  run (fun q => match q as q0 return IAnswer q0 with
                | QAccessToken => TokObject (Some "tok")
                | QClientToken => CliObject "RESPONSE_GRANTED_TOKEN_RESPONSE" (Some (Some "cli"))
                end) init {| accessToken := None; clientToken := None |} =
  RDone tt {| accessToken := Some "tok"; clientToken := Some "cli" |}.
Proof. apply (proj1 (init_outcomes _ (Some "tok") (Some "cli") _)); reflexivity. Defined.
